(** * sstable-tools: expired_sstables.py

    A shallow embedding of the expired-sstable analysis: inclusive ranges,
    the sstable descriptor, the metadata sanity check, the murmur3 token
    hash, the Summary/Statistics decoders, the expiration classifier and the
    blocker resolver, followed by the properties established about them.

    Python integers are unbounded, so every integer is a [Z]; [bytes] is a
    [list byte]; a [str] is a [string].  [sys.exit] and exceptions are kept
    apart because [except Exception] does not catch [SystemExit]. *)

From stdpp Require Import base gmap strings list.
From Stdlib Require Import ZArith Lia Permutation.
From Stdlib.Strings Require Import Byte.

Local Open Scope Z_scope.

(** ** Constants *)

(** [deletion_time_for_never_expiring_sstable], a timestamp in seconds. *)
Definition deletion_time_for_never_expiring_sstable : Z := 2147483647.

(** ** inclusive_range *)

Module Range.

Record inclusive_range := mk { first : Z; last : Z }.

(** [self.first <= other.first <= self.last or
     other.first <= self.first <= other.last] *)
Definition overlaps (self other : inclusive_range) : bool :=
  ((first self <=? first other) && (first other <=? last self))
  || ((first other <=? first self) && (first self <=? last other)).

End Range.

Abbreviation inclusive_range := Range.inclusive_range.

(** ** sstable *)

Record sstable := mk_sstable {
  name : string;               (* name of this sstable *)
  min_timestamp : Z;           (* in microseconds *)
  max_timestamp : Z;           (* in microseconds *)
  max_deletion_time : Z;       (* in seconds *)
  first_token : Z;
  last_token : Z
}.

Definition token_range (self : sstable) : inclusive_range :=
  Range.mk (first_token self) (last_token self).

Definition timestamp_range (self : sstable) : inclusive_range :=
  Range.mk (min_timestamp self) (max_timestamp self).

Definition overlaps_in_token (self : sstable) (other_range : inclusive_range) : bool :=
  let this_range := Range.mk (first_token self) (last_token self) in
  Range.overlaps this_range other_range.

Definition overlaps_in_timestamp (self other : sstable) : bool :=
  let this_range := Range.mk (min_timestamp self) (max_timestamp self) in
  let other_range := Range.mk (min_timestamp other) (max_timestamp other) in
  Range.overlaps this_range other_range.

(** ** Control outcomes

    What a call can end in: a value, an exception ([Exception] subclasses
    raised by [open], [read] and [struct.unpack]) or [SystemExit]. *)

Inductive exn :=
| OSError (filename : string)      (* open() of a path that is not a readable file *)
| StructError (need got : Z)       (* struct.unpack on a buffer of the wrong size *)
| ValueError (n : Z).              (* read() with a length below -1 *)

(** The argument of [sys.exit]; messages are kept structured (the arguments
    of the format string) instead of rendered. *)
Inductive exit_status :=
| ExitCode (code : Z)
| ExitBadMetadata (sst : sstable) (reason : string)
| ExitNoComponent (filename : string)
| ExitBadFormat (filename : string)
| ExitNoStats (filename : string)
| ExitNoMetadata (entry_path : string) (e : exn).

Inductive outcome (A : Type) :=
| Ret (a : A)
| Raise (e : exn)
| SysExit (s : exit_status).
Arguments Ret {A} a.
Arguments Raise {A} e.
Arguments SysExit {A} s.

(** ** Sanity validator *)

(** [exit(sst, reason)] *)
Definition exit {A} (sst : sstable) (reason : string) : outcome A :=
  SysExit (ExitBadMetadata sst reason).

Definition sane_timestamp (ts min_ts max_ts : Z) : bool :=
  (min_ts <=? ts) && (ts <=? max_ts).

Definition sanity_check_sstable_metadata (sst : sstable) (now_in_seconds : Z)
  : outcome unit :=
  if min_timestamp sst =? 0 then exit sst "min_timestamp == 0"
  else if max_timestamp sst =? 0 then exit sst "max_timestamp == 0"
  else if max_deletion_time sst =? 0 then exit sst "max_deletion_time == 0"
  else if max_timestamp sst <? min_timestamp sst
       then exit sst "sst.max_timestamp < sst.min_timestamp"
  else if negb (sane_timestamp (max_deletion_time sst) 1500000000
                  deletion_time_for_never_expiring_sstable)
       then exit sst "max_deletion_time not sane"
  else if negb (sane_timestamp (min_timestamp sst) 1500000000000000 2000000000000000)
       then exit sst "min_timestamp not sane"
  else if negb (sane_timestamp (max_timestamp sst) 1500000000000000 2000000000000000)
       then exit sst "max_timestamp not sane"
  else Ret tt.

(** ** murmur3_token

    The token hash inherited from Cassandra's python-driver.  It works on
    unbounded integers: the high-order bits are left to grow and only the
    final [truncate_int64] brings the first lane back to 64 bits. *)

Module murmur3_token.

Definition INT64_MAX : Z := 2 ^ 63 - 1.
Definition INT64_MIN : Z := - INT64_MAX - 1.
Definition INT64_OVF_OFFSET : Z := INT64_MAX + 1.
Definition INT64_OVF_DIV : Z := 2 * INT64_OVF_OFFSET.

Definition byte_unsigned (b : byte) : Z := Z.of_N (Byte.to_N b).

(** struct format [b]: a signed char. *)
Definition byte_signed (b : byte) : Z :=
  let u := byte_unsigned b in if u <? 128 then u else u - 256.

Fixpoint le_unsigned (bs : list byte) : Z :=
  match bs with
  | [] => 0
  | b :: rest => byte_unsigned b + 256 * le_unsigned rest
  end.

(** struct format [<q]: eight bytes, little-endian, two's complement. *)
Definition unpack_q_le (bs : list byte) : Z :=
  let u := le_unsigned bs in if u <? 2 ^ 63 then u else u - 2 ^ 64.

(** [struct.unpack_from('<' + 'q' * n, data)] *)
Fixpoint unpack_from_q_le (n : nat) (data : list byte) : list Z :=
  match n with
  | O => []
  | S n' => unpack_q_le (take 8 data) :: unpack_from_q_le n' (drop 8 data)
  end.

(** Returns the body words, the tail bytes and the length.  With
    [tail = 0] the offset [-tail] is 0 and the empty format yields [()]. *)
Definition body_and_tail (data : list byte) : list Z * list Z * Z :=
  let l := length data in
  let nblocks := (l / 16)%nat in
  let tail := (l mod 16)%nat in
  (unpack_from_q_le (2 * nblocks) data,
   byte_signed <$> drop (l - tail) data,
   Z.of_nat l).

Definition rotl64 (x r : Z) : Z :=
  let mask := 2 ^ r - 1 in
  Z.lor (Z.shiftl x r) (Z.land (Z.shiftr x (64 - r)) mask).

Definition fmix (k : Z) : Z :=
  let k := Z.lxor k (Z.land (Z.shiftr k 33) 0x7fffffff) in
  let k := k * 0xff51afd7ed558ccd in
  let k := Z.lxor k (Z.land (Z.shiftr k 33) 0x7fffffff) in
  let k := k * 0xc4ceb9fe1a85ec53 in
  let k := Z.lxor k (Z.land (Z.shiftr k 33) 0x7fffffff) in
  k.

Definition truncate_int64 (x : Z) : Z :=
  if negb ((INT64_MIN <=? x) && (x <=? INT64_MAX))
  then (x + INT64_OVF_OFFSET) mod INT64_OVF_DIV - INT64_OVF_OFFSET
  else x.

Definition c1 : Z := -8663945395140668459.
Definition c2 : Z := 0x4cf5ad432745937f.

(** [for i in range(0, len(body), 2)]: the words are consumed in pairs. *)
Fixpoint body_loop (body : list Z) (h1 h2 : Z) : Z * Z :=
  match body with
  | k1 :: k2 :: rest =>
      let k1 := k1 * c1 in
      let k1 := rotl64 k1 31 in
      let k1 := k1 * c2 in
      let h1 := Z.lxor h1 k1 in
      let h1 := rotl64 h1 27 in
      let h1 := h1 + h2 in
      let h1 := h1 * 5 + 0x52dce729 in
      let k2 := k2 * c2 in
      let k2 := rotl64 k2 33 in
      let k2 := k2 * c1 in
      let h2 := Z.lxor h2 k2 in
      let h2 := rotl64 h2 31 in
      let h2 := h2 + h1 in
      let h2 := h2 * 5 + 0x38495ab5 in
      body_loop rest h1 h2
  | _ => (h1, h2)
  end.

(** [range(start, stop, -1)] *)
Definition range_down (start stop : Z) : list Z :=
  (λ j : nat, start - Z.of_nat j) <$> seq 0 (Z.to_nat (start - stop)).

Definition get_token (data : list byte) : Z :=
  let '(body, tail, total_len) := body_and_tail data in
  let '(h1, h2) := body_loop body 0 0 in
  let len_tail := Z.of_nat (length tail) in
  let h2 :=
    if 8 <? len_tail then
      let k2 := fold_left (λ k2 i, Z.lxor k2 (Z.shiftl (nth (Z.to_nat i) tail 0) ((i - 8) * 8)))
                  (range_down (len_tail - 1) 7) 0 in
      let k2 := k2 * c2 in
      let k2 := rotl64 k2 33 in
      let k2 := k2 * c1 in
      Z.lxor h2 k2
    else h2 in
  let h1 :=
    if negb (len_tail =? 0) then
      let k1 := fold_left (λ k1 i, Z.lxor k1 (Z.shiftl (nth (Z.to_nat i) tail 0) (i * 8)))
                  (range_down (Z.min 7 (len_tail - 1)) (-1)) 0 in
      let k1 := k1 * c1 in
      let k1 := rotl64 k1 31 in
      let k1 := k1 * c2 in
      Z.lxor h1 k1
    else h1 in
  let h1 := Z.lxor h1 total_len in
  let h2 := Z.lxor h2 total_len in
  let h1 := h1 + h2 in
  let h2 := h2 + h1 in
  let h1 := fmix h1 in
  let h2 := fmix h2 in
  let h1 := h1 + h2 in
  truncate_int64 h1.

End murmur3_token.

(** ** Strings and paths *)

(** [s.find(sub) != -1] *)
Definition py_contains (s sub : string) : bool :=
  bool_decide (is_Some (String.index 0 sub s)).

(** [s.replace(old, new)] for a non-empty [old]: every non-overlapping
    occurrence, scanning left to right.  [skip] counts the characters of a
    match that are still to be dropped. *)
Fixpoint replace_from (old new : string) (skip : nat) (s : string) : string :=
  match s with
  | EmptyString => EmptyString
  | String c rest =>
      match skip with
      | S k => replace_from old new k rest
      | O =>
          if String.prefix old s
          then new +:+ replace_from old new (String.length old - 1) rest
          else String c (replace_from old new 0 rest)
      end
  end.

Definition py_replace (s old new : string) : string := replace_from old new 0 s.

(** [s.endswith(suffix)] *)
Definition py_endswith (s suffix : string) : bool :=
  String.prefix (String.rev suffix) (String.rev s).

(** [os.path.basename]: what follows the last slash. *)
Fixpoint basename (p : string) : string :=
  match p with
  | EmptyString => EmptyString
  | String c rest =>
      if py_contains rest "/" then basename rest
      else if Ascii.eqb c (Ascii.ascii_of_nat 47) then rest else p
  end.

(** [os.path.join(a, b)] (POSIX). *)
Definition path_join (a b : string) : string :=
  if String.prefix "/" b then b
  else if String.eqb a "" || py_endswith a "/" then a +:+ b
  else a +:+ "/" +:+ b.

(** ** Files

    The part of the file system the tool reads: the regular files with
    their content, and the directory listings. *)

Record filesystem := mk_filesystem {
  files : gmap string (list byte);
  dirs : gmap string (list string)
}.

(** [os.path.isfile] *)
Definition isfile (fs : filesystem) (path : string) : bool :=
  bool_decide (is_Some (files fs !! path)).

(** An open binary file: its content and the read position. *)
Record file := mk_file { content : list byte; position : Z }.

(** Code running with an open file: it either raises or returns a value
    and the file at its new position. *)
Definition io (A : Type) : Type := file → exn + A * file.

Definition io_ret {A} (a : A) : io A := λ f, inr (a, f).
Definition io_raise {A} (e : exn) : io A := λ _, inl e.
Definition io_bind {A B} (m : io A) (k : A → io B) : io B :=
  λ f, match m f with
       | inl e => inl e
       | inr (a, f') => k a f'
       end.

Declare Scope io_scope.
Delimit Scope io_scope with io.
Notation "x <- m ;; k" := (io_bind m (λ x, k))
  (at level 100, m at level 99, k at level 200, right associativity,
   format "'[v' x  <-  m ;; '/' k ']'") : io_scope.
Notation "m ;; k" := (io_bind m (λ _, k))
  (at level 100, k at level 200, right associativity,
   format "'[v' m ;; '/' k ']'") : io_scope.

(** [f.read(n)]: at most [n] bytes, fewer at the end of the file, all the
    rest for [n = -1]; a length below -1 is a [ValueError].  The buffer for
    the result is taken to be available whatever [n] is. *)
Definition read (n : Z) : io (list byte) := λ f,
  if n <? -1 then inl (ValueError n)
  else
    let len := Z.of_nat (length (content f)) in
    let rest := drop (Z.to_nat (Z.min (position f) len)) (content f) in
    let got := if n =? -1 then rest
               else take (Z.to_nat (Z.min n (Z.of_nat (length rest)))) rest in
    inr (got, mk_file (content f) (position f + Z.of_nat (length got))).

(** [f.seek(offset)], with an offset that is never negative here. *)
Definition seek (offset : Z) : io unit := λ f,
  inr (tt, mk_file (content f) offset).

Definition be_unsigned (bs : list byte) : Z :=
  fold_left (λ acc b, acc * 256 + murmur3_token.byte_unsigned b) bs 0.

(** [struct.unpack('>I', bs)[0]] *)
Definition unpack_I (bs : list byte) : io Z :=
  if Z.of_nat (length bs) =? 4 then io_ret (be_unsigned bs)
  else io_raise (StructError 4 (Z.of_nat (length bs))).

(** [struct.unpack('>q', bs)[0]] *)
Definition unpack_q (bs : list byte) : io Z :=
  if Z.of_nat (length bs) =? 8
  then let u := be_unsigned bs in io_ret (if u <? 2 ^ 63 then u else u - 2 ^ 64)
  else io_raise (StructError 8 (Z.of_nat (length bs))).

(** [struct.unpack('>' + str(size) + 's', bs)[0]] *)
Definition unpack_s (size : Z) (bs : list byte) : io (list byte) :=
  if Z.of_nat (length bs) =? size then io_ret bs
  else io_raise (StructError size (Z.of_nat (length bs))).

Definition read_I : io Z := (bs <- read 4 ;; unpack_I bs)%io.
Definition read_q : io Z := (bs <- read 8 ;; unpack_q bs)%io.

(** [with open(filename, 'rb') as f: body] *)
Definition with_open {A} (fs : filesystem) (filename : string) (body : io A)
  : exn + A :=
  match files fs !! filename with
  | None => inl (OSError filename)
  | Some data =>
      match body (mk_file data 0) with
      | inl e => inl e
      | inr (a, _) => inr a
      end
  end.

(** ** The run: printed lines and control outcome *)

(** What [print] is called with; like exit messages, lines are kept as the
    arguments of their format string. *)
Inductive out :=
| PrintExn (e : exn)                                   (* print(e) *)
| PrintProcessing (table_path : string)
| PrintIgnoring (name : string) (old new : Z)
| PrintOverlaps (name : string)
| PrintBlockers (name : string) (blockers : list string).

(** A computation of the script: the lines printed so far and how it ended. *)
Definition run (A : Type) : Type := list out * outcome A.

Definition run_ret {A} (a : A) : run A := ([], Ret a).
Definition print (o : out) : run unit := ([o], Ret tt).
Definition sys_exit {A} (s : exit_status) : run A := ([], SysExit s).
Definition lift {A} (r : outcome A) : run A := ([], r).

Definition run_bind {A B} (m : run A) (k : A → run B) : run B :=
  match m with
  | (o, Ret a) => let '(o', r) := k a in (o ++ o', r)
  | (o, Raise e) => (o, Raise e)
  | (o, SysExit s) => (o, SysExit s)
  end.

(** [try: m  except Exception as e: h e]; [SystemExit] passes through. *)
Definition try_except {A} (m : run A) (h : exn → run A) : run A :=
  match m with
  | (o, Raise e) => let '(o', r) := h e in (o ++ o', r)
  | _ => m
  end.

Declare Scope run_scope.
Delimit Scope run_scope with run.
Notation "x <- m ;; k" := (run_bind m (λ x, k))
  (at level 100, m at level 99, k at level 200, right associativity,
   format "'[v' x  <-  m ;; '/' k ']'") : run_scope.
Notation "m ;; k" := (run_bind m (λ _, k))
  (at level 100, k at level 200, right associativity,
   format "'[v' m ;; '/' k ']'") : run_scope.

(** ** Metadata decoder *)

Definition sstable_components : list string :=
  ["Data.db"; "Index.db"; "Summary.db"; "Filter.db"; "Scylla.db";
   "CompressionInfo.db"; "CRC.db"; "Statistics.db"; "TOC.txt"; "Digest.crc32"].

(** First element of [candidates] that occurs in [s]. *)
Definition first_contained (s : string) (candidates : list string) : option string :=
  head (filter (λ c, py_contains s c = true) candidates).

Definition validate_component (filename : string) : outcome string :=
  match first_contained filename sstable_components with
  | Some component => Ret component
  | None => SysExit (ExitNoComponent filename)
  end.

Definition validate_format (filename : string) : outcome string :=
  let valid_formats := ["ka"; "la"; "mc"] in
  match first_contained (basename filename) valid_formats with
  | Some valid_format => Ret valid_format
  | None => SysExit (ExitBadFormat filename)
  end.

(** The body of the [with] block of [get_sstable_tokens]: the first and
    the last partition key of the Summary component. *)
Definition read_summary_keys : io (list byte * list byte) :=
  (minIndexInterval <- read_I ;;
   offsetCount <- read_I ;;
   offheapSize <- read_q ;;
   samplingLevel <- read_I ;;
   fullSamplingSummarySize <- read_I ;;
   read (offsetCount * 4) ;;
   read (offheapSize - offsetCount * 4) ;;
   firstSize <- read_I ;;
   bs <- read firstSize ;;
   first <- unpack_s firstSize bs ;;
   lastSize <- read_I ;;
   bs <- read lastSize ;;
   last <- unpack_s lastSize bs ;;
   io_ret (first, last))%io.

Definition get_sstable_tokens (fs : filesystem) (filename : string) : run (Z * Z) :=
  match with_open fs filename read_summary_keys with
  | inl e => (print (PrintExn e) ;; sys_exit (ExitCode 1))%run
  | inr (first, last) =>
      run_ret (murmur3_token.get_token first, murmur3_token.get_token last)
  end.

(** The fields [init_stats_metadata] assigns, with [found_stats]. *)
Record stats_metadata := mk_stats {
  found_stats : bool;
  stats_min_timestamp : Z;
  stats_max_timestamp : Z;
  stats_max_deletion_time : Z
}.

(** The branch taken for a directory entry of type 2, from [f.seek(offset)]
    to the end of the tombstone histogram. *)
Definition read_stats_component (offset : Z) (sstable_format : string)
  : io stats_metadata :=
  (seek offset ;;
   (* estimated_histogram estimated_row_size *)
   n <- read_I ;;
   read (8 * 2 * n) ;;
   (* estimated_histogram estimated_column_count *)
   n <- read_I ;;
   read (8 * 2 * n) ;;
   (* replay position *)
   read 8 ;;
   read 4 ;;
   min_ts <- read_q ;;
   max_ts <- read_q ;;
   (if String.eqb sstable_format "mc" then read 4 else io_ret []) ;;
   max_del <- read_I ;;
   (if String.eqb sstable_format "mc" then (read 4 ;; read 4)%io else io_ret []) ;;
   (* compression_ratio *)
   read 8 ;;
   (* streaming_histogram estimated_tombstone_drop_time *)
   max_bin_size <- read_I ;;
   n <- read_I ;;
   read ((8 + 8) * n) ;;
   io_ret (mk_stats true min_ts max_ts max_del))%io.

(** [for i in range(count)]: each round reads a (type, offset) pair at the
    current position, which is behind the Stats component once that has
    been read. *)
Fixpoint stats_directory_loop (count : nat) (sstable_format : string)
    (self : stats_metadata) : io stats_metadata :=
  match count with
  | O => io_ret self
  | S count' =>
      (type <- read_I ;;
       offset <- read_I ;;
       if type =? 2
       then (self' <- read_stats_component offset sstable_format ;;
             stats_directory_loop count' sstable_format self')
       else stats_directory_loop count' sstable_format self)%io
  end.

(** The body of the [with] block of [init_stats_metadata]; the fields
    start at 0 and [found_stats] at [False]. *)
Definition read_stats_directory (sstable_format : string) : io stats_metadata :=
  (count <- read_I ;;
   stats_directory_loop (Z.to_nat count) sstable_format (mk_stats false 0 0 0))%io.

Definition init_stats_metadata (fs : filesystem) (filename sstable_format : string)
  : run stats_metadata :=
  match with_open fs filename (read_stats_directory sstable_format) with
  | inl e => (print (PrintExn e) ;; sys_exit (ExitCode 1))%run
  | inr self =>
      if negb (found_stats self) then sys_exit (ExitNoStats filename)
      else run_ret self
  end.

(** [sstable_metadata_processor(filename)]: the object's five fields. *)
Record metadata := mk_metadata {
  md_min_timestamp : Z;
  md_max_timestamp : Z;
  md_max_deletion_time : Z;
  md_first_token : Z;
  md_last_token : Z
}.

Definition sstable_metadata_processor (fs : filesystem) (filename : string)
  : run metadata :=
  (sstable_format <- lift (validate_format filename) ;;
   component <- lift (validate_component filename) ;;
   let summary_filename := py_replace filename component "Summary.db" in
   tokens <- get_sstable_tokens fs summary_filename ;;
   let statistics_filename := py_replace filename component "Statistics.db" in
   st <- init_stats_metadata fs statistics_filename sstable_format ;;
   run_ret (mk_metadata (stats_min_timestamp st) (stats_max_timestamp st)
              (stats_max_deletion_time st) (fst tokens) (snd tokens)))%run.

Definition sstable_component_for_identification : string := "TOC.txt".

(** One round of the loop of [process_sstables] over the directory
    entries; [sstables] is the list built so far. *)
Definition process_entry (fs : filesystem) (table_path : string)
    (now_in_seconds : Z) (sstables : list sstable) (entry : string)
  : run (list sstable) :=
  let entry_path := path_join table_path entry in
  if negb (isfile fs entry_path) then run_ret sstables
  else if negb (py_endswith entry sstable_component_for_identification)
  then run_ret sstables
  else
    try_except
      (metadata <- sstable_metadata_processor fs entry_path ;;
       let sst := mk_sstable entry (md_min_timestamp metadata)
                    (md_max_timestamp metadata) (md_max_deletion_time metadata)
                    (md_first_token metadata) (md_last_token metadata) in
       lift (sanity_check_sstable_metadata sst now_in_seconds) ;;
       run_ret (sstables ++ [sst]))%run
      (λ e, sys_exit (ExitNoMetadata entry_path e)).

Fixpoint process_entries (fs : filesystem) (table_path : string)
    (now_in_seconds : Z) (entries : list string) (sstables : list sstable)
  : run (list sstable) :=
  match entries with
  | [] => run_ret sstables
  | entry :: entries' =>
      (sstables' <- process_entry fs table_path now_in_seconds sstables entry ;;
       process_entries fs table_path now_in_seconds entries' sstables')%run
  end.

(** [os.listdir] of a path that is not a directory raises outside any
    [try]. *)
Definition process_sstables (fs : filesystem) (table_path : string)
    (now_in_seconds : Z) : run (list sstable) :=
  (print (PrintProcessing table_path) ;;
   match dirs fs !! table_path with
   | None => lift (Raise (OSError table_path))
   | Some entries => process_entries fs table_path now_in_seconds entries []
   end)%run.

(** ** Expiration classifier *)

(** Nearest integer to [n / d] for [d > 0], ties to the even one. *)
Definition round_half_even (n d : Z) : Z :=
  let q := n / d in
  let r := n mod d in
  if 2 * r <? d then q
  else if d <? 2 * r then q + 1
  else if Z.even q then q else q + 1.

(** A binary64 value in the normal range, as the dyadic rational
    [mantissa * 2 ^ exponent] with [|mantissa| <= 2 ^ 53]. *)
Record float := mk_float { mantissa : Z; exponent : Z }.

(** [floor (log2 (a / b))] for [a, b > 0]. *)
Definition log2_quotient (a b : Z) : Z :=
  let k := Z.log2 a - Z.log2 b in
  let reached := if 0 <=? k then b * 2 ^ k <=? a else b <=? a * 2 ^ (- k) in
  if reached then k else k - 1.

(** [a / b] on integers with [b > 0]: the binary64 nearest to the exact
    quotient, ties to even (true division of ints is correctly rounded).
    Quotients of 64-bit integers by a million never leave the normal range,
    so overflow and subnormals are not modelled. *)
Definition py_truediv (a b : Z) : float :=
  if a =? 0 then mk_float 0 0
  else
    let e := log2_quotient (Z.abs a) b - 52 in
    let m := if e <? 0 then round_half_even (a * 2 ^ (- e)) b
             else round_half_even a (b * 2 ^ e) in
    mk_float m e.

(** [round(x)] of a float: the nearest integer, ties to even. *)
Definition py_round (x : float) : Z :=
  if 0 <=? exponent x then mantissa x * 2 ^ exponent x
  else round_half_even (mantissa x) (2 ^ (- exponent x)).

(** convert timestamp in us to second: [int(round(timestamp / 1000000))] *)
Definition timestamp_in_seconds (timestamp : Z) : Z :=
  py_round (py_truediv timestamp 1000000).

Definition ignores_max_deletion_time (sst : sstable) (ignore_max_deletion_time : bool)
  : bool :=
  ignore_max_deletion_time
  && (max_deletion_time sst =? deletion_time_for_never_expiring_sstable).

Definition calculate_max_deletion_time (sst : sstable) (default_ttl : Z) : Z :=
  timestamp_in_seconds (max_timestamp sst) + default_ttl.

(** Returns the verdict and the line printed, if any. *)
Definition is_sstable_expired_out (sst : sstable) (gc_before_in_sec default_ttl : Z)
    (ignore_max_deletion_time : bool) : bool * list out :=
  let max_deletion_time := max_deletion_time sst in
  if ignores_max_deletion_time sst ignore_max_deletion_time then
    let actual_max_deletion_time := calculate_max_deletion_time sst default_ttl in
    (actual_max_deletion_time <? gc_before_in_sec,
     [PrintIgnoring (name sst) max_deletion_time actual_max_deletion_time])
  else (max_deletion_time <? gc_before_in_sec, []).

Definition is_sstable_expired (sst : sstable) (gc_before_in_sec default_ttl : Z)
    (ignore_max_deletion_time : bool) : bool :=
  fst (is_sstable_expired_out sst gc_before_in_sec default_ttl ignore_max_deletion_time).

(** Returns [(expired_sstables, non_expired_sstables)]. *)
Definition find_expired_sstables (sstables : list sstable)
    (gc_before_in_sec default_ttl : Z) (ignore_max_deletion_time : bool)
  : list sstable * list sstable :=
  fold_left
    (λ '(expired_sstables, non_expired_sstables) sst,
       if is_sstable_expired sst gc_before_in_sec default_ttl ignore_max_deletion_time
       then (expired_sstables ++ [sst], non_expired_sstables)
       else (expired_sstables, non_expired_sstables ++ [sst]))
    sstables ([], []).

(** ** Overlap / blocker resolver *)

(** [min(l, key=key)]: the first element with the least key; [None]
    stands for the [ValueError] raised on an empty sequence. *)
Definition py_min {A} (key : A → Z) (l : list A) : option A :=
  match l with
  | [] => None
  | x :: rest => Some (fold_left (λ best y, if key y <? key best then y else best) rest x)
  end.

(** [max(l, key=key)]: the first element with the greatest key. *)
Definition py_max {A} (key : A → Z) (l : list A) : option A :=
  match l with
  | [] => None
  | x :: rest => Some (fold_left (λ best y, if key best <? key y then y else best) rest x)
  end.

Definition get_unified_token_range (sstables : list sstable) : option inclusive_range :=
  match py_min first_token sstables, py_max last_token sstables with
  | Some first, Some last => Some (Range.mk (first_token first) (last_token last))
  | _, _ => None
  end.

(** State of the loop over the expired sstables. *)
Record blockers_state := mk_blockers_state {
  blocked_expired_ssts : list sstable;
  non_blocked_expired_ssts : list sstable;
  printed : list out
}.

(** The inner loop, over the overlapping non-expired sstables: the names
    appended to [blockers], the blocked list and [found_blocker]. *)
Definition blockers_inner (expired_sst : sstable)
    (overlapping_non_expired_ssts : list sstable) (blocked : list sstable)
  : list string * list sstable * bool :=
  fold_left
    (λ '(blockers, blocked, found_blocker) overlapping_non_expired_sst,
       if overlaps_in_timestamp expired_sst overlapping_non_expired_sst
       then (blockers ++ [name overlapping_non_expired_sst],
             (* Add expired SST to list of blocked only once *)
             (if negb found_blocker then blocked ++ [expired_sst] else blocked),
             true)
       else (blockers, blocked, found_blocker))
    overlapping_non_expired_ssts ([], blocked, false).

Definition blockers_step (overlapping_non_expired_ssts : list sstable)
    (st : blockers_state) (expired_sst : sstable) : blockers_state :=
  let '(blockers, blocked, found_blocker) :=
    blockers_inner expired_sst overlapping_non_expired_ssts (blocked_expired_ssts st) in
  mk_blockers_state blocked
    (if negb found_blocker then non_blocked_expired_ssts st ++ [expired_sst]
     else non_blocked_expired_ssts st)
    (printed st ++ [PrintBlockers (name expired_sst) blockers]).

(** The first loop: the non-expired sstables overlapping the token range of
    the expired ones, each announced by a line. *)
Definition overlapping_candidates (expired_ssts_token_range : inclusive_range)
    (non_expired_sstables : list sstable) : list sstable * list out :=
  fold_left
    (λ '(overlapping, lines) sst,
       if overlaps_in_token sst expired_ssts_token_range
       then (overlapping ++ [sst], lines ++ [PrintOverlaps (name sst)])
       else (overlapping, lines))
    non_expired_sstables ([], []).

(** [None] is the [ValueError] of [min] on an empty expired list. *)
Definition find_blockers_for_expired_sstables_out
    (expired_sstables non_expired_sstables : list sstable)
  : option blockers_state :=
  match get_unified_token_range expired_sstables with
  | None => None
  | Some expired_ssts_token_range =>
      let '(overlapping_non_expired_ssts, lines) :=
        overlapping_candidates expired_ssts_token_range non_expired_sstables in
      Some (fold_left (blockers_step overlapping_non_expired_ssts)
              expired_sstables (mk_blockers_state [] [] lines))
  end.

(** Returns [(blocked_expired_ssts, non_blocked_expired_ssts)]. *)
Definition find_blockers_for_expired_sstables
    (expired_sstables non_expired_sstables : list sstable)
  : option (list sstable * list sstable) :=
  match find_blockers_for_expired_sstables_out expired_sstables non_expired_sstables with
  | None => None
  | Some st => Some (blocked_expired_ssts st, non_blocked_expired_ssts st)
  end.

(** ** The specification's notions

    Stated after the specification's wording, to be compared with the
    functions above. *)

(** The closed intervals [a] and [b] intersect. *)
Definition intervals_intersect (a b : inclusive_range) : Prop :=
  Range.first a ≤ Range.last b ∧ Range.first b ≤ Range.last a.

(** The conditions under which the sanity validator rejects a descriptor. *)
Definition sanity_violation (sst : sstable) : Prop :=
  min_timestamp sst = 0
  ∨ max_timestamp sst = 0
  ∨ max_deletion_time sst = 0
  ∨ max_timestamp sst < min_timestamp sst
  ∨ ¬ (1500000000 ≤ max_deletion_time sst ≤ 2147483647)
  ∨ ¬ (1500000000000000 ≤ min_timestamp sst ≤ 2000000000000000)
  ∨ ¬ (1500000000000000 ≤ max_timestamp sst ≤ 2000000000000000).

(** [effective_deletion_time(d)], with the rounding taken on the exact
    quotient (ties to even, as [round] does). *)
Definition effective_deletion_time (d : sstable) (default_ttl : Z) (override : bool) : Z :=
  if decide (max_deletion_time d = 2147483647 ∧ override = true)
  then round_half_even (max_timestamp d) 1000000 + default_ttl
  else max_deletion_time d.

(** [Candidates]: the non-expired sstables whose token range overlaps [U]. *)
Definition candidates (U : inclusive_range) (L : list sstable) : list sstable :=
  filter (λ l, Range.overlaps (token_range l) U = true) L.

(** Some candidate's timestamp range overlaps that of [e]. *)
Definition blocked_by (Candidates : list sstable) (e : sstable) : Prop :=
  Exists (λ c, Range.overlaps (timestamp_range c) (timestamp_range e) = true) Candidates.

Global Instance blocked_by_dec Candidates e : Decision (blocked_by Candidates e).
Proof. unfold blocked_by. apply _. Defined.

(** [U] is the token envelope of [E]: its ends are the least first token
    and the greatest last token, both attained. *)
Definition token_envelope (E : list sstable) (U : inclusive_range) : Prop :=
  (∀ e, e ∈ E → Range.first U ≤ first_token e)
  ∧ (∃ e, e ∈ E ∧ first_token e = Range.first U)
  ∧ (∀ e, e ∈ E → last_token e ≤ Range.last U)
  ∧ (∃ e, e ∈ E ∧ last_token e = Range.last U).

(** How decoding the file group of [filename] can fail: by what is printed
    and the argument of [sys.exit]. *)
Inductive decode_failure (filename : string) : list out → exit_status → Prop :=
| unsupported_format :
    decode_failure filename [] (ExitBadFormat filename)
| unknown_component :
    decode_failure filename [] (ExitNoComponent filename)
| read_failure (e : exn) :
    decode_failure filename [PrintExn e] (ExitCode 1)
| missing_stats (component : string) :
    decode_failure filename []
      (ExitNoStats (py_replace filename component "Statistics.db")).

(** The metadata a descriptor was built from. *)
Definition metadata_of (sst : sstable) : metadata :=
  mk_metadata (min_timestamp sst) (max_timestamp sst) (max_deletion_time sst)
    (first_token sst) (last_token sst).

(** ** Sample files

    A table directory with two file groups, used to run the decoder on
    concrete bytes. *)

Definition byte_of_Z (z : Z) : byte :=
  default Byte.x00 (Byte.of_N (Z.to_N (z mod 256))).

(** [v] on [n] bytes, big-endian. *)
Fixpoint be_bytes (n : nat) (v : Z) : list byte :=
  match n with
  | O => []
  | S n' => byte_of_Z (v / 256 ^ Z.of_nat n') :: be_bytes n' v
  end.

(** A Summary component with one offset and the given first and last keys. *)
Definition sample_summary (first last : list byte) : list byte :=
  be_bytes 4 128 ++ be_bytes 4 1 ++ be_bytes 8 7 ++ be_bytes 4 128 ++ be_bytes 4 1
  ++ be_bytes 4 0 ++ be_bytes 3 0
  ++ be_bytes 4 (Z.of_nat (length first)) ++ first
  ++ be_bytes 4 (Z.of_nat (length last)) ++ last.

(** A Statistics component in the older layout: a directory with the
    single entry (2, 12) and the Stats component at offset 12. *)
Definition sample_statistics (min_ts max_ts max_del : Z) : list byte :=
  be_bytes 4 1 ++ be_bytes 4 2 ++ be_bytes 4 12
  ++ be_bytes 4 0 ++ be_bytes 4 0 ++ be_bytes 8 0 ++ be_bytes 4 0
  ++ be_bytes 8 min_ts ++ be_bytes 8 max_ts ++ be_bytes 4 max_del
  ++ be_bytes 8 0 ++ be_bytes 4 100 ++ be_bytes 4 0.

(** The same directory with a type other than 2: no Stats component. *)
Definition sample_statistics_no_stats : list byte :=
  be_bytes 4 1 ++ be_bytes 4 1 ++ be_bytes 4 12.

Definition key_a : list byte := [Byte.x31; Byte.x32; Byte.x33].
Definition key_b : list byte := replicate 8 Byte.x10.

(** Group 1 has a Summary cut after six bytes; group 2 is complete. *)
Definition sample_fs : filesystem :=
  mk_filesystem
    (<["/t/la-1-big-TOC.txt" := []]>
     (<["/t/la-1-big-Summary.db" := take 6 (sample_summary key_a key_b)]>
     (<["/t/la-1-big-Statistics.db" := sample_statistics 1600000000000000 1600000001000000 1700000000]>
     (<["/t/la-2-big-TOC.txt" := []]>
     (<["/t/la-2-big-Summary.db" := sample_summary key_a key_b]>
     (<["/t/la-2-big-Statistics.db" := sample_statistics 1600000000000000 1600000001000000 1700000000]>
      ∅))))))
    (<["/t" := ["la-1-big-TOC.txt"; "la-1-big-Summary.db"; "la-1-big-Statistics.db";
                "la-2-big-TOC.txt"; "la-2-big-Summary.db"; "la-2-big-Statistics.db"]]> ∅).

(** Group 2 is complete; the Statistics of group 3 has no Stats component. *)
Definition sample_fs_no_stats : filesystem :=
  mk_filesystem
    (<["/t/la-2-big-TOC.txt" := []]>
     (<["/t/la-2-big-Summary.db" := sample_summary key_a key_b]>
     (<["/t/la-2-big-Statistics.db" := sample_statistics 1600000000000000 1600000001000000 1700000000]>
     (<["/t/la-3-big-TOC.txt" := []]>
     (<["/t/la-3-big-Summary.db" := sample_summary key_a key_b]>
     (<["/t/la-3-big-Statistics.db" := sample_statistics_no_stats]>
      ∅))))))
    (<["/t" := ["la-2-big-TOC.txt"; "la-3-big-TOC.txt"]]> ∅).

(** Group 4 decodes, with both timestamps zero; group 2 is complete. *)
Definition sample_fs_zero : filesystem :=
  mk_filesystem
    (<["/t/la-4-big-TOC.txt" := []]>
     (<["/t/la-4-big-Summary.db" := sample_summary key_a key_b]>
     (<["/t/la-4-big-Statistics.db" := sample_statistics 0 0 1700000000]>
     (<["/t/la-2-big-TOC.txt" := []]>
     (<["/t/la-2-big-Summary.db" := sample_summary key_a key_b]>
     (<["/t/la-2-big-Statistics.db" := sample_statistics 1600000000000000 1600000001000000 1700000000]>
      ∅))))))
    (<["/t" := ["la-4-big-TOC.txt"; "la-2-big-TOC.txt"]]> ∅).

(** The descriptor of group 4 of [sample_fs_zero]. *)
Definition sample_sst_zero : sstable :=
  mk_sstable "la-4-big-TOC.txt" 0 0 1700000000
    (-7468325962851647638) 1446172840243228796.

(** A descriptor with the sentinel and a write time on a half second. *)
Definition sample_sst_never_expiring : sstable :=
  mk_sstable "la-7-big-TOC.txt" 1600000000000000 1600000000500000 2147483647 0 100.

(** Three expired sstables and a live one whose tokens fall among those of
    the second and whose write times overlap the second's only. *)
Definition sample_expired : list sstable :=
  [mk_sstable "la-1-big-TOC.txt" 1600000000000000 1600000001000000 1700000000 0 100;
   mk_sstable "la-2-big-TOC.txt" 1600000002000000 1600000003000000 1700000000 200 300;
   mk_sstable "la-3-big-TOC.txt" 1600000004000000 1600000005000000 1700000000 400 500].

Definition sample_live : sstable :=
  mk_sstable "la-9-big-TOC.txt" 1600000002500000 1600000003500000 2147483647 250 260.

(** A live sstable whose tokens lie beyond those of [sample_expired]. *)
Definition sample_live_far : sstable :=
  mk_sstable "la-8-big-TOC.txt" 1600000000000000 1600000005000000 2147483647 600 700.

(** The names [find_blockers_for_expired_sstables] lists behind
    "Blockers for expired SSTable": the candidates overlapping [e] in time,
    in order; the empty list stands for "None". *)
Definition blockers_of (Candidates : list sstable) (e : sstable) : list string :=
  name <$> filter (λ c, overlaps_in_timestamp e c = true) Candidates.

(** A directory entry [process_sstables] decodes: a regular file whose
    name ends with the identifying component. *)
Definition identifies_sstable (fs : filesystem) (table_path entry : string) : Prop :=
  isfile fs (path_join table_path entry) = true
  ∧ py_endswith entry sstable_component_for_identification = true.

Global Instance identifies_sstable_dec fs table_path entry :
  Decision (identifies_sstable fs table_path entry).
Proof. unfold identifies_sstable. apply _. Defined.

(** The descriptor built from an entry name and its decoded metadata. *)
Definition sstable_of (entry : string) (md : metadata) : sstable :=
  mk_sstable entry (md_min_timestamp md) (md_max_timestamp md)
    (md_max_deletion_time md) (md_first_token md) (md_last_token md).

(** A table directory in which both file groups are complete. *)
Definition sample_fs_ok : filesystem :=
  mk_filesystem
    (<["/t/la-2-big-TOC.txt" := []]>
     (<["/t/la-2-big-Summary.db" := sample_summary key_a key_b]>
     (<["/t/la-2-big-Statistics.db" := sample_statistics 1600000000000000 1600000001000000 1700000000]>
     (<["/t/la-5-big-TOC.txt" := []]>
     (<["/t/la-5-big-Summary.db" := sample_summary key_b key_b]>
     (<["/t/la-5-big-Statistics.db" := sample_statistics 1600000002000000 1600000003000000 2147483647]>
      ∅))))))
    (<["/t" := ["la-2-big-TOC.txt"; "la-2-big-Summary.db"; "la-2-big-Statistics.db";
                "la-5-big-Statistics.db"; "la-5-big-TOC.txt"; "la-5-big-Summary.db"]]> ∅).


(** The signed value of eight big-endian bytes, as [unpack_q] returns it. *)
Definition be_signed64 (bs : list byte) : Z :=
  let u := be_unsigned bs in if u <? 2 ^ 63 then u else u - 2 ^ 64.

(** The file with content [data], read up to the end of [before]. *)
Definition file_at (data before : list byte) : file :=
  mk_file data (Z.of_nat (length before)).



(** The byte fields of a Stats component, in the order they are read,
    with the bins of the tombstone histogram. *)
Record stats_fields := mk_stats_fields {
  f_n1 : list byte;          (* bucket count of estimated_row_size *)
  f_hist1 : list byte;
  f_n2 : list byte;          (* bucket count of estimated_column_count *)
  f_hist2 : list byte;
  f_segment : list byte;     (* replay position: segment_id_type *)
  f_position : list byte;    (* replay position: position_type *)
  f_min : list byte;         (* min_timestamp *)
  f_max : list byte;         (* max_timestamp *)
  f_mc_min : list byte;      (* min_local_deletion_time, mc only *)
  f_del : list byte;         (* max_local_deletion_time *)
  f_mc_ttl : list byte;      (* min_ttl and max_ttl, mc only *)
  f_ratio : list byte;       (* compression_ratio *)
  f_bin : list byte;         (* max_bin_size *)
  f_n3 : list byte;          (* bin count of estimated_tombstone_drop_time *)
  f_bins : list byte
}.

Definition stats_fields_bytes (c : stats_fields) : list byte :=
  f_n1 c ++ f_hist1 c ++ f_n2 c ++ f_hist2 c ++ f_segment c ++ f_position c
  ++ f_min c ++ f_max c ++ f_mc_min c ++ f_del c ++ f_mc_ttl c ++ f_ratio c
  ++ f_bin c ++ f_n3 c ++ f_bins c.

(** Every field has the length the decoder reads for it, the bins
    included. *)
Definition stats_fields_complete (sstable_format : string) (c : stats_fields) : Prop :=
  let mc := String.eqb sstable_format "mc" in
  length (f_n1 c) = 4%nat
  ∧ Z.of_nat (length (f_hist1 c)) = 8 * 2 * be_unsigned (f_n1 c)
  ∧ length (f_n2 c) = 4%nat
  ∧ Z.of_nat (length (f_hist2 c)) = 8 * 2 * be_unsigned (f_n2 c)
  ∧ length (f_segment c) = 8%nat
  ∧ length (f_position c) = 4%nat
  ∧ length (f_min c) = 8%nat
  ∧ length (f_max c) = 8%nat
  ∧ Z.of_nat (length (f_mc_min c)) = (if mc then 4 else 0)
  ∧ length (f_del c) = 4%nat
  ∧ Z.of_nat (length (f_mc_ttl c)) = (if mc then 8 else 0)
  ∧ length (f_ratio c) = 8%nat
  ∧ length (f_bin c) = 4%nat
  ∧ length (f_n3 c) = 4%nat
  ∧ Z.of_nat (length (f_bins c)) = (8 + 8) * be_unsigned (f_n3 c).

(** A Stats component in the newer layout with one tombstone bin. *)
Definition sample_stats_fields : stats_fields :=
  mk_stats_fields (be_bytes 4 0) [] (be_bytes 4 0) [] (be_bytes 8 0) (be_bytes 4 0)
    (be_bytes 8 1600000000000000) (be_bytes 8 1600000001000000)
    (be_bytes 4 1650000000) (be_bytes 4 1700000000) (be_bytes 8 0)
    (be_bytes 8 0) (be_bytes 4 100) (be_bytes 4 1) (be_bytes 16 0).

(** A directory of four entries with the Stats entry third, as the newer
    layout has it; [tail] is what follows the Stats component. *)
Definition sample_statistics_four (tail : list byte) : list byte :=
  be_bytes 4 4
  ++ (be_bytes 4 0 ++ be_bytes 4 36) ++ (be_bytes 4 1 ++ be_bytes 4 36)
  ++ be_bytes 4 2 ++ be_bytes 4 36
  ++ (be_bytes 4 3 ++ be_bytes 4 200)
  ++ stats_fields_bytes sample_stats_fields ++ tail.

(** ** Space accounting and the move to the backup directory

    The operating system is a parameter: a type of states of the file
    system with [os.stat(path).st_size], [os.link] and [os.remove], where
    [None] stands for the call raising; a call that raises leaves the file
    system as it was. *)

(** The messages of the [sys.exit] calls of these functions, by their
    argument. *)
Inductive component_exit :=
| UnableToReadSize (f : string)
| UnableToLink (f : string)
| UnableToDelete (f : string).

(** A call that changed the file system. *)
Inductive fs_op :=
| Link (src dst : string)
| Remove (path : string).

(** [Some error_msg] when [sys.exit(error_msg)] is called, [None] when the
    component is optional and the function returns. *)
Definition exit_if_failed_on_a_non_optional_component {E}
    (component : string) (error_msg : E) : option E :=
  if negb (String.eqb component "CompressionInfo.db")
     && negb (String.eqb component "CRC.db")
     && negb (String.eqb component "Digest.crc32")
  then Some error_msg else None.

(** The name of a component file of an sstable. *)
Definition component_file (sst_name component : string) : string :=
  py_replace sst_name sstable_component_for_identification component.

Section operating_system.

Context {world : Type}.
Variable st_size : world → string → option Z.
Variable os_link : world → string → string → option world.
Variable os_remove : world → string → option world.

(** The inner loop of [total_space_for_sstables_in_mb], over the
    components of one sstable. *)
Fixpoint add_component_sizes (w : world) (table_path sst_name : string)
    (components : list string) (total : Z) : component_exit + Z :=
  match components with
  | [] => inr total
  | component :: components' =>
      let f := component_file sst_name component in
      match st_size w (path_join table_path f) with
      | Some size =>
          add_component_sizes w table_path sst_name components' (total + size)
      | None =>
          match exit_if_failed_on_a_non_optional_component component
                  (UnableToReadSize f) with
          | Some e => inl e
          | None => add_component_sizes w table_path sst_name components' total
          end
      end
  end.

(** The outer loop: the total in bytes. *)
Fixpoint total_space_in_bytes (w : world) (table_path : string)
    (sstables : list sstable) (total : Z) : component_exit + Z :=
  match sstables with
  | [] => inr total
  | sst :: sstables' =>
      match add_component_sizes w table_path (name sst) sstable_components total with
      | inl e => inl e
      | inr total' => total_space_in_bytes w table_path sstables' total'
      end
  end.

(** [return total / (1024 * 1024)], a float. *)
Definition total_space_for_sstables_in_mb (w : world) (table_path : string)
    (sstables : list sstable) : component_exit + float :=
  match total_space_in_bytes w table_path sstables 0 with
  | inl e => inl e
  | inr total => inr (py_truediv total (1024 * 1024))
  end.

(** The first inner loop of [move_non_blocked_expired_ssts_to]: link every
    component into the destination.  Returns the file system, the calls
    that went through, and the exit if there was one. *)
Fixpoint link_components (w : world) (table_path destination_path sst_name : string)
    (components : list string) (done : list fs_op)
  : world * list fs_op * option component_exit :=
  match components with
  | [] => (w, done, None)
  | component :: components' =>
      let f := component_file sst_name component in
      let src := path_join table_path f in
      let dst := path_join destination_path f in
      match os_link w src dst with
      | Some w' =>
          link_components w' table_path destination_path sst_name components'
            (done ++ [Link src dst])
      | None =>
          match exit_if_failed_on_a_non_optional_component component
                  (UnableToLink f) with
          | Some e => (w, done, Some e)
          | None =>
              link_components w table_path destination_path sst_name components' done
          end
      end
  end.

(** The second inner loop: delete every component from the table
    directory. *)
Fixpoint remove_components (w : world) (table_path sst_name : string)
    (components : list string) (done : list fs_op)
  : world * list fs_op * option component_exit :=
  match components with
  | [] => (w, done, None)
  | component :: components' =>
      let f := component_file sst_name component in
      let src := path_join table_path f in
      match os_remove w src with
      | Some w' =>
          remove_components w' table_path sst_name components' (done ++ [Remove src])
      | None =>
          match exit_if_failed_on_a_non_optional_component component
                  (UnableToDelete f) with
          | Some e => (w, done, Some e)
          | None => remove_components w table_path sst_name components' done
          end
      end
  end.

(** Returns the file system, the calls that went through, the names
    announced by "Moving all components of SSTable ..." and the exit, if
    any. *)
Fixpoint move_non_blocked_expired_ssts_to (w : world) (table_path : string)
    (sstables : list sstable) (destination_path : string)
    (done : list fs_op) (announced : list string)
  : world * list fs_op * list string * option component_exit :=
  match sstables with
  | [] => (w, done, announced, None)
  | sst :: sstables' =>
      let announced := announced ++ [name sst] in
      match link_components w table_path destination_path (name sst)
              sstable_components done with
      | (w1, done1, Some e) => (w1, done1, announced, Some e)
      | (w1, done1, None) =>
          match remove_components w1 table_path (name sst) sstable_components done1 with
          | (w2, done2, Some e) => (w2, done2, announced, Some e)
          | (w2, done2, None) =>
              move_non_blocked_expired_ssts_to w2 table_path sstables'
                destination_path done2 announced
          end
      end
  end.

End operating_system.

(** A file system as a map from paths to contents: [os.stat] gives the
    length, [os.link] needs the source and a free destination,
    [os.remove] needs the file. *)
Definition map_st_size (w : gmap string (list byte)) (path : string) : option Z :=
  (λ data, Z.of_nat (length data)) <$> w !! path.

Definition map_link (w : gmap string (list byte)) (src dst : string)
  : option (gmap string (list byte)) :=
  match w !! src, w !! dst with
  | Some data, None => Some (<[dst := data]> w)
  | _, _ => None
  end.

Definition map_remove (w : gmap string (list byte)) (path : string)
  : option (gmap string (list byte)) :=
  match w !! path with
  | Some _ => Some (delete path w)
  | None => None
  end.

(** The components whose absence is an error. *)
Definition mandatory (component : string) : Prop :=
  component ∉ ["CompressionInfo.db"; "CRC.db"; "Digest.crc32"].

(** The path of a component of an sstable in a directory. *)
Definition component_path (dir sst_name component : string) : string :=
  path_join dir (component_file sst_name component).

Definition sum_Z (l : list Z) : Z := foldr Z.add 0 l.

(** The bytes of the components of an sstable that [os.stat] finds. *)
Definition present_size {world} (st_size : world → string → option Z)
    (w : world) (table_path : string) (sst : sstable) : Z :=
  sum_Z ((λ c, default 0 (st_size w (component_path table_path (name sst) c)))
           <$> sstable_components).

(** A table directory with every component of la-1 but the optional
    CRC.db and Digest.crc32, and with two components of la-2 only. *)
Definition sample_world : gmap string (list byte) :=
  list_to_map
    [("/t/la-1-big-Data.db", [x01; x02; x03]);
     ("/t/la-1-big-Index.db", [x04]);
     ("/t/la-1-big-Summary.db", [x05]);
     ("/t/la-1-big-Filter.db", [x06]);
     ("/t/la-1-big-Scylla.db", [x07]);
     ("/t/la-1-big-CompressionInfo.db", [x08; x09]);
     ("/t/la-1-big-Statistics.db", [x0a]);
     ("/t/la-1-big-TOC.txt", [x0b]);
     ("/t/la-2-big-Data.db", [x0c]);
     ("/t/la-2-big-Index.db", [x0d])].

(** Moving the first sstable of [sample_expired], and moving the first
    two, to the directory /b. *)
Definition sample_move :=
  move_non_blocked_expired_ssts_to map_link map_remove sample_world "/t"
    (take 1 sample_expired) "/b" [] [].

Definition sample_move_failing :=
  move_non_blocked_expired_ssts_to map_link map_remove sample_world "/t"
    (take 2 sample_expired) "/b" [] [].

(** Every removal in a sequence of calls is that of a component of one of
    the sstables [all], and comes after the links of all the mandatory
    components of that sstable. *)
Definition removes_follow_links (table_path destination_path : string)
    (all : list sstable) (done : list fs_op) : Prop :=
  ∀ done1 path done2, done = done1 ++ Remove path :: done2 →
    ∃ sst c, sst ∈ all ∧ c ∈ sstable_components
      ∧ path = component_path table_path (name sst) c
      ∧ ∀ c', c' ∈ sstable_components → mandatory c' →
          Link (component_path table_path (name sst) c')
               (component_path destination_path (name sst) c') ∈ done1.

(** Every call in a sequence is a link or a removal of a component of one
    of the sstables [all]. *)
Definition touches_only (table_path destination_path : string)
    (all : list sstable) (done : list fs_op) : Prop :=
  ∀ op, op ∈ done →
    ∃ sst c, sst ∈ all ∧ c ∈ sstable_components
      ∧ (op = Link (component_path table_path (name sst) c)
                   (component_path destination_path (name sst) c)
         ∨ op = Remove (component_path table_path (name sst) c)).

(** ** The program

    [main] from its sanity checks on: the command line is taken as parsed
    and the clock as read.  The state is the file system behind [os.stat],
    [os.link] and [os.remove], the calls that changed it, and the lines
    printed. *)

Record arguments := mk_arguments {
  arg_table : string;
  arg_gc_grace_seconds : Z;
  arg_default_ttl : Z;
  arg_ignore_max_deletion_time : bool;
  (* the empty string when the option is absent *)
  arg_safely_move_expired_sstables_to : string
}.

(** How the program ends, when it does not reach the end of [main]. *)
Inductive main_exit :=
| ExitNoTableDirectory (table_path : string)
| ExitZeroDefaultTTL
| ExitZeroNow
| ExitScyllaRunning
| ExitNoDestinationDirectory (path : string)
| ExitScript (s : exit_status)          (* a sys.exit of the decoder or the validator *)
| ExitComponent (e : component_exit)
| Traceback (e : exn)                   (* an exception nothing catches *)
| TracebackPsutil
| TracebackEmptySequence.               (* min() of an empty list *)

(** The lines of [main] and of the functions it calls, by the arguments of
    their format strings. *)
Inductive main_out :=
| Line (o : out)
| PrintNow (now_in_seconds : Z)
| PrintGCPeriod (gc_grace_seconds : Z)
| PrintDefaultTTL (default_ttl : Z)
| PrintIgnoreFlag (ignore_max_deletion_time : bool)
| PrintFound (sst : sstable)
| PrintFoundExpired (name : string) (max_deletion_time gc_before_in_sec : Z)
    (max_deletion_time_ignored : bool)
| PrintIgnoredNames (names : list string)
| PrintSpaceIgnored (mb : float)
| PrintSpaceExpired (mb : float)
| PrintSpaceNonBlocked (mb : float)
| PrintSpaceBlocked (mb : float)
| PrintNonBlockedNames (names : list string)
| PrintMoving (name : string)
| PrintReclaimed (mb : float) (destination : string).

(** [os.path.isdir] *)
Definition isdir (fs : filesystem) (path : string) : bool :=
  bool_decide (is_Some (dirs fs !! path)).

(** [is_scylla_running], on the names of the processes in the order of
    [psutil.pids()]; [None] is a process psutil fails on, and a failure of
    the function. *)
Fixpoint is_scylla_running (processes : list (option string)) : option bool :=
  match processes with
  | [] => Some false
  | None :: _ => None
  | Some p_name :: processes' =>
      if py_contains p_name "scylla" then Some true else is_scylla_running processes'
  end.

(** The lines [find_expired_sstables] prints, through [is_sstable_expired]. *)
Definition find_expired_sstables_lines (sstables : list sstable)
    (gc_before_in_sec default_ttl : Z) (ignore_max_deletion_time : bool) : list out :=
  flat_map
    (λ sst, snd (is_sstable_expired_out sst gc_before_in_sec default_ttl
                   ignore_max_deletion_time))
    sstables.

Section program.

Context {world : Type}.
Variable st_size : world → string → option Z.
Variable os_link : world → string → string → option world.
Variable os_remove : world → string → option world.

Record machine := mk_machine {
  m_world : world;
  m_calls : list fs_op;
  m_lines : list main_out
}.

Definition prog (A : Type) : Type := machine → machine * (main_exit + A).

Definition prog_ret {A} (a : A) : prog A := λ m, (m, inr a).

Definition prog_bind {A B} (p : prog A) (k : A → prog B) : prog B :=
  λ m, match p m with
       | (m', inl e) => (m', inl e)
       | (m', inr a) => k a m'
       end.

Definition say_all (lines : list main_out) : prog unit :=
  λ m, (mk_machine (m_world m) (m_calls m) (m_lines m ++ lines), inr tt).

Definition say (line : main_out) : prog unit := say_all [line].

Definition stop {A} (e : main_exit) : prog A := λ m, (m, inl e).

Definition exit_if (condition : bool) (e : main_exit) : prog unit :=
  if condition then stop e else prog_ret tt.

(** A call of one of the functions that only read and print. *)
Definition of_run {A} (r : run A) : prog A :=
  match r with
  | (o, Ret a) => prog_bind (say_all (Line <$> o)) (λ _, prog_ret a)
  | (o, Raise e) => prog_bind (say_all (Line <$> o)) (λ _, stop (Traceback e))
  | (o, SysExit s) => prog_bind (say_all (Line <$> o)) (λ _, stop (ExitScript s))
  end.

Definition total_space (table_path : string) (sstables : list sstable) : prog float :=
  λ m, match total_space_for_sstables_in_mb st_size (m_world m) table_path sstables with
       | inl e => (m, inl (ExitComponent e))
       | inr mb => (m, inr mb)
       end.

Definition move (table_path : string) (sstables : list sstable)
    (destination_path : string) : prog unit :=
  λ m, let '(w', done, announced, ex) :=
         move_non_blocked_expired_ssts_to os_link os_remove (m_world m) table_path
           sstables destination_path [] [] in
       (mk_machine w' (m_calls m ++ done) (m_lines m ++ (PrintMoving <$> announced)),
        match ex with
        | Some e => inl (ExitComponent e)
        | None => inr tt
        end).

Definition scylla_running (processes : list (option string)) : prog bool :=
  match is_scylla_running processes with
  | Some running => prog_ret running
  | None => stop TracebackPsutil
  end.

Definition find_expired (sstables : list sstable) (gc_before_in_sec default_ttl : Z)
    (ignore_max_deletion_time : bool) : prog (list sstable * list sstable) :=
  prog_bind
    (say_all (Line <$> find_expired_sstables_lines sstables gc_before_in_sec default_ttl
                         ignore_max_deletion_time))
    (λ _, prog_ret (find_expired_sstables sstables gc_before_in_sec default_ttl
                      ignore_max_deletion_time)).

Definition find_blockers (expired_sstables non_expired_sstables : list sstable)
  : prog (list sstable * list sstable) :=
  match find_blockers_for_expired_sstables_out expired_sstables non_expired_sstables with
  | None => stop TracebackEmptySequence
  | Some st =>
      prog_bind (say_all (Line <$> printed st))
        (λ _, prog_ret (blocked_expired_ssts st, non_blocked_expired_ssts st))
  end.

Definition dump_processed_sstables (sstables : list sstable) : prog unit :=
  say_all (PrintFound <$> sstables).

Definition dump_expired_sstables (expired_sstables : list sstable)
    (gc_before_in_sec default_ttl : Z) (ignore_max_deletion_time : bool)
    (table_path : string) : prog unit :=
  let expired_ssts_which_ignored_max_deletion_time :=
    filter (λ sst, ignores_max_deletion_time sst ignore_max_deletion_time = true)
      expired_sstables in
  prog_bind
    (say_all
       ((λ sst,
           if ignores_max_deletion_time sst ignore_max_deletion_time
           then PrintFoundExpired (name sst) (calculate_max_deletion_time sst default_ttl)
                  gc_before_in_sec true
           else PrintFoundExpired (name sst) (max_deletion_time sst)
                  gc_before_in_sec false) <$> expired_sstables))
    (λ _,
       match expired_ssts_which_ignored_max_deletion_time with
       | [] => prog_ret tt
       | _ :: _ =>
           prog_bind
             (say (PrintIgnoredNames
                     (name <$> expired_ssts_which_ignored_max_deletion_time)))
             (λ _, prog_bind
                     (total_space table_path
                        expired_ssts_which_ignored_max_deletion_time)
                     (λ mb, say (PrintSpaceIgnored mb)))
       end).

(** The file system and the calls made are the same in both states. *)
Definition unchanged (m m' : machine) : Prop :=
  m_world m' = m_world m ∧ m_calls m' = m_calls m.

(** The program did not end in an exception of the decoder or of [min]. *)
Definition not_traceback {A} (r : main_exit + A) : Prop :=
  match r with
  | inl (Traceback _) | inl TracebackEmptySequence => False
  | _ => True
  end.

Declare Scope prog_scope.
Delimit Scope prog_scope with prog.
Notation "x <- p ;; k" := (prog_bind p (λ x, k))
  (at level 100, p at level 99, k at level 200, right associativity) : prog_scope.
Notation "p ;; k" := (prog_bind p (λ _, k))
  (at level 100, k at level 200, right associativity) : prog_scope.

Definition main (fs : filesystem) (processes : list (option string))
    (now_in_seconds : Z) (args : arguments) : prog unit :=
  let table_path := arg_table args in
  let default_ttl := arg_default_ttl args in
  let gc_grace_seconds := arg_gc_grace_seconds args in
  let ignore_max_deletion_time := arg_ignore_max_deletion_time args in
  let expired_sstables_destination_dir := arg_safely_move_expired_sstables_to args in
  let gc_before_in_sec := now_in_seconds - gc_grace_seconds in
  (exit_if (negb (isdir fs table_path)) (ExitNoTableDirectory table_path) ;;
   exit_if (default_ttl =? 0) ExitZeroDefaultTTL ;;
   exit_if (now_in_seconds =? 0) ExitZeroNow ;;
   (if negb (String.eqb expired_sstables_destination_dir EmptyString)
    then
      running <- scylla_running processes ;;
      exit_if running ExitScyllaRunning ;;
      exit_if (negb (isdir fs expired_sstables_destination_dir))
        (ExitNoDestinationDirectory expired_sstables_destination_dir)
    else prog_ret tt) ;;
   say (PrintNow now_in_seconds) ;;
   say (PrintGCPeriod gc_grace_seconds) ;;
   say (PrintDefaultTTL default_ttl) ;;
   say (PrintIgnoreFlag ignore_max_deletion_time) ;;
   sstables <- of_run (process_sstables fs table_path now_in_seconds) ;;
   dump_processed_sstables sstables ;;
   classes <-
     find_expired sstables gc_before_in_sec default_ttl ignore_max_deletion_time ;;
   let '(expired_sstables, non_expired_sstables) := classes in
   dump_expired_sstables expired_sstables gc_before_in_sec default_ttl
     ignore_max_deletion_time table_path ;;
   mb <- total_space table_path expired_sstables ;;
   say (PrintSpaceExpired mb) ;;
   match expired_sstables with
   | [] => prog_ret tt
   | _ :: _ =>
       classes <- find_blockers expired_sstables non_expired_sstables ;;
       let '(blocked_expired_ssts, non_blocked_expired_ssts) := classes in
       non_blocked_expired_ssts_size <- total_space table_path non_blocked_expired_ssts ;;
       say (PrintSpaceNonBlocked non_blocked_expired_ssts_size) ;;
       mb <- total_space table_path blocked_expired_ssts ;;
       say (PrintSpaceBlocked mb) ;;
       if negb (String.eqb expired_sstables_destination_dir EmptyString)
       then
         say (PrintNonBlockedNames (name <$> non_blocked_expired_ssts)) ;;
         move table_path non_blocked_expired_ssts expired_sstables_destination_dir ;;
         say (PrintReclaimed non_blocked_expired_ssts_size
                expired_sstables_destination_dir)
       else prog_ret tt
   end)%prog.

End program.

(** The table directory of [sample_fs_ok] with a backup directory beside
    it, and the component files of its two sstables. *)
Definition sample_fs_main : filesystem :=
  mk_filesystem (files sample_fs_ok) (<["/b" := []]> (dirs sample_fs_ok)).

Definition sample_world_main : gmap string (list byte) :=
  list_to_map
    ((λ c, ("/t/la-2-big-" +:+ c, [x01; x02])) <$>
       ["Data.db"; "Index.db"; "Summary.db"; "Filter.db"; "Scylla.db";
        "Statistics.db"; "TOC.txt"; "CRC.db"])
  ∪ list_to_map
    ((λ c, ("/t/la-5-big-" +:+ c, [x03])) <$>
       ["Data.db"; "Index.db"; "Summary.db"; "Filter.db"; "Scylla.db";
        "Statistics.db"; "TOC.txt"]).

Definition sample_arguments : arguments :=
  mk_arguments "/t" 0 3600 false "/b".

Definition sample_main : machine * (main_exit + unit) :=
  main map_st_size map_link map_remove sample_fs_main
    [Some "systemd"; Some "python3"] 1800000000 sample_arguments
    (mk_machine sample_world_main [] []).

(** * Properties *)

(** ** Token hash on known inputs *)

(** Values of the reference partitioner on fixed keys. *)
Example get_token_reference_vectors :
  murmur3_token.get_token [] = 0
  ∧ murmur3_token.get_token key_a = -7468325962851647638
  ∧ murmur3_token.get_token (replicate 8 Byte.xfe) = -8927430733708461935
  ∧ murmur3_token.get_token key_b = 1446172840243228796
  ∧ murmur3_token.get_token
      (concat (replicate 10 [Byte.x00; Byte.xff; Byte.x10; Byte.xfa; Byte.x99]))
    = 5837342703291459765.
Proof. vm_compute. repeat split. Qed.

(** ** Inclusive ranges *)

Lemma overlaps_true (a b : inclusive_range) :
  Range.overlaps a b = true
  ↔ (Range.first a ≤ Range.first b ≤ Range.last a)
    ∨ (Range.first b ≤ Range.first a ≤ Range.last b).
Proof.
  unfold Range.overlaps.
  rewrite orb_true_iff, !andb_true_iff, !Z.leb_le. tauto.
Qed.

Lemma overlaps_sym (a b : inclusive_range) :
  Range.overlaps a b = Range.overlaps b a.
Proof. unfold Range.overlaps. apply orb_comm. Qed.

Lemma overlaps_false (a b : inclusive_range) :
  Range.overlaps a b = false ↔ ¬ (Range.overlaps a b = true).
Proof. destruct (Range.overlaps a b); split; congruence. Qed.

Lemma overlaps_intersect (a b : inclusive_range) :
  Range.first a ≤ Range.last a →
  Range.first b ≤ Range.last b →
  Range.overlaps a b = true ↔ intervals_intersect a b.
Proof.
  intros Ha Hb. rewrite overlaps_true. unfold intervals_intersect. lia.
Qed.

(** C5: on ranges with [first <= last], [overlaps] decides whether the
    closed intervals intersect; it is symmetric, every such range overlaps
    itself, [0,10] and [20,30] do not overlap, [0,10] and [10,20] do. *)
Theorem overlaps_closed_intervals (a b : inclusive_range) :
  Range.first a ≤ Range.last a →
  Range.first b ≤ Range.last b →
  (Range.overlaps a b = true ↔ intervals_intersect a b)
  ∧ Range.overlaps a b = Range.overlaps b a
  ∧ Range.overlaps a a = true
  ∧ Range.overlaps b b = true
  ∧ Range.overlaps (Range.mk 0 10) (Range.mk 20 30) = false
  ∧ Range.overlaps (Range.mk 0 10) (Range.mk 10 20) = true.
Proof.
  intros Ha Hb. split_and!.
  - by apply overlaps_intersect.
  - apply overlaps_sym.
  - apply overlaps_true. lia.
  - apply overlaps_true. lia.
  - reflexivity.
  - reflexivity.
Qed.

Lemma overlaps_closed_intervals_witness :
  Range.overlaps (Range.mk 0 10) (Range.mk 10 20) = true
  ↔ intervals_intersect (Range.mk 0 10) (Range.mk 10 20).
Proof.
  apply (overlaps_closed_intervals (Range.mk 0 10) (Range.mk 10 20)); simpl; lia.
Defined.

(** ** Sanity validator *)

Lemma sane_timestamp_true ts lo hi :
  sane_timestamp ts lo hi = true ↔ lo ≤ ts ≤ hi.
Proof. unfold sane_timestamp. rewrite andb_true_iff, !Z.leb_le. tauto. Qed.

Lemma sanity_check_passes (sst : sstable) (now_in_seconds : Z) :
  sanity_check_sstable_metadata sst now_in_seconds = Ret tt ↔ ¬ sanity_violation sst.
Proof.
  unfold sanity_check_sstable_metadata, sanity_violation, exit,
    deletion_time_for_never_expiring_sstable.
  destruct (Z.eqb_spec (min_timestamp sst) 0); [split; [discriminate | tauto]|].
  destruct (Z.eqb_spec (max_timestamp sst) 0); [split; [discriminate | tauto]|].
  destruct (Z.eqb_spec (max_deletion_time sst) 0); [split; [discriminate | tauto]|].
  destruct (Z.ltb_spec (max_timestamp sst) (min_timestamp sst));
    [split; [discriminate | tauto]|].
  destruct (sane_timestamp (max_deletion_time sst) _ _) eqn:E1; simpl;
    [apply sane_timestamp_true in E1
    |split; [discriminate|]; intros Hn; apply not_true_iff_false in E1;
     rewrite sane_timestamp_true in E1; tauto].
  destruct (sane_timestamp (min_timestamp sst) _ _) eqn:E2; simpl;
    [apply sane_timestamp_true in E2
    |split; [discriminate|]; intros Hn; apply not_true_iff_false in E2;
     rewrite sane_timestamp_true in E2; tauto].
  destruct (sane_timestamp (max_timestamp sst) _ _) eqn:E3; simpl;
    [apply sane_timestamp_true in E3
    |split; [discriminate|]; intros Hn; apply not_true_iff_false in E3;
     rewrite sane_timestamp_true in E3; tauto].
  split; [|done]. intros _. lia.
Qed.

(** The validator ends in one of two ways: it returns, or it exits with a
    message about the descriptor it was given. *)
Lemma sanity_check_outcome (sst : sstable) (now_in_seconds : Z) :
  sanity_check_sstable_metadata sst now_in_seconds = Ret tt
  ∨ ∃ reason, sanity_check_sstable_metadata sst now_in_seconds
              = SysExit (ExitBadMetadata sst reason).
Proof.
  unfold sanity_check_sstable_metadata, exit.
  repeat (case_match; [right; eauto|]). by left.
Qed.

Lemma sanity_check_rejects (sst : sstable) (now_in_seconds : Z) :
  (∃ reason, sanity_check_sstable_metadata sst now_in_seconds
             = SysExit (ExitBadMetadata sst reason))
  ↔ sanity_violation sst.
Proof.
  pose proof (sanity_check_passes sst now_in_seconds) as Hp.
  destruct (sanity_check_outcome sst now_in_seconds) as [Hr|[reason Hr]].
  - split.
    + intros [reason Hx]. congruence.
    + intros Hv. apply Hp in Hr. contradiction.
  - split; [|eauto]. intros _.
    destruct (decide (sanity_violation sst)) as [|Hn]; [done|].
    apply Hp in Hn. congruence.
Qed.

(** ** The run of [process_sstables] *)

Lemma run_bind_exit {A B} (o : list out) (s : exit_status) (k : A → run B) :
  run_bind (o, SysExit s) k = (o, SysExit s).
Proof. reflexivity. Qed.

Lemma process_entries_app fs table_path now before rest sstables :
  process_entries fs table_path now (before ++ rest) sstables
  = run_bind (process_entries fs table_path now before sstables)
      (λ sstables', process_entries fs table_path now rest sstables').
Proof.
  revert sstables. induction before as [|entry before IH]; intros sstables; simpl.
  - destruct (process_entries fs table_path now rest sstables) as [o r].
    by destruct r.
  - destruct (process_entry fs table_path now sstables entry) as [o [l|e|s]]; simpl;
      [|done|done].
    rewrite IH.
    destruct (process_entries fs table_path now before l) as [o1 [l1|e1|s1]]; simpl;
      [|done|done].
    destruct (process_entries fs table_path now rest l1) as [o2 r2].
    destruct r2; by rewrite app_assoc.
Qed.

(** A [sys.exit] in one round of the loop ends [process_sstables]: the
    entries behind it are not looked at and no list is returned. *)
Lemma process_sstables_exit_at fs table_path now before entry after o1 l1 o s :
  dirs fs !! table_path = Some (before ++ entry :: after) →
  process_entries fs table_path now before [] = (o1, Ret l1) →
  process_entry fs table_path now l1 entry = (o, SysExit s) →
  process_sstables fs table_path now
  = (PrintProcessing table_path :: o1 ++ o, SysExit s).
Proof.
  intros Hdir Hbefore Hentry. unfold process_sstables. rewrite Hdir.
  rewrite process_entries_app, Hbefore. simpl. by rewrite Hentry.
Qed.

Lemma get_sstable_tokens_outcome fs filename :
  (∃ tokens, get_sstable_tokens fs filename = ([], Ret tokens))
  ∨ (∃ e, get_sstable_tokens fs filename = ([PrintExn e], SysExit (ExitCode 1))).
Proof.
  unfold get_sstable_tokens.
  destruct (with_open fs filename read_summary_keys) as [e|[first last]].
  - right. by exists e.
  - left. eauto.
Qed.

Lemma init_stats_metadata_outcome fs filename sstable_format :
  (∃ st, init_stats_metadata fs filename sstable_format = ([], Ret st))
  ∨ (∃ e, init_stats_metadata fs filename sstable_format
          = ([PrintExn e], SysExit (ExitCode 1)))
  ∨ init_stats_metadata fs filename sstable_format
    = ([], SysExit (ExitNoStats filename)).
Proof.
  unfold init_stats_metadata.
  destruct (with_open fs filename _) as [e|st].
  - right; left. by exists e.
  - destruct (found_stats st); simpl; eauto.
Qed.

(** Decoding never raises: it returns the metadata, printing nothing, or
    it ends in [sys.exit]. *)
Lemma sstable_metadata_processor_outcome fs filename :
  (∃ md, sstable_metadata_processor fs filename = ([], Ret md))
  ∨ (∃ o s, sstable_metadata_processor fs filename = (o, SysExit s)
            ∧ decode_failure filename o s).
Proof.
  unfold sstable_metadata_processor, validate_format, validate_component.
  destruct (first_contained (basename filename) _) as [fmt|]; simpl;
    [|right; eexists _, _; split; [done|constructor]].
  destruct (first_contained filename _) as [component|]; simpl;
    [|right; eexists _, _; split; [done|constructor]].
  destruct (get_sstable_tokens_outcome fs (py_replace filename component "Summary.db"))
    as [[tokens ->]|[e ->]]; simpl;
    [|right; eexists _, _; split; [done|constructor]].
  destruct (init_stats_metadata_outcome fs
              (py_replace filename component "Statistics.db") fmt)
    as [[st ->]|[[e ->]| ->]]; simpl.
  - left. eauto.
  - right; eexists _, _; split; [done|constructor].
  - right; eexists _, _; split; [done|constructor].
Qed.

(** One round of the loop on a file group whose decoding fails. *)
Lemma process_entry_decode_exit fs table_path now sstables entry o s :
  isfile fs (path_join table_path entry) = true →
  py_endswith entry sstable_component_for_identification = true →
  sstable_metadata_processor fs (path_join table_path entry) = (o, SysExit s) →
  process_entry fs table_path now sstables entry = (o, SysExit s).
Proof.
  intros Hfile Hend Hdec. unfold process_entry.
  rewrite Hfile, Hend. simpl. by rewrite Hdec.
Qed.

(** One round of the loop on a file group that decodes to a descriptor
    the validator rejects. *)
Lemma process_entry_sanity_exit fs table_path now sstables entry o md s :
  isfile fs (path_join table_path entry) = true →
  py_endswith entry sstable_component_for_identification = true →
  sstable_metadata_processor fs (path_join table_path entry) = (o, Ret md) →
  sanity_check_sstable_metadata
    (mk_sstable entry (md_min_timestamp md) (md_max_timestamp md)
       (md_max_deletion_time md) (md_first_token md) (md_last_token md)) now
  = SysExit s →
  process_entry fs table_path now sstables entry = (o ++ [], SysExit s).
Proof.
  intros Hfile Hend Hdec Hsan. unfold process_entry.
  rewrite Hfile, Hend. simpl. rewrite Hdec. simpl. by rewrite Hsan.
Qed.

(** C4: the validator exits, with a message about the descriptor, exactly
    when one of the listed conditions holds; [max_timestamp < min_timestamp]
    alone is enough; a descriptor with none of them passes; and the exit is
    fatal: [process_sstables] ends with it, whatever entries follow. *)
Theorem sanity_check_rejects_iff_violation (sst : sstable) (now_in_seconds : Z) :
  ((∃ reason, sanity_check_sstable_metadata sst now_in_seconds
              = SysExit (ExitBadMetadata sst reason))
   ↔ sanity_violation sst)
  ∧ (max_timestamp sst < min_timestamp sst →
     ∃ reason, sanity_check_sstable_metadata sst now_in_seconds
               = SysExit (ExitBadMetadata sst reason))
  ∧ (¬ sanity_violation sst →
     sanity_check_sstable_metadata sst now_in_seconds = Ret tt)
  ∧ (∀ fs table_path before after o1 l1 o,
       dirs fs !! table_path = Some (before ++ name sst :: after) →
       process_entries fs table_path now_in_seconds before [] = (o1, Ret l1) →
       isfile fs (path_join table_path (name sst)) = true →
       py_endswith (name sst) sstable_component_for_identification = true →
       sstable_metadata_processor fs (path_join table_path (name sst))
       = (o, Ret (metadata_of sst)) →
       sanity_violation sst →
       ∃ reason, process_sstables fs table_path now_in_seconds
                 = (PrintProcessing table_path :: o1 ++ o,
                    SysExit (ExitBadMetadata sst reason))).
Proof.
  split_and!.
  - apply sanity_check_rejects.
  - intros Hlt. apply sanity_check_rejects. unfold sanity_violation. tauto.
  - apply sanity_check_passes.
  - intros fs table_path before after o1 l1 o Hdir Hbefore Hfile Hend Hdec Hv.
    apply (sanity_check_rejects sst now_in_seconds) in Hv as [reason Hr].
    exists reason.
    rewrite (process_sstables_exit_at fs table_path now_in_seconds before (name sst)
               after o1 l1 (o ++ []) (ExitBadMetadata sst reason) Hdir Hbefore).
    + by rewrite app_nil_r.
    + eapply process_entry_sanity_exit; [done|done|exact Hdec|].
      destruct sst; exact Hr.
Qed.

Lemma sanity_check_rejects_iff_violation_witness :
  sanity_violation sample_sst_zero
  ∧ ∃ reason, process_sstables sample_fs_zero "/t" 1700000000
              = ([PrintProcessing "/t"], SysExit (ExitBadMetadata sample_sst_zero reason)).
Proof.
  assert (Hv : sanity_violation sample_sst_zero) by (left; reflexivity).
  split; [exact Hv|].
  apply (proj2 (proj2 (proj2
           (sanity_check_rejects_iff_violation sample_sst_zero 1700000000)))
           sample_fs_zero "/t" [] ["la-2-big-TOC.txt"] [] [] []).
  - vm_compute. reflexivity.
  - reflexivity.
  - vm_compute. reflexivity.
  - vm_compute. reflexivity.
  - vm_compute. reflexivity.
  - exact Hv.
Defined.

(** ** Decode failures *)

Lemma sample_group1_fails :
  sstable_metadata_processor sample_fs "/t/la-1-big-TOC.txt"
  = ([PrintExn (StructError 4 2)], SysExit (ExitCode 1)).
Proof. vm_compute. reflexivity. Qed.

Lemma sample_group2_decodes :
  sstable_metadata_processor sample_fs "/t/la-2-big-TOC.txt"
  = ([], Ret (mk_metadata 1600000000000000 1600000001000000 1700000000
                (-7468325962851647638) 1446172840243228796)).
Proof. vm_compute. reflexivity. Qed.

Lemma sample_group3_fails :
  sstable_metadata_processor sample_fs_no_stats "/t/la-3-big-TOC.txt"
  = ([], SysExit (ExitNoStats "/t/la-3-big-Statistics.db")).
Proof. vm_compute. reflexivity. Qed.

(** C3, as stated, fails: in [sample_fs] the Summary of group 1 is cut
    short and group 2 is complete.  The read failure of group 1 ends the
    whole run with status 1; what is printed is the exception, which does
    not name the file; group 2 is never decoded and no descriptor list is
    returned. *)
Lemma decode_failure_is_not_local :
  sstable_metadata_processor sample_fs "/t/la-1-big-TOC.txt"
  = ([PrintExn (StructError 4 2)], SysExit (ExitCode 1))
  ∧ (∃ md, sstable_metadata_processor sample_fs "/t/la-2-big-TOC.txt" = ([], Ret md))
  ∧ dirs sample_fs !! "/t"
    = Some ["la-1-big-TOC.txt"; "la-1-big-Summary.db"; "la-1-big-Statistics.db";
            "la-2-big-TOC.txt"; "la-2-big-Summary.db"; "la-2-big-Statistics.db"]
  ∧ process_sstables sample_fs "/t" 1700000000
    = ([PrintProcessing "/t"; PrintExn (StructError 4 2)], SysExit (ExitCode 1))
  ∧ ¬ (∃ o sstables, process_sstables sample_fs "/t" 1700000000 = (o, Ret sstables)).
Proof.
  split_and!.
  - exact sample_group1_fails.
  - eexists. exact sample_group2_decodes.
  - vm_compute. reflexivity.
  - vm_compute. reflexivity.
  - intros (o & sstables & H). vm_compute in H. discriminate.
Qed.

(** C3, amended: a file group whose decoding fails (a read failure in
    the Summary or Statistics component, or a Statistics directory without
    a Stats component) ends the whole run: the failure is a [sys.exit],
    which the loop's [except Exception] does not catch, so
    [process_sstables] ends with it, the entries after the failing one are
    not decoded and no descriptor list is returned.  A missing Stats
    component exits with a message naming the Statistics file. *)
Theorem decode_failure_aborts_run fs table_path now_in_seconds
    before entry after o1 l1 o (r : outcome metadata) :
  dirs fs !! table_path = Some (before ++ entry :: after) →
  process_entries fs table_path now_in_seconds before [] = (o1, Ret l1) →
  isfile fs (path_join table_path entry) = true →
  py_endswith entry sstable_component_for_identification = true →
  sstable_metadata_processor fs (path_join table_path entry) = (o, r) →
  (∀ md, r ≠ Ret md) →
  (∃ s, r = SysExit s
        ∧ process_sstables fs table_path now_in_seconds
          = (PrintProcessing table_path :: o1 ++ o, SysExit s))
  ∧ (∀ filename sstable_format self,
       with_open fs filename (read_stats_directory sstable_format) = inr self →
       found_stats self = false →
       init_stats_metadata fs filename sstable_format
       = ([], SysExit (ExitNoStats filename))).
Proof.
  intros Hdir Hbefore Hfile Hend Hdec Hfail. split.
  - destruct (sstable_metadata_processor_outcome fs (path_join table_path entry))
      as [[md Hmd]|(o' & s & Hs & _)].
    + rewrite Hmd in Hdec. injection Hdec as <- <-. by destruct (Hfail md).
    + rewrite Hs in Hdec. injection Hdec as <- <-.
      exists s. split; [done|].
      eapply process_sstables_exit_at; [done|done|].
      by apply process_entry_decode_exit.
  - intros filename sstable_format self Hopen Hfound.
    unfold init_stats_metadata. by rewrite Hopen, Hfound.
Qed.

Lemma decode_failure_aborts_run_witness :
  ∃ s, (SysExit (ExitNoStats "/t/la-3-big-Statistics.db") : outcome metadata)
       = SysExit s
       ∧ process_sstables sample_fs_no_stats "/t" 1700000000
         = (PrintProcessing "/t" :: [] ++ [], SysExit s).
Proof.
  apply (decode_failure_aborts_run sample_fs_no_stats "/t" 1700000000
           ["la-2-big-TOC.txt"] "la-3-big-TOC.txt" [] []
           [mk_sstable "la-2-big-TOC.txt" 1600000000000000 1600000001000000
              1700000000 (-7468325962851647638) 1446172840243228796]
           [] (SysExit (ExitNoStats "/t/la-3-big-Statistics.db"))).
  - vm_compute. reflexivity.
  - vm_compute. reflexivity.
  - vm_compute. reflexivity.
  - vm_compute. reflexivity.
  - vm_compute. reflexivity.
  - intros md. discriminate.
Defined.

(** ** Expiration classifier *)

Lemma even_or_odd (q : Z) :
  (Z.even q = true ∧ ∃ k, q = 2 * k) ∨ (Z.even q = false ∧ ∃ k, q = 2 * k + 1).
Proof.
  destruct (Z.even q) eqn:E.
  - left. split; [done|]. by apply Z.even_spec in E.
  - right. split; [done|]. rewrite <- Z.negb_odd in E.
    apply negb_false_iff in E. by apply Z.odd_spec in E.
Qed.

(** Rounding to a multiple of [2 ^ -22] first does not change the nearest
    integer of a quotient by a million: such a quotient is a half-integer
    or at least a millionth away from one. *)
Lemma double_rounding (ts : Z) :
  round_half_even (round_half_even (ts * 4194304) 1000000) 4194304
  = round_half_even ts 1000000.
Proof.
  unfold round_half_even.
  pose proof (Z.div_mod ts 1000000 ltac:(lia)) as H1.
  pose proof (Z.mod_pos_bound ts 1000000 ltac:(lia)) as B1.
  pose proof (Z.div_mod (ts * 4194304) 1000000 ltac:(lia)) as H2.
  pose proof (Z.mod_pos_bound (ts * 4194304) 1000000 ltac:(lia)) as B2.
  set (q1 := ts / 1000000) in *. set (r1 := ts mod 1000000) in *.
  set (q2 := ts * 4194304 / 1000000) in *.
  set (r2 := (ts * 4194304) mod 1000000) in *.
  clearbody q1 r1 q2 r2.
  set (m := if 2 * r2 <? 1000000 then q2
            else if 1000000 <? 2 * r2 then q2 + 1
            else if Z.even q2 then q2 else q2 + 1).
  assert (Hm : (2 * r2 < 1000000 ∧ m = q2)
               ∨ (1000000 < 2 * r2 ∧ m = q2 + 1)
               ∨ (2 * r2 = 1000000
                  ∧ ((∃ k, q2 = 2 * k) ∧ m = q2
                     ∨ (∃ k, q2 = 2 * k + 1) ∧ m = q2 + 1))).
  { subst m. destruct (Z.ltb_spec (2 * r2) 1000000); [lia|].
    destruct (Z.ltb_spec 1000000 (2 * r2)); [lia|].
    right; right. split; [lia|].
    destruct (even_or_odd q2) as [[-> ?]|[-> ?]]; eauto. }
  clearbody m.
  pose proof (Z.div_mod m 4194304 ltac:(lia)) as H3.
  pose proof (Z.mod_pos_bound m 4194304 ltac:(lia)) as B3.
  set (q3 := m / 4194304) in *. set (r3 := m mod 4194304) in *.
  clearbody q3 r3.
  destruct (even_or_odd q3) as [[-> [k3 ?]]|[-> [k3 ?]]];
  destruct (even_or_odd q1) as [[-> [k1 ?]]|[-> [k1 ?]]];
  destruct Hm as [[? ?]|[[? ?]|[? [[[k2 ?] ?]|[[k2 ?] ?]]]]];
  repeat match goal with
         | |- context [?a <? ?b] => destruct (Z.ltb_spec a b)
         end; try lia.
Qed.

(** On the timestamps the validator lets through, the quotient lies in
    [2^30, 2^31): the float has exponent -22 and [round] of it is the
    nearest integer of the exact quotient. *)
Lemma timestamp_in_seconds_exact (ts : Z) :
  1500000000000000 ≤ ts ≤ 2000000000000000 →
  timestamp_in_seconds ts = round_half_even ts 1000000.
Proof.
  intros Hts. unfold timestamp_in_seconds, py_truediv.
  destruct (Z.eqb_spec ts 0) as [|_]; [lia|].
  assert (Hlog : log2_quotient (Z.abs ts) 1000000 = 30).
  { unfold log2_quotient. rewrite Z.abs_eq by lia.
    rewrite (Z.log2_unique ts 50) by lia.
    change (Z.log2 1000000) with 19. change (50 - 19) with 31.
    change (0 <=? 31) with true. cbv iota.
    change (1000000 * 2 ^ 31) with 2147483648000000.
    destruct (Z.leb_spec 2147483648000000 ts); [lia|reflexivity]. }
  rewrite Hlog. change (30 - 52) with (-22). change (-22 <? 0) with true.
  cbv iota. unfold py_round. simpl exponent. simpl mantissa.
  change (0 <=? -22) with false. cbv iota.
  change (2 ^ (- -22)) with 4194304.
  apply double_rounding.
Qed.

Lemma ignores_max_deletion_time_true (d : sstable) (flag : bool) :
  ignores_max_deletion_time d flag = true
  ↔ max_deletion_time d = 2147483647 ∧ flag = true.
Proof.
  unfold ignores_max_deletion_time, deletion_time_for_never_expiring_sstable.
  rewrite andb_true_iff, Z.eqb_eq. tauto.
Qed.

Lemma is_sstable_expired_true (d : sstable) (gc_before default_ttl : Z) (flag : bool) :
  is_sstable_expired d gc_before default_ttl flag = true
  ↔ (if ignores_max_deletion_time d flag
     then timestamp_in_seconds (max_timestamp d) + default_ttl
     else max_deletion_time d) < gc_before.
Proof.
  unfold is_sstable_expired, is_sstable_expired_out, calculate_max_deletion_time.
  destruct (ignores_max_deletion_time d flag); simpl; apply Z.ltb_lt.
Qed.

(** Ties go to the even second; beyond the validator's window the float
    can lose the distance to a half: the quotient
    [8796093022208.500001] is rounded down. *)
Example timestamp_in_seconds_samples :
  timestamp_in_seconds 1600000000500000 = 1600000000
  ∧ timestamp_in_seconds 1600000001500000 = 1600000002
  ∧ timestamp_in_seconds 1600000000499999 = 1600000000
  ∧ timestamp_in_seconds 1600000000500001 = 1600000001
  ∧ timestamp_in_seconds 8796093022208500001 = 8796093022208
  ∧ round_half_even 8796093022208500001 1000000 = 8796093022209.
Proof. vm_compute. repeat split. Qed.

Lemma find_expired_sstables_fold sstables gc_before default_ttl flag expired live :
  fold_left
    (λ '(expired_sstables, non_expired_sstables) sst,
       if is_sstable_expired sst gc_before default_ttl flag
       then (expired_sstables ++ [sst], non_expired_sstables)
       else (expired_sstables, non_expired_sstables ++ [sst]))
    sstables (expired, live)
  = (expired ++ filter (λ sst, is_sstable_expired sst gc_before default_ttl flag = true)
                  sstables,
     live ++ filter (λ sst, ¬ is_sstable_expired sst gc_before default_ttl flag = true)
               sstables).
Proof.
  revert expired live.
  induction sstables as [|sst sstables IH]; intros expired live; cbn [fold_left].
  - by rewrite !filter_nil, !app_nil_r.
  - rewrite !filter_cons.
    destruct (is_sstable_expired sst gc_before default_ttl flag) eqn:E; rewrite IH.
    + do 2 case_decide; try done. by rewrite <- app_assoc.
    + do 2 case_decide; try done. by rewrite <- app_assoc.
Qed.

(** The classifier splits the descriptors into the expired and the others,
    keeping their order. *)
Lemma find_expired_sstables_spec sstables gc_before default_ttl flag :
  find_expired_sstables sstables gc_before default_ttl flag
  = (filter (λ sst, is_sstable_expired sst gc_before default_ttl flag = true) sstables,
     filter (λ sst, ¬ is_sstable_expired sst gc_before default_ttl flag = true) sstables).
Proof. apply (find_expired_sstables_fold sstables gc_before default_ttl flag [] []). Qed.

(** C2: the classifier takes [max_deletion_time], or, for the sentinel
    under the override flag, [timestamp_in_seconds(max_timestamp) +
    default_ttl], and reports expired exactly when that is below
    [gc_before = now - gc_grace_period]; on every descriptor the validator
    accepts, [timestamp_in_seconds] is the rounding of the exact quotient,
    so the verdict is [effective_deletion_time(d) < gc_before]. *)
Theorem is_sstable_expired_effective_deletion_time
    (d : sstable) (now gc_grace_period default_ttl : Z) (flag : bool) :
  let gc_before := now - gc_grace_period in
  (ignores_max_deletion_time d flag = true
   ↔ max_deletion_time d = 2147483647 ∧ flag = true)
  ∧ (is_sstable_expired d gc_before default_ttl flag = true
     ↔ (if ignores_max_deletion_time d flag
        then timestamp_in_seconds (max_timestamp d) + default_ttl
        else max_deletion_time d) < gc_before)
  ∧ (sanity_check_sstable_metadata d now = Ret tt →
     (is_sstable_expired d gc_before default_ttl flag = true
      ↔ effective_deletion_time d default_ttl flag < gc_before)).
Proof.
  intros gc_before. split_and!.
  - apply ignores_max_deletion_time_true.
  - apply is_sstable_expired_true.
  - intros Hsane. apply sanity_check_passes in Hsane.
    rewrite is_sstable_expired_true. unfold effective_deletion_time.
    pose proof (ignores_max_deletion_time_true d flag) as Hi.
    destruct (ignores_max_deletion_time d flag).
    + rewrite decide_True by (by apply Hi).
      rewrite timestamp_in_seconds_exact; [done|].
      unfold sanity_violation in Hsane. lia.
    + rewrite decide_False; [done|]. intros Hc. apply Hi in Hc. discriminate.
Qed.

Lemma is_sstable_expired_effective_deletion_time_witness :
  sanity_check_sstable_metadata sample_sst_never_expiring 1700000000 = Ret tt
  ∧ effective_deletion_time sample_sst_never_expiring 86400 true = 1600086400
  ∧ (is_sstable_expired sample_sst_never_expiring (1700000000 - 864000) 86400 true = true
     ↔ effective_deletion_time sample_sst_never_expiring 86400 true
       < 1700000000 - 864000).
Proof.
  split_and!; [reflexivity|reflexivity|].
  apply (proj2 (proj2 (is_sstable_expired_effective_deletion_time
                         sample_sst_never_expiring 1700000000 864000 86400 true))).
  reflexivity.
Defined.

(** C7: with the descriptor, the default TTL and the flag fixed, a file
    expired at [g1] is expired at every [g2 >= g1]. *)
Theorem is_sstable_expired_monotonic
    (d : sstable) (default_ttl : Z) (flag : bool) (g1 g2 : Z) :
  g1 ≤ g2 →
  is_sstable_expired d g1 default_ttl flag = true →
  is_sstable_expired d g2 default_ttl flag = true.
Proof.
  intros Hle. rewrite !is_sstable_expired_true. lia.
Qed.

Lemma is_sstable_expired_monotonic_witness :
  is_sstable_expired sample_sst_never_expiring 1600086401 86400 true = true
  ∧ is_sstable_expired sample_sst_never_expiring 1700000000 86400 true = true.
Proof.
  assert (H1 : is_sstable_expired sample_sst_never_expiring 1600086401 86400 true = true)
    by reflexivity.
  split; [exact H1|].
  apply (is_sstable_expired_monotonic sample_sst_never_expiring 86400 true
           1600086401 1700000000); [lia|exact H1].
Defined.

(** C10: without the override flag, or on a descriptor whose
    [max_deletion_time] is not the sentinel, the default TTL has no
    influence: the verdict and what is printed are the same for any two
    values of it. *)
Theorem is_sstable_expired_ignores_default_ttl
    (d : sstable) (gc_before ttl1 ttl2 : Z) (flag : bool) :
  flag = false ∨ max_deletion_time d ≠ 2147483647 →
  is_sstable_expired d gc_before ttl1 flag = is_sstable_expired d gc_before ttl2 flag
  ∧ is_sstable_expired_out d gc_before ttl1 flag
    = is_sstable_expired_out d gc_before ttl2 flag.
Proof.
  intros H.
  assert (Hi : ignores_max_deletion_time d flag = false).
  { apply not_true_iff_false. rewrite ignores_max_deletion_time_true.
    intros [? ?]. destruct H; congruence. }
  unfold is_sstable_expired, is_sstable_expired_out. by rewrite Hi.
Qed.

Lemma is_sstable_expired_ignores_default_ttl_witness :
  is_sstable_expired sample_sst_never_expiring 1700000000 86400 false
  = is_sstable_expired sample_sst_never_expiring 1700000000 1 false
  ∧ is_sstable_expired_out sample_sst_never_expiring 1700000000 86400 false
    = is_sstable_expired_out sample_sst_never_expiring 1700000000 1 false.
Proof.
  apply (is_sstable_expired_ignores_default_ttl sample_sst_never_expiring
           1700000000 86400 1 false).
  left. reflexivity.
Defined.

(** ** Token truncation *)

Lemma truncate_int64_formula (x : Z) :
  murmur3_token.truncate_int64 x = (x + 2 ^ 63) mod 2 ^ 64 - 2 ^ 63.
Proof.
  unfold murmur3_token.truncate_int64, murmur3_token.INT64_OVF_DIV,
    murmur3_token.INT64_OVF_OFFSET, murmur3_token.INT64_MIN,
    murmur3_token.INT64_MAX.
  change (2 ^ 63) with 9223372036854775808.
  change (2 ^ 64) with 18446744073709551616.
  change (2 * (9223372036854775808 - 1 + 1)) with 18446744073709551616.
  change (9223372036854775808 - 1 + 1) with 9223372036854775808.
  destruct (Z.leb_spec (- (9223372036854775808 - 1) - 1) x);
    destruct (Z.leb_spec x (9223372036854775808 - 1)); simpl; try reflexivity.
  symmetry.
  rewrite (Z.mod_small (x + 9223372036854775808)) by lia. lia.
Qed.

(** C6, as stated, fails: the least 64-bit integer is left as it is, so
    the result is not always within [-2^63+1, 2^63-1]. *)
Lemma truncate_int64_yields_minimum :
  murmur3_token.truncate_int64 (- 2 ^ 63) = - 2 ^ 63
  ∧ ¬ (∀ x, murmur3_token.truncate_int64 x = (x + 2 ^ 63) mod 2 ^ 64 - 2 ^ 63
            ∧ - 2 ^ 63 + 1 ≤ murmur3_token.truncate_int64 x ≤ 2 ^ 63 - 1).
Proof.
  split; [reflexivity|].
  intros H. destruct (H (- 2 ^ 63)) as [_ [Hlo _]].
  vm_compute in Hlo. by apply Hlo.
Qed.

(** C6, amended: for every integer [x] the truncation is
    [((x + 2^63) mod 2^64) - 2^63], which lies in [-2^63, 2^63-1]; the
    least value [-2^63] is produced, exactly for the [x] congruent to
    [2^63] modulo [2^64]. *)
Theorem truncate_int64_range (x : Z) :
  murmur3_token.truncate_int64 x = (x + 2 ^ 63) mod 2 ^ 64 - 2 ^ 63
  ∧ - 2 ^ 63 ≤ murmur3_token.truncate_int64 x ≤ 2 ^ 63 - 1
  ∧ (murmur3_token.truncate_int64 x = - 2 ^ 63 ↔ (x + 2 ^ 63) mod 2 ^ 64 = 0).
Proof.
  rewrite truncate_int64_formula.
  pose proof (Z.mod_pos_bound (x + 2 ^ 63) (2 ^ 64) ltac:(lia)) as Hb.
  change (2 ^ 64) with (2 * 2 ^ 63) in *.
  split_and!; first [reflexivity | lia].
Qed.

(** ** Overlap / blocker resolver *)

Lemma overlapping_candidates_fold U L overlapping lines :
  fst (fold_left
         (λ '(overlapping, lines) sst,
            if overlaps_in_token sst U
            then (overlapping ++ [sst], lines ++ [PrintOverlaps (name sst)])
            else (overlapping, lines))
         L (overlapping, lines))
  = overlapping ++ candidates U L.
Proof.
  revert overlapping lines.
  induction L as [|l L IH]; intros overlapping lines; simpl.
  - by rewrite app_nil_r.
  - unfold candidates. rewrite filter_cons.
    change (overlaps_in_token l U) with (Range.overlaps (token_range l) U).
    destruct (Range.overlaps (token_range l) U) eqn:E.
    + rewrite IH. case_decide; [|done]. by rewrite <- app_assoc.
    + rewrite IH. case_decide; [discriminate|done].
Qed.

Lemma overlapping_candidates_fst U L :
  fst (overlapping_candidates U L) = candidates U L.
Proof. apply (overlapping_candidates_fold U L [] []). Qed.

(** The inner loop started from any state: [found_blocker] records whether a
    candidate overlapped, and the expired sstable is appended at the first
    one only. *)
Lemma blockers_inner_fold e cands blockers blocked found :
  fold_left
    (λ '(blockers, blocked, found_blocker) c,
       if overlaps_in_timestamp e c
       then (blockers ++ [name c],
             (if negb found_blocker then blocked ++ [e] else blocked),
             true)
       else (blockers, blocked, found_blocker))
    cands (blockers, blocked, found)
  = (blockers ++ (name <$> filter (λ c, overlaps_in_timestamp e c = true) cands),
     (if found then blocked
      else if decide (blocked_by cands e) then blocked ++ [e] else blocked),
     found || bool_decide (blocked_by cands e)).
Proof.
  revert blockers blocked found.
  induction cands as [|c cands IH]; intros blockers blocked found;
    cbn [fold_left].
  - rewrite decide_False by (by intros H; inversion H).
    rewrite bool_decide_eq_false_2 by (by intros H; inversion H).
    rewrite filter_nil, orb_false_r. simpl. rewrite app_nil_r. by destruct found.
  - rewrite filter_cons.
    assert (Hc : overlaps_in_timestamp e c
                 = Range.overlaps (timestamp_range c) (timestamp_range e))
      by apply overlaps_sym.
    destruct (overlaps_in_timestamp e c) eqn:E.
    + rewrite IH. simpl. rewrite <- app_assoc. simpl.
      assert (Hb : blocked_by (c :: cands) e) by (by apply Exists_cons_hd).
      rewrite (bool_decide_eq_true_2 _ Hb), orb_true_r, decide_True by done.
      by destruct found.
    + rewrite IH.
      assert (Hb : blocked_by (c :: cands) e ↔ blocked_by cands e).
      { unfold blocked_by. rewrite Exists_cons. split; [|tauto].
        intros [Hhd|Htl]; [congruence|done]. }
      rewrite (bool_decide_ext _ _ Hb).
      destruct (decide (false = true)) as [?|_]; [discriminate|].
      destruct found; [done|].
      do 2 case_decide; first [done | tauto].
Qed.

Lemma blockers_inner_spec e cands blocked :
  blockers_inner e cands blocked
  = (name <$> filter (λ c, overlaps_in_timestamp e c = true) cands,
     (if decide (blocked_by cands e) then blocked ++ [e] else blocked),
     bool_decide (blocked_by cands e)).
Proof. unfold blockers_inner. by rewrite blockers_inner_fold. Qed.

(** The outer loop: each expired sstable goes to exactly one of the two
    lists, in order. *)
Lemma blockers_fold_lists cands E st :
  let st' := fold_left (blockers_step cands) E st in
  blocked_expired_ssts st' = blocked_expired_ssts st ++ filter (blocked_by cands) E
  ∧ non_blocked_expired_ssts st'
    = non_blocked_expired_ssts st ++ filter (λ e, ¬ blocked_by cands e) E.
Proof.
  revert st. induction E as [|e E IH]; intros st; simpl.
  - by rewrite !app_nil_r.
  - destruct (IH (blockers_step cands st e)) as [IHb IHn].
    rewrite IHb, IHn. unfold blockers_step.
    rewrite blockers_inner_spec. simpl. rewrite !filter_cons.
    destruct (decide (blocked_by cands e)) as [Hd|Hd].
    + rewrite bool_decide_eq_true_2 by done. simpl.
      rewrite decide_False by tauto. by rewrite <- app_assoc.
    + rewrite bool_decide_eq_false_2 by done. simpl.
      rewrite decide_True by done. by rewrite <- app_assoc.
Qed.

Lemma py_min_spec {A} (key : A → Z) (x : A) (rest : list A) :
  ∃ m, py_min key (x :: rest) = Some m
       ∧ m ∈ x :: rest
       ∧ ∀ y, y ∈ x :: rest → key m ≤ key y.
Proof.
  simpl. revert x. induction rest as [|z rest IH]; intros x; simpl.
  - exists x. split_and!; [done|apply list_elem_of_here|]. intros y Hy.
    apply list_elem_of_singleton in Hy as ->. lia.
  - destruct (IH (if key z <? key x then z else x)) as (m & Hm & Hmem & Hle).
    exists m. split; [done|].
    destruct (Z.ltb_spec (key z) (key x)).
    + split; [by apply list_elem_of_further|]. intros y Hy.
      apply elem_of_cons in Hy as [->|Hy]; [|by apply Hle].
      specialize (Hle z (list_elem_of_here _ _)). lia.
    + split.
      { apply elem_of_cons in Hmem as [->|Hmem]; [apply list_elem_of_here|].
        by do 2 apply list_elem_of_further. }
      intros y Hy.
      apply elem_of_cons in Hy as [->|Hy]; [apply Hle, list_elem_of_here|].
      apply elem_of_cons in Hy as [->|Hy]; [|by apply Hle, list_elem_of_further].
      specialize (Hle x (list_elem_of_here _ _)). lia.
Qed.

Lemma py_max_spec {A} (key : A → Z) (x : A) (rest : list A) :
  ∃ m, py_max key (x :: rest) = Some m
       ∧ m ∈ x :: rest
       ∧ ∀ y, y ∈ x :: rest → key y ≤ key m.
Proof.
  simpl. revert x. induction rest as [|z rest IH]; intros x; simpl.
  - exists x. split_and!; [done|apply list_elem_of_here|]. intros y Hy.
    apply list_elem_of_singleton in Hy as ->. lia.
  - destruct (IH (if key x <? key z then z else x)) as (m & Hm & Hmem & Hle).
    exists m. split; [done|].
    destruct (Z.ltb_spec (key x) (key z)).
    + split; [by apply list_elem_of_further|]. intros y Hy.
      apply elem_of_cons in Hy as [->|Hy]; [|by apply Hle].
      specialize (Hle z (list_elem_of_here _ _)). lia.
    + split.
      { apply elem_of_cons in Hmem as [->|Hmem]; [apply list_elem_of_here|].
        by do 2 apply list_elem_of_further. }
      intros y Hy.
      apply elem_of_cons in Hy as [->|Hy]; [apply Hle, list_elem_of_here|].
      apply elem_of_cons in Hy as [->|Hy]; [|by apply Hle, list_elem_of_further].
      specialize (Hle x (list_elem_of_here _ _)). lia.
Qed.

Lemma get_unified_token_range_spec (E : list sstable) :
  E ≠ [] →
  ∃ U, get_unified_token_range E = Some U ∧ token_envelope E U.
Proof.
  destruct E as [|x rest]; [done|]. intros _.
  destruct (py_min_spec first_token x rest) as (lo & Hlo & Hlo_in & Hlo_le).
  destruct (py_max_spec last_token x rest) as (hi & Hhi & Hhi_in & Hhi_le).
  exists (Range.mk (first_token lo) (last_token hi)).
  unfold get_unified_token_range. rewrite Hlo, Hhi.
  split; [done|]. unfold token_envelope. simpl. split_and!; eauto.
Qed.

Lemma find_blockers_spec (E L : list sstable) (U : inclusive_range) :
  get_unified_token_range E = Some U →
  find_blockers_for_expired_sstables E L
  = Some (filter (blocked_by (candidates U L)) E,
          filter (λ e, ¬ blocked_by (candidates U L) e) E).
Proof.
  intros HU. unfold find_blockers_for_expired_sstables,
    find_blockers_for_expired_sstables_out. rewrite HU.
  pose proof (overlapping_candidates_fst U L) as Hc.
  destruct (overlapping_candidates U L) as [overlapping lines]. simpl in Hc.
  subst overlapping.
  destruct (blockers_fold_lists (candidates U L) E (mk_blockers_state [] [] lines))
    as [Hb Hn].
  simpl in Hb, Hn. by rewrite Hb, Hn.
Qed.

Lemma filter_none {A} (P : A → Prop) `{∀ x, Decision (P x)} (l : list A) :
  (∀ x, x ∈ l → ¬ P x) → filter P l = [].
Proof.
  induction l as [|x l IH]; intros Hl; [done|].
  rewrite filter_cons_False by apply Hl, list_elem_of_here.
  apply IH. intros y Hy. by apply Hl, list_elem_of_further.
Qed.

Lemma filter_all {A} (P : A → Prop) `{∀ x, Decision (P x)} (l : list A) :
  (∀ x, x ∈ l → P x) → filter P l = l.
Proof.
  induction l as [|x l IH]; intros Hl; [done|].
  rewrite filter_cons_True by apply Hl, list_elem_of_here.
  f_equal. apply IH. intros y Hy. by apply Hl, list_elem_of_further.
Qed.

Lemma candidates_subseteq (U : inclusive_range) (L L' : list sstable) :
  L ⊆ L' → candidates U L ⊆ candidates U L'.
Proof.
  intros Hsub l. unfold candidates. rewrite !list_elem_of_filter.
  intros [? ?]. split; [done|]. by apply Hsub.
Qed.

Lemma blocked_by_subseteq (C C' : list sstable) (e : sstable) :
  C ⊆ C' → blocked_by C e → blocked_by C' e.
Proof.
  intros Hsub. unfold blocked_by. rewrite !Exists_exists.
  intros (c & Hc & Ho). exists c. split; [by apply Hsub|done].
Qed.

Example sample_bounds_ordered :
  ∀ s, s ∈ sample_expired ++ [sample_live] →
       first_token s ≤ last_token s ∧ min_timestamp s ≤ max_timestamp s.
Proof.
  intros s Hs. unfold sample_expired in Hs. simpl in Hs.
  repeat (apply elem_of_cons in Hs as [->|Hs]; [simpl; lia|]).
  by apply elem_of_nil in Hs.
Qed.

Example find_blockers_sample :
  find_blockers_for_expired_sstables sample_expired [sample_live]
  = Some
      ([mk_sstable "la-2-big-TOC.txt" 1600000002000000 1600000003000000
          1700000000 200 300],
       [mk_sstable "la-1-big-TOC.txt" 1600000000000000 1600000001000000
          1700000000 0 100;
        mk_sstable "la-3-big-TOC.txt" 1600000004000000 1600000005000000
          1700000000 400 500]).
Proof. reflexivity. Qed.

Lemma token_envelope_ordered (E : list sstable) (U : inclusive_range) :
  token_envelope E U →
  (∀ e, e ∈ E → first_token e ≤ last_token e) →
  Range.first U ≤ Range.last U.
Proof.
  intros (_ & (e & He & Hfirst) & Hlast & _) Hwf.
  specialize (Hlast e He). specialize (Hwf e He). lia.
Qed.

(** On descriptors with ordered token and timestamp bounds, being blocked
    is a matter of closed intervals intersecting. *)
Lemma blocked_by_intersect (E L : list sstable) (U : inclusive_range) (e : sstable) :
  token_envelope E U →
  (∀ s, s ∈ E ++ L →
        first_token s ≤ last_token s ∧ min_timestamp s ≤ max_timestamp s) →
  e ∈ E →
  blocked_by (candidates U L) e
  ↔ ∃ c, c ∈ L
         ∧ intervals_intersect (token_range c) U
         ∧ intervals_intersect (timestamp_range c) (timestamp_range e).
Proof.
  intros Henv Hwf He.
  assert (HU : Range.first U ≤ Range.last U).
  { apply (token_envelope_ordered E U Henv).
    intros x Hx. apply Hwf, elem_of_app. by left. }
  assert (He' : min_timestamp e ≤ max_timestamp e).
  { apply Hwf, elem_of_app. by left. }
  unfold blocked_by. rewrite Exists_exists. unfold candidates.
  split.
  - intros (c & Hc & Ho). apply list_elem_of_filter in Hc as [Htok Hc].
    assert (Hwc := Hwf c ltac:(apply elem_of_app; by right)).
    exists c. split_and!; [done| |].
    + apply overlaps_intersect in Htok; [done|simpl; lia|done].
    + apply overlaps_intersect in Ho; [done|simpl; lia|simpl; lia].
  - intros (c & Hc & Htok & Ho).
    assert (Hwc := Hwf c ltac:(apply elem_of_app; by right)).
    exists c. split.
    + apply list_elem_of_filter. split; [|done].
      apply overlaps_intersect; [simpl; lia|done|done].
    + apply overlaps_intersect; [simpl; lia|simpl; lia|done].
Qed.

(** C1: for a non-empty expired list [E], the resolver takes the token
    envelope [U] of [E], keeps as candidates the non-expired sstables whose
    token range overlaps [U], and returns [E] split in two: an expired
    sstable is in the blocked list iff some candidate's timestamp range
    overlaps its own, in the non-blocked list otherwise; the two lists are
    disjoint and together they are [E], each sstable once.  [overlaps] is
    the test of [inclusive_range]; on descriptors with ordered bounds it is
    the intersection of the closed intervals. *)
Theorem find_blockers_partitions_expired (E L : list sstable) :
  E ≠ [] →
  ∃ U blocked non_blocked,
    get_unified_token_range E = Some U
    ∧ token_envelope E U
    ∧ fst (overlapping_candidates U L) = candidates U L
    ∧ find_blockers_for_expired_sstables E L = Some (blocked, non_blocked)
    ∧ blocked = filter (blocked_by (candidates U L)) E
    ∧ non_blocked = filter (λ e, ¬ blocked_by (candidates U L) e) E
    ∧ (∀ e, e ∈ blocked ↔ e ∈ E ∧ blocked_by (candidates U L) e)
    ∧ (∀ e, e ∈ non_blocked ↔ e ∈ E ∧ ¬ blocked_by (candidates U L) e)
    ∧ (∀ e, e ∈ blocked → e ∉ non_blocked)
    ∧ blocked ++ non_blocked ≡ₚ E
    ∧ ((∀ s, s ∈ E ++ L →
             first_token s ≤ last_token s ∧ min_timestamp s ≤ max_timestamp s) →
       ∀ e, e ∈ blocked
            ↔ e ∈ E
              ∧ ∃ c, c ∈ L
                     ∧ intervals_intersect (token_range c) U
                     ∧ intervals_intersect (timestamp_range c) (timestamp_range e)).
Proof.
  intros HE.
  destruct (get_unified_token_range_spec E HE) as (U & HU & Henv).
  exists U, (filter (blocked_by (candidates U L)) E),
    (filter (λ e, ¬ blocked_by (candidates U L) e) E).
  split_and!; try done.
  - apply overlapping_candidates_fst.
  - by apply find_blockers_spec.
  - intros e. rewrite list_elem_of_filter. tauto.
  - intros e. rewrite list_elem_of_filter. tauto.
  - intros e Hb Hn. apply list_elem_of_filter in Hb as [Hb _].
    apply list_elem_of_filter in Hn as [Hn _]. contradiction.
  - apply filter_app_complement.
  - intros Hwf e. rewrite list_elem_of_filter. split.
    + intros [Hb He]. split; [done|]. by apply (blocked_by_intersect E L U e).
    + intros [He Hc]. split; [|done]. by apply (blocked_by_intersect E L U e).
Qed.

Lemma find_blockers_partitions_expired_witness :
  ∃ U blocked non_blocked,
    get_unified_token_range sample_expired = Some U
    ∧ token_envelope sample_expired U
    ∧ fst (overlapping_candidates U [sample_live]) = candidates U [sample_live]
    ∧ find_blockers_for_expired_sstables sample_expired [sample_live]
      = Some (blocked, non_blocked)
    ∧ blocked = filter (blocked_by (candidates U [sample_live])) sample_expired
    ∧ non_blocked
      = filter (λ e, ¬ blocked_by (candidates U [sample_live]) e) sample_expired
    ∧ (∀ e, e ∈ blocked
            ↔ e ∈ sample_expired ∧ blocked_by (candidates U [sample_live]) e)
    ∧ (∀ e, e ∈ non_blocked
            ↔ e ∈ sample_expired ∧ ¬ blocked_by (candidates U [sample_live]) e)
    ∧ (∀ e, e ∈ blocked → e ∉ non_blocked)
    ∧ blocked ++ non_blocked ≡ₚ sample_expired
    ∧ ((∀ s, s ∈ sample_expired ++ [sample_live] →
             first_token s ≤ last_token s ∧ min_timestamp s ≤ max_timestamp s) →
       ∀ e, e ∈ blocked
            ↔ e ∈ sample_expired
              ∧ ∃ c, c ∈ [sample_live]
                     ∧ intervals_intersect (token_range c) U
                     ∧ intervals_intersect (timestamp_range c) (timestamp_range e)).
Proof.
  apply (find_blockers_partitions_expired sample_expired [sample_live]).
  discriminate.
Defined.

(** C8: for a non-empty expired list [E] and non-expired lists
    [L ⊆ L'], every sstable the resolver reports blocked for [(E, L)] it
    also reports blocked for [(E, L')]. *)
Theorem find_blockers_monotonic (E L L' : list sstable) :
  E ≠ [] →
  L ⊆ L' →
  ∃ blocked non_blocked blocked' non_blocked',
    find_blockers_for_expired_sstables E L = Some (blocked, non_blocked)
    ∧ find_blockers_for_expired_sstables E L' = Some (blocked', non_blocked')
    ∧ blocked ⊆ blocked'
    ∧ non_blocked' ⊆ non_blocked.
Proof.
  intros HE Hsub.
  destruct (get_unified_token_range_spec E HE) as (U & HU & _).
  eexists _, _, _, _. split_and!.
  - by apply find_blockers_spec.
  - by apply find_blockers_spec.
  - intros e. rewrite !list_elem_of_filter. intros [Hb ?]. split; [|done].
    eapply blocked_by_subseteq; [|exact Hb]. by apply candidates_subseteq.
  - intros e. rewrite !list_elem_of_filter. intros [Hn ?]. split; [|done].
    intros Hb. apply Hn.
    eapply blocked_by_subseteq; [|exact Hb]. by apply candidates_subseteq.
Qed.

Lemma find_blockers_monotonic_witness :
  ∃ blocked non_blocked blocked' non_blocked',
    find_blockers_for_expired_sstables sample_expired [] = Some (blocked, non_blocked)
    ∧ find_blockers_for_expired_sstables sample_expired [sample_live]
      = Some (blocked', non_blocked')
    ∧ blocked ⊆ blocked'
    ∧ non_blocked' ⊆ non_blocked.
Proof.
  apply (find_blockers_monotonic sample_expired [] [sample_live]).
  - discriminate.
  - apply list_subseteq_nil.
Defined.

(** C9: for a non-empty expired list [E], when the non-expired list is
    empty, or no non-expired sstable's token range overlaps the token
    envelope of [E], the blocked list is empty and the non-blocked list
    is [E]. *)
Theorem find_blockers_without_candidates (E L : list sstable) :
  E ≠ [] →
  L = []
  ∨ (∀ U l, get_unified_token_range E = Some U → l ∈ L →
            Range.overlaps (token_range l) U = false) →
  find_blockers_for_expired_sstables E L = Some ([], E).
Proof.
  intros HE HL.
  destruct (get_unified_token_range_spec E HE) as (U & HU & _).
  rewrite (find_blockers_spec E L U HU).
  assert (Hc : candidates U L = []).
  { destruct HL as [->|HL]; [done|].
    apply filter_none. intros l Hl. rewrite (HL U l HU Hl). discriminate. }
  rewrite Hc.
  assert (Hnone : ∀ e, ¬ blocked_by [] e) by (intros e Hb; inversion Hb).
  rewrite filter_none by (intros; apply Hnone).
  rewrite filter_all by (intros; apply Hnone). done.
Qed.

Lemma find_blockers_without_candidates_witness :
  find_blockers_for_expired_sstables sample_expired [sample_live_far]
  = Some ([], sample_expired).
Proof.
  apply (find_blockers_without_candidates sample_expired [sample_live_far]).
  - discriminate.
  - right. intros U l HU Hl.
    injection HU as <-. apply list_elem_of_singleton in Hl as ->. reflexivity.
Defined.

(** * Further properties *)

(** ** Classifier and resolver together *)

(** [find_expired_sstables] splits its input in two, keeping the order: the
    first list holds exactly the sstables [is_sstable_expired] accepts, the
    second the others, and together they are the input, each sstable once. *)
Theorem find_expired_sstables_partition
    (sstables : list sstable) (gc_before default_ttl : Z) (flag : bool) :
  let expired := fst (find_expired_sstables sstables gc_before default_ttl flag) in
  let live := snd (find_expired_sstables sstables gc_before default_ttl flag) in
  (∀ sst, sst ∈ expired
          ↔ sst ∈ sstables ∧ is_sstable_expired sst gc_before default_ttl flag = true)
  ∧ (∀ sst, sst ∈ live
            ↔ sst ∈ sstables ∧ is_sstable_expired sst gc_before default_ttl flag = false)
  ∧ expired `sublist_of` sstables
  ∧ live `sublist_of` sstables
  ∧ expired ++ live ≡ₚ sstables.
Proof.
  rewrite find_expired_sstables_spec. simpl. split_and!.
  - intros sst. rewrite list_elem_of_filter. tauto.
  - intros sst. rewrite list_elem_of_filter, not_true_iff_false. tauto.
  - apply sublist_filter.
  - apply sublist_filter.
  - apply filter_app_complement.
Qed.

(** The whole analysis sorts every sstable into exactly one of three
    lists: with at least one expired sstable, the blocked, the non-blocked
    and the non-expired lists together are the input, each sstable once. *)
Theorem classification_covers_input
    (sstables : list sstable) (gc_before default_ttl : Z) (flag : bool) :
  fst (find_expired_sstables sstables gc_before default_ttl flag) ≠ [] →
  ∃ blocked non_blocked,
    find_blockers_for_expired_sstables
      (fst (find_expired_sstables sstables gc_before default_ttl flag))
      (snd (find_expired_sstables sstables gc_before default_ttl flag))
    = Some (blocked, non_blocked)
    ∧ blocked ++ non_blocked ++
        snd (find_expired_sstables sstables gc_before default_ttl flag)
      ≡ₚ sstables
    ∧ (∀ sst, sst ∈ blocked →
              is_sstable_expired sst gc_before default_ttl flag = true
              ∧ sst ∉ non_blocked)
    ∧ (∀ sst, sst ∈ non_blocked →
              is_sstable_expired sst gc_before default_ttl flag = true).
Proof.
  intros HE.
  set (E := fst (find_expired_sstables sstables gc_before default_ttl flag)) in *.
  set (L := snd (find_expired_sstables sstables gc_before default_ttl flag)) in *.
  destruct (get_unified_token_range_spec E HE) as (U & HU & _).
  exists (filter (blocked_by (candidates U L)) E),
    (filter (λ e, ¬ blocked_by (candidates U L) e) E).
  assert (HEin : ∀ sst, sst ∈ E →
                   is_sstable_expired sst gc_before default_ttl flag = true).
  { intros sst. subst E. rewrite find_expired_sstables_spec. simpl.
    rewrite list_elem_of_filter. tauto. }
  split_and!.
  - by apply find_blockers_spec.
  - rewrite app_assoc, filter_app_complement.
    subst E L. rewrite find_expired_sstables_spec. simpl.
    apply filter_app_complement.
  - intros sst Hb. apply list_elem_of_filter in Hb as [Hb Hin]. split; [auto|].
    intros Hn. apply list_elem_of_filter in Hn as [Hn _]. contradiction.
  - intros sst Hn. apply list_elem_of_filter in Hn as [_ Hin]. auto.
Qed.

Lemma classification_covers_input_witness :
  ∃ blocked non_blocked,
    find_blockers_for_expired_sstables
      (fst (find_expired_sstables (sample_live :: sample_expired) 1800000000 86400 false))
      (snd (find_expired_sstables (sample_live :: sample_expired) 1800000000 86400 false))
    = Some (blocked, non_blocked)
    ∧ blocked ++ non_blocked ++
        snd (find_expired_sstables (sample_live :: sample_expired) 1800000000 86400 false)
      ≡ₚ sample_live :: sample_expired
    ∧ (∀ sst, sst ∈ blocked →
              is_sstable_expired sst 1800000000 86400 false = true
              ∧ sst ∉ non_blocked)
    ∧ (∀ sst, sst ∈ non_blocked →
              is_sstable_expired sst 1800000000 86400 false = true).
Proof.
  apply (classification_covers_input (sample_live :: sample_expired)
           1800000000 86400 false).
  vm_compute. discriminate.
Defined.

Lemma overlapping_candidates_fold_lines U L overlapping lines :
  fold_left
    (λ '(overlapping, lines) sst,
       if overlaps_in_token sst U
       then (overlapping ++ [sst], lines ++ [PrintOverlaps (name sst)])
       else (overlapping, lines))
    L (overlapping, lines)
  = (overlapping ++ candidates U L,
     lines ++ ((λ c, PrintOverlaps (name c)) <$> candidates U L)).
Proof.
  revert overlapping lines.
  induction L as [|l L IH]; intros overlapping lines; cbn [fold_left].
  - unfold candidates. rewrite filter_nil. simpl. by rewrite !app_nil_r.
  - unfold candidates in *. rewrite filter_cons.
    change (overlaps_in_token l U) with (Range.overlaps (token_range l) U).
    destruct (Range.overlaps (token_range l) U) eqn:E; rewrite IH.
    + case_decide; [|done]. rewrite fmap_cons. by rewrite <- !app_assoc.
    + case_decide; [discriminate|done].
Qed.

Lemma blockers_fold_printed cands E st :
  printed (fold_left (blockers_step cands) E st)
  = printed st ++ ((λ e, PrintBlockers (name e) (blockers_of cands e)) <$> E).
Proof.
  revert st. induction E as [|e E IH]; intros st; cbn [fold_left].
  - simpl. by rewrite app_nil_r.
  - rewrite IH. unfold blockers_step. rewrite blockers_inner_spec.
    cbn [printed]. rewrite fmap_cons. by rewrite <- app_assoc.
Qed.

Lemma blockers_of_nil (cands : list sstable) (e : sstable) :
  blockers_of cands e = [] ↔ ¬ blocked_by cands e.
Proof.
  unfold blockers_of, blocked_by. rewrite Exists_exists.
  split.
  - intros Hnil (c & Hc & Ho). apply fmap_nil_inv in Hnil.
    assert (Hin : c ∈ filter (λ c, overlaps_in_timestamp e c = true) cands).
    { apply list_elem_of_filter. split; [|done].
      unfold overlaps_in_timestamp. by rewrite overlaps_sym. }
    rewrite Hnil in Hin. by apply elem_of_nil in Hin.
  - intros Hno. rewrite filter_none; [done|].
    intros c Hc Ho. apply Hno. exists c. split; [done|].
    unfold overlaps_in_timestamp in Ho. by rewrite overlaps_sym.
Qed.

(** What the resolver prints: one line per candidate, in the order of the
    non-expired list, then one line per expired sstable, in order, naming
    the candidates that overlap it in time; that list of names is empty
    ("None") exactly for the sstables returned as non-blocked. *)
Theorem find_blockers_report (E L : list sstable) :
  E ≠ [] →
  ∃ U st,
    get_unified_token_range E = Some U
    ∧ find_blockers_for_expired_sstables_out E L = Some st
    ∧ printed st
      = ((λ c, PrintOverlaps (name c)) <$> candidates U L)
        ++ ((λ e, PrintBlockers (name e) (blockers_of (candidates U L) e)) <$> E)
    ∧ (∀ e, e ∈ E →
            (blockers_of (candidates U L) e = [] ↔ e ∈ non_blocked_expired_ssts st)
            ∧ (blockers_of (candidates U L) e ≠ [] ↔ e ∈ blocked_expired_ssts st)).
Proof.
  intros HE.
  destruct (get_unified_token_range_spec E HE) as (U & HU & _).
  unfold find_blockers_for_expired_sstables_out. rewrite HU.
  unfold overlapping_candidates.
  rewrite overlapping_candidates_fold_lines, !app_nil_l.
  set (st0 := mk_blockers_state [] []
                ((λ c, PrintOverlaps (name c)) <$> candidates U L)).
  exists U, (fold_left (blockers_step (candidates U L)) E st0).
  destruct (blockers_fold_lists (candidates U L) E st0) as [Hb Hn].
  simpl in Hb, Hn.
  split_and!; [done|done| |].
  - by rewrite blockers_fold_printed.
  - intros e He.
    rewrite Hb, Hn, !list_elem_of_filter, blockers_of_nil.
    split; [tauto|]. split.
    + intros Hne. split; [|done].
      destruct (decide (blocked_by (candidates U L) e)); [done|]. tauto.
    + intros [Hby _]. tauto.
Qed.

Lemma find_blockers_report_witness :
  ∃ U st,
    get_unified_token_range sample_expired = Some U
    ∧ find_blockers_for_expired_sstables_out sample_expired [sample_live] = Some st
    ∧ printed st
      = ((λ c, PrintOverlaps (name c)) <$> candidates U [sample_live])
        ++ ((λ e, PrintBlockers (name e) (blockers_of (candidates U [sample_live]) e))
              <$> sample_expired)
    ∧ (∀ e, e ∈ sample_expired →
            (blockers_of (candidates U [sample_live]) e = []
             ↔ e ∈ non_blocked_expired_ssts st)
            ∧ (blockers_of (candidates U [sample_live]) e ≠ []
               ↔ e ∈ blocked_expired_ssts st)).
Proof.
  apply (find_blockers_report sample_expired [sample_live]). discriminate.
Defined.

(** The two lists the resolver returns depend on the non-expired list
    only through the sstables it contains: reordering it, or repeating
    one of its sstables, changes nothing. *)
Theorem find_blockers_ignores_order_of_live (E L L' : list sstable) :
  (∀ l, l ∈ L ↔ l ∈ L') →
  find_blockers_for_expired_sstables E L = find_blockers_for_expired_sstables E L'.
Proof.
  intros Hsame.
  destruct E as [|x rest]; [reflexivity|].
  destruct (get_unified_token_range_spec (x :: rest) ltac:(done)) as (U & HU & _).
  rewrite !(find_blockers_spec _ _ U HU).
  assert (Hb : ∀ e, blocked_by (candidates U L) e ↔ blocked_by (candidates U L') e).
  { intros e. split; apply blocked_by_subseteq, candidates_subseteq;
      intros l; apply Hsame. }
  f_equal. f_equal.
  - by apply list_filter_iff.
  - apply list_filter_iff. intros e. by rewrite Hb.
Qed.

Lemma find_blockers_ignores_order_of_live_witness :
  find_blockers_for_expired_sstables sample_expired [sample_live; sample_live_far]
  = find_blockers_for_expired_sstables sample_expired
      [sample_live_far; sample_live; sample_live_far].
Proof.
  apply (find_blockers_ignores_order_of_live sample_expired
           [sample_live; sample_live_far]
           [sample_live_far; sample_live; sample_live_far]).
  intros l. rewrite !elem_of_cons. tauto.
Defined.

Lemma token_envelope_contains (E : list sstable) (U : inclusive_range) (e : sstable) :
  token_envelope E U → e ∈ E →
  Range.first U ≤ first_token e ∧ last_token e ≤ Range.last U.
Proof. intros (Hlo & _ & Hhi & _) He. split; auto. Qed.

(** No false negative: an expired sstable with [first_token <= last_token]
    that overlaps some non-expired sstable both in tokens and in time is
    always returned as blocked. *)
Theorem find_blockers_blocks_every_overlap (E L : list sstable) (e c : sstable) :
  e ∈ E →
  c ∈ L →
  first_token e ≤ last_token e →
  Range.overlaps (token_range c) (token_range e) = true →
  Range.overlaps (timestamp_range c) (timestamp_range e) = true →
  ∃ blocked non_blocked,
    find_blockers_for_expired_sstables E L = Some (blocked, non_blocked)
    ∧ e ∈ blocked
    ∧ e ∉ non_blocked.
Proof.
  intros He Hc Hord Htok Hts.
  assert (HE : E ≠ []) by (intros ->; by apply elem_of_nil in He).
  destruct (get_unified_token_range_spec E HE) as (U & HU & Henv).
  destruct (token_envelope_contains E U e Henv He) as [Hlo Hhi].
  assert (Hby : blocked_by (candidates U L) e).
  { unfold blocked_by. apply Exists_exists. exists c. split; [|done].
    apply list_elem_of_filter. split; [|done].
    apply overlaps_true in Htok. apply overlaps_true. simpl in *. lia. }
  eexists _, _. split; [by apply find_blockers_spec|].
  rewrite !list_elem_of_filter. tauto.
Qed.

Lemma find_blockers_blocks_every_overlap_witness :
  ∃ blocked non_blocked,
    find_blockers_for_expired_sstables sample_expired [sample_live_far; sample_live]
    = Some (blocked, non_blocked)
    ∧ mk_sstable "la-2-big-TOC.txt" 1600000002000000 1600000003000000
        1700000000 200 300 ∈ blocked
    ∧ mk_sstable "la-2-big-TOC.txt" 1600000002000000 1600000003000000
        1700000000 200 300 ∉ non_blocked.
Proof.
  apply (find_blockers_blocks_every_overlap sample_expired
           [sample_live_far; sample_live] _ sample_live).
  - unfold sample_expired. rewrite !elem_of_cons. tauto.
  - rewrite !elem_of_cons. tauto.
  - simpl. lia.
  - reflexivity.
  - reflexivity.
Defined.

(** ** Reading a table directory *)

Lemma run_bind_ret {A B} (a : A) (k : A → run B) :
  run_bind (run_ret a) k = k a.
Proof. unfold run_bind, run_ret. by destruct (k a). Qed.

Lemma process_entry_skip fs table_path now sstables entry :
  ¬ identifies_sstable fs table_path entry →
  process_entry fs table_path now sstables entry = run_ret sstables.
Proof.
  unfold identifies_sstable, process_entry. intros Hno.
  destruct (isfile fs (path_join table_path entry)); simpl; [|done].
  destruct (py_endswith entry sstable_component_for_identification); simpl; [|done].
  tauto.
Qed.

(** How one round of the loop ends on an entry it decodes: the descriptor
    is appended and nothing is printed, or the round ends in a [sys.exit]
    of the decoder or of the validator. *)
Lemma process_entry_outcome fs table_path now sstables entry :
  identifies_sstable fs table_path entry →
  (∃ md, sstable_metadata_processor fs (path_join table_path entry) = ([], Ret md)
         ∧ sanity_check_sstable_metadata (sstable_of entry md) now = Ret tt
         ∧ process_entry fs table_path now sstables entry
           = ([], Ret (sstables ++ [sstable_of entry md])))
  ∨ (∃ o s, process_entry fs table_path now sstables entry = (o, SysExit s)
            ∧ (decode_failure (path_join table_path entry) o s
               ∨ ∃ sst reason, s = ExitBadMetadata sst reason)).
Proof.
  intros [Hfile Hend]. unfold process_entry. rewrite Hfile, Hend. simpl.
  destruct (sstable_metadata_processor_outcome fs (path_join table_path entry))
    as [[md Hmd]|(o & s & Hs & Hkind)].
  - rewrite Hmd. simpl.
    fold (sstable_of entry md).
    destruct (sanity_check_outcome (sstable_of entry md) now) as [Hok|[reason Hr]].
    + left. exists md. rewrite Hok. simpl. done.
    + right. rewrite Hr. simpl. eexists [], _. split; [done|]. right. eauto.
  - right. rewrite Hs. simpl. eexists o, s. split; [done|]. by left.
Qed.

(** Directory entries that are not regular files, or whose name does not
    end with [TOC.txt], have no influence on the run. *)
Theorem process_entries_ignores_other_entries
    fs table_path now (entries : list string) (sstables : list sstable) :
  process_entries fs table_path now entries sstables
  = process_entries fs table_path now
      (filter (identifies_sstable fs table_path) entries) sstables.
Proof.
  revert sstables. induction entries as [|entry entries IH]; intros sstables;
    [done|].
  rewrite filter_cons. case_decide as Hid.
  - cbn [process_entries].
    destruct (process_entry fs table_path now sstables entry) as [o [l|e|s]];
      simpl; [|done|done].
    by rewrite IH.
  - cbn [process_entries]. rewrite process_entry_skip by done.
    rewrite run_bind_ret. apply IH.
Qed.

Lemma process_entries_returns fs table_path now entries sstables o l :
  process_entries fs table_path now entries sstables = (o, Ret l) →
  o = []
  ∧ ∃ new, l = sstables ++ new
           ∧ name <$> new = filter (identifies_sstable fs table_path) entries
           ∧ Forall (λ sst,
                sanity_check_sstable_metadata sst now = Ret tt
                ∧ sstable_metadata_processor fs (path_join table_path (name sst))
                  = ([], Ret (metadata_of sst))) new.
Proof.
  revert sstables o. induction entries as [|entry entries IH]; intros sstables o.
  - simpl. intros [= <- <-]. split; [done|]. exists []. by rewrite app_nil_r.
  - cbn [process_entries]. rewrite filter_cons.
    destruct (decide (identifies_sstable fs table_path entry)) as [Hid|Hid].
    + destruct (process_entry_outcome fs table_path now sstables entry Hid)
        as [(md & Hmd & Hsane & ->)|(o' & s & -> & _)]; [|discriminate].
      simpl.
      destruct (process_entries fs table_path now entries
                  (sstables ++ [sstable_of entry md])) as [o2 r2] eqn:Hrest.
      intros [= <- ->].
      destruct (IH _ _ Hrest) as (-> & new & -> & Hnames & Hall).
      split; [done|]. exists (sstable_of entry md :: new).
      split_and!.
      * by rewrite <- app_assoc.
      * rewrite fmap_cons. by rewrite Hnames.
      * constructor; [|done]. split; [done|]. simpl.
        by destruct md.
    + rewrite process_entry_skip by done. rewrite run_bind_ret. apply IH.
Qed.

(** When [process_sstables] returns, it has printed the "Processing" line
    only; the list holds one descriptor per directory entry that is a
    regular file ending with [TOC.txt], in the order of the listing, named
    after the entry; each carries the metadata decoded from its file group
    and passes the sanity validator. *)
Theorem process_sstables_returns_validated fs table_path now o sstables :
  process_sstables fs table_path now = (o, Ret sstables) →
  o = [PrintProcessing table_path]
  ∧ ∃ entries,
      dirs fs !! table_path = Some entries
      ∧ name <$> sstables = filter (identifies_sstable fs table_path) entries
      ∧ Forall (λ sst,
           ¬ sanity_violation sst
           ∧ sstable_metadata_processor fs (path_join table_path (name sst))
             = ([], Ret (metadata_of sst))) sstables.
Proof.
  unfold process_sstables. simpl.
  destruct (dirs fs !! table_path) as [entries|]; [|discriminate].
  destruct (process_entries fs table_path now entries []) as [o' r] eqn:Hrun.
  intros [= <- ->].
  destruct (process_entries_returns _ _ _ _ _ _ _ Hrun)
    as (-> & new & -> & Hnames & Hall).
  split; [done|]. exists entries. split_and!; [done|done|].
  simpl. eapply Forall_impl; [exact Hall|].
  intros sst [Hsane Hmd]. split; [|done]. by apply sanity_check_passes in Hsane.
Qed.

Lemma process_sstables_returns_validated_witness :
  [PrintProcessing "/t"] = [PrintProcessing "/t"]
  ∧ ∃ entries,
      dirs sample_fs_ok !! "/t" = Some entries
      ∧ name <$> [mk_sstable "la-2-big-TOC.txt" 1600000000000000 1600000001000000
                    1700000000 (-7468325962851647638) 1446172840243228796;
                  mk_sstable "la-5-big-TOC.txt" 1600000002000000 1600000003000000
                    2147483647 1446172840243228796 1446172840243228796]
        = filter (identifies_sstable sample_fs_ok "/t") entries
      ∧ Forall (λ sst,
           ¬ sanity_violation sst
           ∧ sstable_metadata_processor sample_fs_ok (path_join "/t" (name sst))
             = ([], Ret (metadata_of sst)))
          [mk_sstable "la-2-big-TOC.txt" 1600000000000000 1600000001000000
             1700000000 (-7468325962851647638) 1446172840243228796;
           mk_sstable "la-5-big-TOC.txt" 1600000002000000 1600000003000000
             2147483647 1446172840243228796 1446172840243228796].
Proof.
  apply (process_sstables_returns_validated sample_fs_ok "/t" 1700000000).
  vm_compute. reflexivity.
Defined.

Lemma process_sstables_no_exception fs table_path now entries o r :
  dirs fs !! table_path = Some entries →
  process_sstables fs table_path now = (o, r) →
  (∀ e, r ≠ Raise e) ∧ (∀ entry_path e, r ≠ SysExit (ExitNoMetadata entry_path e)).
Proof.
  intros Hdir. unfold process_sstables. rewrite Hdir. simpl.
  destruct (process_entries fs table_path now entries []) as [o' r'] eqn:Hrun.
  intros [= <- <-]. clear Hdir. revert Hrun. generalize (@nil sstable) as acc.
  revert o'. induction entries as [|entry entries IH]; intros o' acc.
  - simpl. intros [= <- <-]. split; intros; discriminate.
  - cbn [process_entries].
    destruct (decide (identifies_sstable fs table_path entry)) as [Hid|Hid].
    + destruct (process_entry_outcome fs table_path now acc entry Hid)
        as [(md & _ & _ & ->)|(o1 & s & -> & Hkind)].
      * simpl.
        destruct (process_entries fs table_path now entries
                    (acc ++ [sstable_of entry md])) as [o2 r2] eqn:Hrest.
        intros [= <- <-]. by eapply IH.
      * simpl. intros [= <- <-]. split; [intros; discriminate|].
        intros entry_path e Heq. injection Heq as ->.
        destruct Hkind as [Hkind|(sst & reason & Hkind)]; [inversion Hkind|discriminate].
    + rewrite process_entry_skip by done. rewrite run_bind_ret. apply IH.
Qed.

(** With the table directory present, [process_sstables] never ends in an
    exception, and never in the exit of its own [except Exception]
    handler ("Unable to retrieve metadata from ..."): every failure has
    already become a [sys.exit] below it. *)
Theorem process_sstables_handler_unreachable fs table_path now entries o r :
  dirs fs !! table_path = Some entries →
  process_sstables fs table_path now = (o, r) →
  (∀ e, r ≠ Raise e) ∧ (∀ entry_path e, r ≠ SysExit (ExitNoMetadata entry_path e)).
Proof.
  apply process_sstables_no_exception.
Qed.

Lemma process_sstables_handler_unreachable_witness :
  (∀ e, (SysExit (ExitCode 1) : outcome (list sstable)) ≠ Raise e)
  ∧ (∀ entry_path e,
       (SysExit (ExitCode 1) : outcome (list sstable))
       ≠ SysExit (ExitNoMetadata entry_path e)).
Proof.
  apply (process_sstables_handler_unreachable sample_fs "/t" 1700000000
           ["la-1-big-TOC.txt"; "la-1-big-Summary.db"; "la-1-big-Statistics.db";
            "la-2-big-TOC.txt"; "la-2-big-Summary.db"; "la-2-big-Statistics.db"]
           [PrintProcessing "/t"; PrintExn (StructError 4 2)]).
  - vm_compute. reflexivity.
  - vm_compute. reflexivity.
Defined.

(** ** The token hash on unbounded integers *)






Lemma rotl64_bits (x r n : Z) :
  0 < r < 64 → 0 ≤ n < 64 →
  Z.testbit (murmur3_token.rotl64 x r) n = Z.testbit x ((n - r) mod 64).
Proof.
  intros Hr Hn. unfold murmur3_token.rotl64.
  replace (2 ^ r - 1) with (Z.ones r) by (rewrite Z.ones_equiv; lia).
  rewrite Z.lor_spec, Z.land_spec, Z.shiftl_spec, Z.shiftr_spec by lia.
  rewrite Z.testbit_ones_nonneg by lia.
  destruct (Z.ltb_spec n r).
  - rewrite (Z.testbit_neg_r x (n - r)) by lia. simpl. rewrite andb_true_r.
    f_equal. symmetry.
    replace (n - r) with (n + (64 - r) + (-1) * 64) by lia.
    rewrite Z.mod_add by lia. apply Z.mod_small. lia.
  - rewrite andb_false_r, orb_false_r. f_equal. symmetry.
    apply Z.mod_small. lia.
Qed.

(** [rotl64] rotates the low 64 bits, for every integer [x], negative or
    wider than 64 bits: bit [n] of the result is bit [(n - r) mod 64] of
    [x].  ("It leaves the high-order bits intact": only the bits below 64
    are those of a rotation.) *)
Theorem rotl64_rotates_low_bits (x r n : Z) :
  0 < r < 64 →
  0 ≤ n < 64 →
  Z.testbit (murmur3_token.rotl64 x r) n = Z.testbit x ((n - r) mod 64).
Proof. apply rotl64_bits. Qed.

Lemma rotl64_rotates_low_bits_witness :
  Z.testbit (murmur3_token.rotl64 (-5) 31) 3 = Z.testbit (-5) ((3 - 31) mod 64).
Proof. apply (rotl64_rotates_low_bits (-5) 31 3); lia. Defined.








Lemma get_token_is_truncated (data : list byte) :
  ∃ h, murmur3_token.get_token data = murmur3_token.truncate_int64 h.
Proof.
  unfold murmur3_token.get_token.
  destruct (murmur3_token.body_and_tail data) as [[body tail] total_len].
  destruct (murmur3_token.body_loop body 0 0) as [h1 h2].
  eexists. reflexivity.
Qed.

(** Every token is a signed 64-bit integer. *)
Theorem get_token_is_int64 (data : list byte) :
  - 2 ^ 63 ≤ murmur3_token.get_token data ≤ 2 ^ 63 - 1.
Proof.
  destruct (get_token_is_truncated data) as [h ->].
  rewrite truncate_int64_formula.
  pose proof (Z.mod_pos_bound (h + 2 ^ 63) (2 ^ 64) ltac:(lia)) as Hb.
  change (2 ^ 64) with (2 * 2 ^ 63) in *. lia.
Qed.

Lemma byte_unsigned_range (b : byte) : 0 ≤ murmur3_token.byte_unsigned b < 256.
Proof.
  unfold murmur3_token.byte_unsigned. pose proof (Byte.to_N_bounded b). lia.
Qed.

Lemma byte_unsigned_inj (a b : byte) :
  murmur3_token.byte_unsigned a = murmur3_token.byte_unsigned b → a = b.
Proof.
  unfold murmur3_token.byte_unsigned. intros H. apply N2Z.inj in H.
  pose proof (Byte.of_to_N a) as Ha. rewrite H, Byte.of_to_N in Ha. congruence.
Qed.

Lemma byte_signed_range (b : byte) : -128 ≤ murmur3_token.byte_signed b ≤ 127.
Proof.
  unfold murmur3_token.byte_signed. pose proof (byte_unsigned_range b).
  destruct (Z.ltb_spec (murmur3_token.byte_unsigned b) 128); lia.
Qed.

Lemma byte_signed_inj (a b : byte) :
  murmur3_token.byte_signed a = murmur3_token.byte_signed b → a = b.
Proof.
  unfold murmur3_token.byte_signed. intros H. apply byte_unsigned_inj.
  pose proof (byte_unsigned_range a). pose proof (byte_unsigned_range b).
  destruct (Z.ltb_spec (murmur3_token.byte_unsigned a) 128);
    destruct (Z.ltb_spec (murmur3_token.byte_unsigned b) 128); lia.
Qed.

Lemma le_unsigned_range (bs : list byte) :
  0 ≤ murmur3_token.le_unsigned bs < 256 ^ Z.of_nat (length bs).
Proof.
  induction bs as [|b bs IH]; [simpl; lia|].
  cbn [murmur3_token.le_unsigned length]. rewrite Nat2Z.inj_succ, Z.pow_succ_r by lia.
  pose proof (byte_unsigned_range b). lia.
Qed.

Lemma le_unsigned_inj (bs bs' : list byte) :
  length bs = length bs' →
  murmur3_token.le_unsigned bs = murmur3_token.le_unsigned bs' → bs = bs'.
Proof.
  revert bs'. induction bs as [|b bs IH]; intros [|b' bs']; try discriminate;
    [done|].
  cbn [murmur3_token.le_unsigned length]. intros [= Hlen] Heq.
  pose proof (byte_unsigned_range b). pose proof (byte_unsigned_range b').
  assert (murmur3_token.byte_unsigned b = murmur3_token.byte_unsigned b') by lia.
  f_equal; [by apply byte_unsigned_inj|]. apply IH; [done|lia].
Qed.

Lemma unpack_q_le_range (bs : list byte) :
  (length bs ≤ 8)%nat → - 2 ^ 63 ≤ murmur3_token.unpack_q_le bs < 2 ^ 63.
Proof.
  intros Hlen. unfold murmur3_token.unpack_q_le.
  pose proof (le_unsigned_range bs) as Hr.
  assert (256 ^ Z.of_nat (length bs) ≤ 256 ^ 8)
    by (apply Z.pow_le_mono_r; lia).
  change (256 ^ 8) with (2 ^ 64) in *. change (2 ^ 64) with (2 * 2 ^ 63) in *.
  destruct (Z.ltb_spec (murmur3_token.le_unsigned bs) (2 ^ 63)); lia.
Qed.

Lemma unpack_q_le_inj (bs bs' : list byte) :
  length bs = 8%nat → length bs' = 8%nat →
  murmur3_token.unpack_q_le bs = murmur3_token.unpack_q_le bs' → bs = bs'.
Proof.
  intros Hl Hl' Heq. apply le_unsigned_inj; [congruence|].
  unfold murmur3_token.unpack_q_le in Heq.
  pose proof (le_unsigned_range bs) as Hr.
  pose proof (le_unsigned_range bs') as Hr'.
  rewrite Hl in Hr. rewrite Hl' in Hr'.
  change (256 ^ Z.of_nat 8) with (2 * 2 ^ 63) in *.
  change (2 ^ 64) with (2 * 2 ^ 63) in *.
  destruct (Z.ltb_spec (murmur3_token.le_unsigned bs) (2 ^ 63));
    destruct (Z.ltb_spec (murmur3_token.le_unsigned bs') (2 ^ 63)); lia.
Qed.

Lemma unpack_from_q_le_length (n : nat) (data : list byte) :
  length (murmur3_token.unpack_from_q_le n data) = n.
Proof. revert data. induction n as [|n IH]; intros data; simpl; [done|]. by rewrite IH. Qed.

Lemma unpack_from_q_le_range (n : nat) (data : list byte) :
  Forall (λ w, - 2 ^ 63 ≤ w < 2 ^ 63) (murmur3_token.unpack_from_q_le n data).
Proof.
  revert data. induction n as [|n IH]; intros data; simpl; constructor; [|done].
  apply unpack_q_le_range. rewrite length_take. lia.
Qed.

Lemma unpack_from_q_le_inj (n : nat) (data data' : list byte) :
  (8 * n ≤ length data)%nat → (8 * n ≤ length data')%nat →
  murmur3_token.unpack_from_q_le n data = murmur3_token.unpack_from_q_le n data' →
  take (8 * n) data = take (8 * n) data'.
Proof.
  revert data data'. induction n as [|n IH]; intros data data' Hl Hl'.
  - by rewrite Nat.mul_0_r.
  - cbn [murmur3_token.unpack_from_q_le]. intros [= Hw Hrest].
    replace (8 * S n)%nat with (8 + 8 * n)%nat by lia.
    rewrite <- !take_take_drop. f_equal.
    + apply unpack_q_le_inj; [rewrite length_take; lia..|done].
    + apply IH; [rewrite length_drop; lia..|done].
Qed.

Lemma fmap_byte_signed_inj (l1 l2 : list byte) :
  murmur3_token.byte_signed <$> l1 = murmur3_token.byte_signed <$> l2 → l1 = l2.
Proof.
  revert l2. induction l1 as [|b l1 IH]; intros [|b' l2]; try discriminate.
  - done.
  - rewrite !fmap_cons. intros [= Hb Hrest].
    f_equal; [by apply byte_signed_inj|by apply IH].
Qed.

(** [body_and_tail] splits the key without losing a byte: the body holds
    two signed 64-bit words per block of 16 bytes, the tail the remaining
    [len % 16] bytes as signed chars, the third component is the length;
    and keys that split alike are equal. *)
Theorem body_and_tail_splits_key (data : list byte) :
  let '(body, tail, total_len) := murmur3_token.body_and_tail data in
  total_len = Z.of_nat (length data)
  ∧ length body = (2 * (length data / 16))%nat
  ∧ length tail = (length data mod 16)%nat
  ∧ Forall (λ w, - 2 ^ 63 ≤ w < 2 ^ 63) body
  ∧ Forall (λ b, -128 ≤ b ≤ 127) tail
  ∧ ∀ data', murmur3_token.body_and_tail data' = (body, tail, total_len) →
             data' = data.
Proof.
  unfold murmur3_token.body_and_tail. split_and!.
  - done.
  - apply unpack_from_q_le_length.
  - rewrite length_fmap, length_drop.
    pose proof (Nat.Div0.mod_le (length data) 16). lia.
  - apply unpack_from_q_le_range.
  - apply Forall_fmap, Forall_forall. intros b _. apply byte_signed_range.
  - intros data' [= Hbody Htail Hlen]. apply Nat2Z.inj in Hlen.
    rewrite Hlen in Hbody, Htail.
    pose proof (Nat.div_mod_eq (length data) 16) as Hdm.
    assert (Hdrop : drop (16 * (length data / 16)) data'
                    = drop (16 * (length data / 16)) data).
    { replace (16 * (length data / 16))%nat
        with (length data - length data mod 16)%nat by lia.
      by apply fmap_byte_signed_inj. }
    assert (Htake : take (16 * (length data / 16)) data'
                    = take (16 * (length data / 16)) data).
    { replace (16 * (length data / 16))%nat with (8 * (2 * (length data / 16)))%nat
        by lia.
      apply unpack_from_q_le_inj; [lia..|done]. }
    transitivity (take (16 * (length data / 16)) data'
                  ++ drop (16 * (length data / 16)) data').
    + symmetry. apply take_drop.
    + rewrite Htake, Hdrop. apply take_drop.
Qed.

(** ** The byte cursor *)

Lemma io_bind_inr {A B} (m : io A) (k : A → io B) (f f' : file) (a : A) :
  m f = inr (a, f') → io_bind m k f = k a f'.
Proof. unfold io_bind. by intros ->. Qed.

Lemma io_bind_inl {A B} (m : io A) (k : A → io B) (f : file) (e : exn) :
  m f = inl e → io_bind m k f = inl e.
Proof. unfold io_bind. by intros ->. Qed.

(** Reading a chunk that is there returns it and moves behind it. *)
Lemma read_chunk (data before chunk after : list byte) (n : Z) :
  data = before ++ chunk ++ after →
  n = Z.of_nat (length chunk) →
  read n (file_at data before) = inr (chunk, file_at data (before ++ chunk)).
Proof.
  intros -> ->. unfold read, file_at. cbn [content position].
  destruct (Z.ltb_spec (Z.of_nat (length chunk)) (-1)); [lia|].
  destruct (Z.eqb_spec (Z.of_nat (length chunk)) (-1)); [lia|].
  replace (Z.min (Z.of_nat (length before))
             (Z.of_nat (length (before ++ chunk ++ after))))
    with (Z.of_nat (length before)) by (rewrite !length_app; lia).
  rewrite Nat2Z.id, drop_app_length.
  replace (Z.min (Z.of_nat (length chunk)) (Z.of_nat (length (chunk ++ after))))
    with (Z.of_nat (length chunk)) by (rewrite !length_app; lia).
  rewrite Nat2Z.id, take_app_length.
  by rewrite (length_app before chunk), Nat2Z.inj_add.
Qed.

Lemma read_I_chunk (data before bs after : list byte) :
  data = before ++ bs ++ after →
  length bs = 4%nat →
  read_I (file_at data before) = inr (be_unsigned bs, file_at data (before ++ bs)).
Proof.
  intros Hdata Hlen. unfold read_I.
  rewrite (io_bind_inr _ _ _ _ _ (read_chunk data before bs after 4 Hdata ltac:(lia))).
  unfold unpack_I. rewrite Hlen. reflexivity.
Qed.

Lemma read_q_chunk (data before bs after : list byte) :
  data = before ++ bs ++ after →
  length bs = 8%nat →
  read_q (file_at data before) = inr (be_signed64 bs, file_at data (before ++ bs)).
Proof.
  intros Hdata Hlen. unfold read_q.
  rewrite (io_bind_inr _ _ _ _ _ (read_chunk data before bs after 8 Hdata ltac:(lia))).
  unfold unpack_q. rewrite Hlen. reflexivity.
Qed.


(** ** The Summary and Statistics layouts *)

(** [get_sstable_tokens] on a well-formed Summary: five header fields,
    the offsets ([offsetCount * 4] bytes), the samples
    ([offheapSize - offsetCount * 4] bytes), then the first and the last
    key, each behind its length; whatever follows is ignored.  The result
    is the pair of the tokens of the two keys, and nothing is printed. *)
Theorem get_sstable_tokens_decodes_summary (fs : filesystem) (filename : string)
    (h_interval h_count h_offheap h_level h_full offsets samples
       h_first first h_last last rest : list byte) :
  files fs !! filename
  = Some (h_interval ++ h_count ++ h_offheap ++ h_level ++ h_full ++ offsets
          ++ samples ++ h_first ++ first ++ h_last ++ last ++ rest) →
  length h_interval = 4%nat →
  length h_count = 4%nat →
  length h_offheap = 8%nat →
  length h_level = 4%nat →
  length h_full = 4%nat →
  Z.of_nat (length offsets) = be_unsigned h_count * 4 →
  Z.of_nat (length samples) = be_signed64 h_offheap - be_unsigned h_count * 4 →
  length h_first = 4%nat →
  be_unsigned h_first = Z.of_nat (length first) →
  length h_last = 4%nat →
  be_unsigned h_last = Z.of_nat (length last) →
  get_sstable_tokens fs filename
  = ([], Ret (murmur3_token.get_token first, murmur3_token.get_token last)).
Proof.
  intros Hfile L1 L2 L3 L4 L5 Loff Lsam L6 Lfirst L7 Llast.
  unfold get_sstable_tokens, with_open. rewrite Hfile.
  match goal with |- context [mk_file ?d 0] => remember d as data eqn:Hdata end.
  change (mk_file data 0) with (file_at data []).
  unfold read_summary_keys.
  rewrite (io_bind_inr _ _ _ _ _
             (read_I_chunk data [] h_interval _ Hdata L1)).
  rewrite (io_bind_inr _ _ _ _ _
             (read_I_chunk data ([] ++ h_interval) h_count
                (h_offheap ++ h_level ++ h_full ++ offsets ++ samples ++ h_first
                 ++ first ++ h_last ++ last ++ rest)
                ltac:(by rewrite Hdata, <- ?app_assoc) L2)).
  rewrite (io_bind_inr _ _ _ _ _
             (read_q_chunk data (([] ++ h_interval) ++ h_count) h_offheap
                (h_level ++ h_full ++ offsets ++ samples ++ h_first
                 ++ first ++ h_last ++ last ++ rest)
                ltac:(by rewrite Hdata, <- ?app_assoc) L3)).
  rewrite (io_bind_inr _ _ _ _ _
             (read_I_chunk data ((([] ++ h_interval) ++ h_count) ++ h_offheap) h_level
                (h_full ++ offsets ++ samples ++ h_first
                 ++ first ++ h_last ++ last ++ rest)
                ltac:(by rewrite Hdata, <- ?app_assoc) L4)).
  rewrite (io_bind_inr _ _ _ _ _
             (read_I_chunk data
                (((([] ++ h_interval) ++ h_count) ++ h_offheap) ++ h_level) h_full
                (offsets ++ samples ++ h_first ++ first ++ h_last ++ last ++ rest)
                ltac:(by rewrite Hdata, <- ?app_assoc) L5)).
  rewrite (io_bind_inr _ _ _ _ _
             (read_chunk data
                ((((([] ++ h_interval) ++ h_count) ++ h_offheap) ++ h_level) ++ h_full)
                offsets
                (samples ++ h_first ++ first ++ h_last ++ last ++ rest)
                (be_unsigned h_count * 4)
                ltac:(by rewrite Hdata, <- ?app_assoc) ltac:(lia))).
  rewrite (io_bind_inr _ _ _ _ _
             (read_chunk data
                (((((([] ++ h_interval) ++ h_count) ++ h_offheap) ++ h_level)
                  ++ h_full) ++ offsets)
                samples
                (h_first ++ first ++ h_last ++ last ++ rest)
                (be_signed64 h_offheap - be_unsigned h_count * 4)
                ltac:(by rewrite Hdata, <- ?app_assoc) ltac:(lia))).
  rewrite (io_bind_inr _ _ _ _ _
             (read_I_chunk data
                ((((((([] ++ h_interval) ++ h_count) ++ h_offheap) ++ h_level)
                   ++ h_full) ++ offsets) ++ samples)
                h_first
                (first ++ h_last ++ last ++ rest)
                ltac:(by rewrite Hdata, <- ?app_assoc) L6)).
  rewrite (io_bind_inr _ _ _ _ _
             (read_chunk data
                (((((((([] ++ h_interval) ++ h_count) ++ h_offheap) ++ h_level)
                    ++ h_full) ++ offsets) ++ samples) ++ h_first)
                first
                (h_last ++ last ++ rest)
                (be_unsigned h_first)
                ltac:(by rewrite Hdata, <- ?app_assoc) ltac:(lia))).
  unfold unpack_s at 1. rewrite Lfirst, Z.eqb_refl.
  unfold io_bind at 1, io_ret at 1.
  rewrite (io_bind_inr _ _ _ _ _
             (read_I_chunk data
                ((((((((([] ++ h_interval) ++ h_count) ++ h_offheap) ++ h_level)
                     ++ h_full) ++ offsets) ++ samples) ++ h_first) ++ first)
                h_last
                (last ++ rest)
                ltac:(by rewrite Hdata, <- ?app_assoc) L7)).
  rewrite (io_bind_inr _ _ _ _ _
             (read_chunk data
                (((((((((([] ++ h_interval) ++ h_count) ++ h_offheap) ++ h_level)
                      ++ h_full) ++ offsets) ++ samples) ++ h_first) ++ first)
                   ++ h_last)
                last rest
                (be_unsigned h_last)
                ltac:(by rewrite Hdata, <- ?app_assoc) ltac:(lia))).
  unfold unpack_s. rewrite Llast, Z.eqb_refl.
  reflexivity.
Qed.

Lemma get_sstable_tokens_decodes_summary_witness :
  get_sstable_tokens sample_fs_ok "/t/la-2-big-Summary.db"
  = ([], Ret (murmur3_token.get_token key_a, murmur3_token.get_token key_b)).
Proof.
  apply (get_sstable_tokens_decodes_summary sample_fs_ok "/t/la-2-big-Summary.db"
           (be_bytes 4 128) (be_bytes 4 1) (be_bytes 8 7) (be_bytes 4 128)
           (be_bytes 4 1) (be_bytes 4 0) (be_bytes 3 0)
           (be_bytes 4 3) key_a (be_bytes 4 8) key_b []);
    vm_compute; reflexivity.
Defined.

(** Directory entries of another type are stepped over. *)
Lemma stats_directory_loop_skip (others : list (list byte * list byte)) :
  Forall (λ entry, length (fst entry) = 4%nat ∧ length (snd entry) = 4%nat
                   ∧ be_unsigned (fst entry) ≠ 2) others →
  ∀ (data before after : list byte) (n : nat) (fmt : string) (self : stats_metadata),
    data = before ++ concat ((λ entry, fst entry ++ snd entry) <$> others) ++ after →
    stats_directory_loop (length others + n) fmt self (file_at data before)
    = stats_directory_loop n fmt self
        (file_at data (before ++ concat ((λ entry, fst entry ++ snd entry) <$> others))).
Proof.
  induction 1 as [|[t o] others (Ht & Ho & Hne) _ IH];
    intros data before after n fmt self Hdata.
  - simpl. by rewrite app_nil_r.
  - cbn [length Nat.add stats_directory_loop fst snd] in *.
    rewrite fmap_cons in *. cbn [concat fst snd] in *.
    rewrite (io_bind_inr _ _ _ _ _
               (read_I_chunk data before t
                  (o ++ concat ((λ entry, fst entry ++ snd entry) <$> others) ++ after)
                  ltac:(by rewrite Hdata, <- ?app_assoc) Ht)).
    rewrite (io_bind_inr _ _ _ _ _
               (read_I_chunk data (before ++ t) o
                  (concat ((λ entry, fst entry ++ snd entry) <$> others) ++ after)
                  ltac:(by rewrite Hdata, <- ?app_assoc) Ho)).
    destruct (Z.eqb_spec (be_unsigned t) 2) as [|_]; [done|].
    rewrite (IH data ((before ++ t) ++ o) after n fmt self
               ltac:(by rewrite Hdata, <- ?app_assoc)).
    by rewrite <- !app_assoc.
Qed.

(** A field present in the newer layout only. *)
Lemma read_if_mc (data before chunk after : list byte) (b : bool) (n : Z) :
  data = before ++ chunk ++ after →
  Z.of_nat (length chunk) = (if b then n else 0) →
  (if b then read n else io_ret []) (file_at data before)
  = inr (chunk, file_at data (before ++ chunk)).
Proof.
  intros Hdata Hlen. destruct b.
  - by apply (read_chunk data before chunk after).
  - destruct chunk; [|simpl in Hlen; lia]. by rewrite app_nil_r.
Qed.

Lemma read_twice_if_mc (data before chunk after : list byte) (b : bool) :
  data = before ++ chunk ++ after →
  Z.of_nat (length chunk) = (if b then 8 else 0) →
  ∃ bs, (if b then (io_bind (read 4) (λ _, read 4)) else io_ret [])
          (file_at data before)
        = inr (bs, file_at data (before ++ chunk)).
Proof.
  intros Hdata Hlen. destruct b.
  - exists (drop 4 chunk).
    rewrite (io_bind_inr _ _ _ _ _
               (read_chunk data before (take 4 chunk) (drop 4 chunk ++ after) 4
                  ltac:(by rewrite Hdata, (app_assoc (take 4 chunk)), take_drop)
                  ltac:(rewrite length_take; lia))).
    rewrite (read_chunk data (before ++ take 4 chunk) (drop 4 chunk) after 4
               ltac:(by rewrite Hdata, <- !app_assoc, (app_assoc (take 4 chunk)),
                       take_drop)
               ltac:(rewrite length_drop; lia)).
    by rewrite <- app_assoc, take_drop.
  - exists []. destruct chunk; [|simpl in Hlen; lia]. by rewrite app_nil_r.
Qed.



Ltac read_I_next Hdata bs rest Hlen :=
  match goal with
  | |- context [io_bind _ _ (file_at ?data ?pre)] =>
      let H := fresh in
      assert (H : data = pre ++ bs ++ rest) by (by rewrite Hdata, <- ?app_assoc);
      rewrite (io_bind_inr _ _ _ _ _ (read_I_chunk data pre bs rest H Hlen));
      clear H
  end.

Ltac read_q_next Hdata bs rest Hlen :=
  match goal with
  | |- context [io_bind _ _ (file_at ?data ?pre)] =>
      let H := fresh in
      assert (H : data = pre ++ bs ++ rest) by (by rewrite Hdata, <- ?app_assoc);
      rewrite (io_bind_inr _ _ _ _ _ (read_q_chunk data pre bs rest H Hlen));
      clear H
  end.

Ltac read_next Hdata bs rest n :=
  match goal with
  | |- context [io_bind _ _ (file_at ?data ?pre)] =>
      let H := fresh in
      let H' := fresh in
      assert (H : data = pre ++ bs ++ rest) by (by rewrite Hdata, <- ?app_assoc);
      assert (H' : n = Z.of_nat (length bs)) by lia;
      rewrite (io_bind_inr _ _ _ _ _ (read_chunk data pre bs rest n H H'));
      clear H H'
  end.



(** ** Decoding damaged components *)

Lemma io_bind_inr_inv {A B} (m : io A) (k : A → io B) (f : file) (r : B * file) :
  io_bind m k f = inr r → ∃ a f', m f = inr (a, f') ∧ k a f' = inr r.
Proof.
  unfold io_bind. destruct (m f) as [e|[a f']]; [discriminate|]. eauto.
Qed.

(** A successful read keeps the content and moves forward by what it
    returns. *)
Lemma read_inr (n : Z) (f f' : file) (bs : list byte) :
  read n f = inr (bs, f') →
  content f' = content f
  ∧ position f' = position f + Z.of_nat (length bs)
  ∧ (0 ≤ position f →
     Z.of_nat (length bs) ≤ Z.max 0 (Z.of_nat (length (content f)) - position f)).
Proof.
  unfold read. destruct (Z.ltb_spec n (-1)); [discriminate|].
  intros [= <- <-]. cbn [content position]. split_and!; [done|done|].
  intros Hpos.
  destruct (Z.eqb_spec n (-1)).
  - rewrite length_drop. lia.
  - rewrite length_take, !length_drop. lia.
Qed.

Lemma unpack_I_inr (bs : list byte) (f f' : file) (v : Z) :
  unpack_I bs f = inr (v, f') → length bs = 4%nat ∧ f' = f.
Proof.
  unfold unpack_I. destruct (Z.eqb_spec (Z.of_nat (length bs)) 4); [|discriminate].
  intros [= _ <-]. split; [lia|done].
Qed.

Lemma unpack_q_inr (bs : list byte) (f f' : file) (v : Z) :
  unpack_q bs f = inr (v, f') → length bs = 8%nat ∧ f' = f.
Proof.
  unfold unpack_q. destruct (Z.eqb_spec (Z.of_nat (length bs)) 8); [|discriminate].
  intros [= _ <-]. split; [lia|done].
Qed.

(** A 32-bit field is read only where four bytes are left. *)
Lemma read_I_inr (f f' : file) (v : Z) :
  read_I f = inr (v, f') →
  0 ≤ position f →
  content f' = content f
  ∧ position f' = position f + 4
  ∧ position f' ≤ Z.of_nat (length (content f)).
Proof.
  unfold read_I. intros H Hpos.
  apply io_bind_inr_inv in H as (bs & f1 & Hread & Hunpack).
  apply unpack_I_inr in Hunpack as [Hlen ->].
  apply read_inr in Hread as (Hc & Hp & Hb).
  specialize (Hb Hpos). rewrite Hlen in *. split_and!; [done|lia|lia].
Qed.

Lemma read_q_inr (f f' : file) (v : Z) :
  read_q f = inr (v, f') →
  0 ≤ position f →
  content f' = content f
  ∧ position f' = position f + 8
  ∧ position f' ≤ Z.of_nat (length (content f)).
Proof.
  unfold read_q. intros H Hpos.
  apply io_bind_inr_inv in H as (bs & f1 & Hread & Hunpack).
  apply unpack_q_inr in Hunpack as [Hlen ->].
  apply read_inr in Hread as (Hc & Hp & Hb).
  specialize (Hb Hpos). rewrite Hlen in *. split_and!; [done|lia|lia].
Qed.

Lemma read_inr_forward (n : Z) (f f' : file) (bs : list byte) :
  read n f = inr (bs, f') →
  content f' = content f ∧ position f ≤ position f'.
Proof.
  intros H. apply read_inr in H as (Hc & Hp & _). split; [done|lia].
Qed.

Lemma unpack_s_inr (size : Z) (bs : list byte) (f f' : file) (v : list byte) :
  unpack_s size bs f = inr (v, f') → f' = f.
Proof.
  unfold unpack_s. destruct (Z.of_nat (length bs) =? size); [|discriminate].
  by intros [= _ <-].
Qed.

(** The Summary decoder needs at least 32 bytes: the header of 24 and the
    two key lengths. *)
Lemma read_summary_keys_needs_32_bytes (data : list byte) (r : _) :
  read_summary_keys (mk_file data 0) = inr r → 32 ≤ Z.of_nat (length data).
Proof.
  unfold read_summary_keys. intros H.
  apply io_bind_inr_inv in H as (v1 & f1 & H1 & H).
  apply read_I_inr in H1 as (C1 & P1 & _); [|simpl; lia].
  cbn [content position] in C1, P1.
  apply io_bind_inr_inv in H as (v2 & f2 & H2 & H).
  apply read_I_inr in H2 as (C2 & P2 & _); [|lia].
  apply io_bind_inr_inv in H as (v3 & f3 & H3 & H).
  apply read_q_inr in H3 as (C3 & P3 & _); [|lia].
  apply io_bind_inr_inv in H as (v4 & f4 & H4 & H).
  apply read_I_inr in H4 as (C4 & P4 & _); [|lia].
  apply io_bind_inr_inv in H as (v5 & f5 & H5 & H).
  apply read_I_inr in H5 as (C5 & P5 & _); [|lia].
  apply io_bind_inr_inv in H as (v6 & f6 & H6 & H).
  apply read_inr_forward in H6 as (C6 & P6).
  apply io_bind_inr_inv in H as (v7 & f7 & H7 & H).
  apply read_inr_forward in H7 as (C7 & P7).
  apply io_bind_inr_inv in H as (v8 & f8 & H8 & H).
  apply read_I_inr in H8 as (C8 & P8 & _); [|lia].
  apply io_bind_inr_inv in H as (v9 & f9 & H9 & H).
  apply read_inr_forward in H9 as (C9 & P9).
  apply io_bind_inr_inv in H as (v10 & f10 & H10 & H).
  apply unpack_s_inr in H10 as ->.
  apply io_bind_inr_inv in H as (v11 & f11 & H11 & H).
  apply read_I_inr in H11 as (C11 & P11 & B11); [|lia].
  rewrite C9, C8, C7, C6, C5, C4, C3, C2, C1 in B11. lia.
Qed.

(** [get_sstable_tokens] on a Summary that is missing or shorter than 32
    bytes prints the exception and exits with status 1. *)
Theorem get_sstable_tokens_rejects_short_summary (fs : filesystem) (filename : string) :
  (∀ data, files fs !! filename = Some data → (length data < 32)%nat) →
  ∃ e, get_sstable_tokens fs filename = ([PrintExn e], SysExit (ExitCode 1)).
Proof.
  intros Hshort. unfold get_sstable_tokens, with_open.
  destruct (files fs !! filename) as [data|] eqn:Hfile.
  - specialize (Hshort data eq_refl).
    destruct (read_summary_keys (mk_file data 0)) as [e|[[first last] f']] eqn:Hread.
    + by exists e.
    + apply read_summary_keys_needs_32_bytes in Hread. lia.
  - by eexists.
Qed.

Lemma get_sstable_tokens_rejects_short_summary_witness :
  ∃ e, get_sstable_tokens sample_fs "/t/la-1-big-Summary.db"
       = ([PrintExn e], SysExit (ExitCode 1)).
Proof.
  apply (get_sstable_tokens_rejects_short_summary sample_fs "/t/la-1-big-Summary.db").
  intros data Hdata. vm_compute in Hdata. injection Hdata as <-. simpl. lia.
Defined.





(** A Statistics whose directory has no entry of type 2 (an empty
    directory included) makes [init_stats_metadata] exit with the message
    naming that file, whatever follows the directory; nothing is printed. *)
Theorem init_stats_metadata_without_stats_entry (fs : filesystem)
    (filename sstable_format : string)
    (others : list (list byte * list byte)) (h_count rest : list byte) :
  files fs !! filename
  = Some (h_count ++ concat ((λ entry, fst entry ++ snd entry) <$> others) ++ rest) →
  length h_count = 4%nat →
  be_unsigned h_count = Z.of_nat (length others) →
  Forall (λ entry, length (fst entry) = 4%nat ∧ length (snd entry) = 4%nat
                   ∧ be_unsigned (fst entry) ≠ 2) others →
  init_stats_metadata fs filename sstable_format
  = ([], SysExit (ExitNoStats filename)).
Proof.
  intros Hfile Lcount Hcount Hothers.
  unfold init_stats_metadata, with_open. rewrite Hfile.
  match goal with |- context [mk_file ?d 0] => remember d as data eqn:Hdata end.
  change (mk_file data 0) with (file_at data []).
  unfold read_stats_directory.
  read_I_next Hdata h_count
    (concat ((λ entry, fst entry ++ snd entry) <$> others) ++ rest) Lcount.
  replace (Z.to_nat (be_unsigned h_count)) with (length others + 0)%nat by lia.
  rewrite (stats_directory_loop_skip others Hothers data ([] ++ h_count) rest 0
             sstable_format (mk_stats false 0 0 0)
             ltac:(by rewrite Hdata, <- ?app_assoc)).
  reflexivity.
Qed.

Lemma init_stats_metadata_without_stats_entry_witness :
  init_stats_metadata sample_fs_no_stats "/t/la-3-big-Statistics.db" "la"
  = ([], SysExit (ExitNoStats "/t/la-3-big-Statistics.db")).
Proof.
  apply (init_stats_metadata_without_stats_entry sample_fs_no_stats
           "/t/la-3-big-Statistics.db" "la"
           [(be_bytes 4 1, be_bytes 4 12)] (be_bytes 4 1) []);
    try (vm_compute; reflexivity).
  repeat constructor; vm_compute; congruence.
Defined.

(** ** Directory entries behind the Stats entry *)

Lemma read_stats_component_complete (data before after : list byte)
    (sstable_format : string) (c : stats_fields) (f : file) :
  content f = data →
  data = before ++ stats_fields_bytes c ++ after →
  stats_fields_complete sstable_format c →
  read_stats_component (Z.of_nat (length before)) sstable_format f
  = inr (mk_stats true (be_signed64 (f_min c)) (be_signed64 (f_max c))
           (be_unsigned (f_del c)),
         file_at data (before ++ stats_fields_bytes c)).
Proof.
  destruct c as [n1 hist1 n2 hist2 segment position_ h_min h_max mc_min h_del
                   mc_ttl ratio h_bin n3 bins].
  unfold stats_fields_complete, stats_fields_bytes.
  cbn [f_n1 f_hist1 f_n2 f_hist2 f_segment f_position f_min f_max f_mc_min f_del
       f_mc_ttl f_ratio f_bin f_n3 f_bins].
  intros Hf Hdata
    (Ln1 & Lhist1 & Ln2 & Lhist2 & Lseg & Lpos & Lmin & Lmax & Lmcmin & Ldel
     & Lmcttl & Lratio & Lbin & Ln3 & Lbins).
  unfold read_stats_component.
  unfold io_bind at 1. unfold seek at 1. cbv beta iota. rewrite Hf.
  change (mk_file data (Z.of_nat (length before))) with (file_at data before).
  read_I_next Hdata n1
    (hist1 ++ n2 ++ hist2 ++ segment ++ position_ ++ h_min ++ h_max ++ mc_min
     ++ h_del ++ mc_ttl ++ ratio ++ h_bin ++ n3 ++ bins ++ after) Ln1.
  read_next Hdata hist1
    (n2 ++ hist2 ++ segment ++ position_ ++ h_min ++ h_max ++ mc_min
     ++ h_del ++ mc_ttl ++ ratio ++ h_bin ++ n3 ++ bins ++ after)
    (8 * 2 * be_unsigned n1).
  read_I_next Hdata n2
    (hist2 ++ segment ++ position_ ++ h_min ++ h_max ++ mc_min
     ++ h_del ++ mc_ttl ++ ratio ++ h_bin ++ n3 ++ bins ++ after) Ln2.
  read_next Hdata hist2
    (segment ++ position_ ++ h_min ++ h_max ++ mc_min
     ++ h_del ++ mc_ttl ++ ratio ++ h_bin ++ n3 ++ bins ++ after)
    (8 * 2 * be_unsigned n2).
  read_next Hdata segment
    (position_ ++ h_min ++ h_max ++ mc_min
     ++ h_del ++ mc_ttl ++ ratio ++ h_bin ++ n3 ++ bins ++ after) 8.
  read_next Hdata position_
    (h_min ++ h_max ++ mc_min
     ++ h_del ++ mc_ttl ++ ratio ++ h_bin ++ n3 ++ bins ++ after) 4.
  read_q_next Hdata h_min
    (h_max ++ mc_min ++ h_del ++ mc_ttl ++ ratio ++ h_bin ++ n3 ++ bins ++ after)
    Lmin.
  read_q_next Hdata h_max
    (mc_min ++ h_del ++ mc_ttl ++ ratio ++ h_bin ++ n3 ++ bins ++ after) Lmax.
  match goal with
  | |- context [file_at data ?pre] =>
      rewrite (io_bind_inr _ _ _ _ _
                 (read_if_mc data pre mc_min
                    (h_del ++ mc_ttl ++ ratio ++ h_bin ++ n3 ++ bins ++ after)
                    (String.eqb sstable_format "mc") 4
                    ltac:(by rewrite Hdata, <- ?app_assoc) Lmcmin))
  end.
  read_I_next Hdata h_del (mc_ttl ++ ratio ++ h_bin ++ n3 ++ bins ++ after) Ldel.
  match goal with
  | |- context [file_at data ?pre] =>
      destruct (read_twice_if_mc data pre mc_ttl
                  (ratio ++ h_bin ++ n3 ++ bins ++ after)
                  (String.eqb sstable_format "mc")
                  ltac:(by rewrite Hdata, <- ?app_assoc) Lmcttl) as [bs Hbs]
  end.
  rewrite (io_bind_inr _ _ _ _ _ Hbs).
  read_next Hdata ratio (h_bin ++ n3 ++ bins ++ after) 8.
  read_I_next Hdata h_bin (n3 ++ bins ++ after) Lbin.
  read_I_next Hdata n3 (bins ++ after) Ln3.
  read_next Hdata bins after ((8 + 8) * be_unsigned n3).
  unfold io_ret. by rewrite <- ?app_assoc.
Qed.

(** The directory loop up to the end of the Stats component, with [n]
    rounds still to go. *)
Lemma read_stats_directory_reaches_component (data : list byte)
    (sstable_format : string) (others : list (list byte * list byte))
    (h_count h_type h_offset gap after : list byte) (c : stats_fields) (n : nat) :
  let directory := concat ((λ entry, fst entry ++ snd entry) <$> others) in
  data = h_count ++ directory ++ h_type ++ h_offset ++ gap
         ++ stats_fields_bytes c ++ after →
  length h_count = 4%nat →
  be_unsigned h_count = Z.of_nat (length others) + 1 + Z.of_nat n →
  Forall (λ entry, length (fst entry) = 4%nat ∧ length (snd entry) = 4%nat
                   ∧ be_unsigned (fst entry) ≠ 2) others →
  length h_type = 4%nat →
  be_unsigned h_type = 2 →
  length h_offset = 4%nat →
  be_unsigned h_offset
  = Z.of_nat (length (h_count ++ directory ++ h_type ++ h_offset ++ gap)) →
  stats_fields_complete sstable_format c →
  read_stats_directory sstable_format (mk_file data 0)
  = stats_directory_loop n sstable_format
      (mk_stats true (be_signed64 (f_min c)) (be_signed64 (f_max c))
         (be_unsigned (f_del c)))
      (file_at data ((h_count ++ directory ++ h_type ++ h_offset ++ gap)
                     ++ stats_fields_bytes c)).
Proof.
  intros directory Hdata Lcount Hcount Hothers Ltype Htype Loffset Hoffset Hc.
  change (mk_file data 0) with (file_at data []).
  unfold read_stats_directory.
  read_I_next Hdata h_count
    (directory ++ h_type ++ h_offset ++ gap ++ stats_fields_bytes c ++ after) Lcount.
  replace (Z.to_nat (be_unsigned h_count)) with (length others + S n)%nat by lia.
  rewrite (stats_directory_loop_skip others Hothers data ([] ++ h_count)
             (h_type ++ h_offset ++ gap ++ stats_fields_bytes c ++ after) (S n)
             sstable_format (mk_stats false 0 0 0)
             ltac:(by rewrite Hdata, <- ?app_assoc)).
  fold directory. cbn [stats_directory_loop].
  read_I_next Hdata h_type
    (h_offset ++ gap ++ stats_fields_bytes c ++ after) Ltype.
  read_I_next Hdata h_offset (gap ++ stats_fields_bytes c ++ after) Loffset.
  rewrite Htype. change (2 =? 2) with true. cbv iota.
  rewrite Hoffset.
  match goal with
  | |- context [io_bind (read_stats_component _ _) _ ?f] =>
      rewrite (io_bind_inr _ _ _ _ _
                 (read_stats_component_complete data
                    (h_count ++ directory ++ h_type ++ h_offset ++ gap) after
                    sstable_format c f eq_refl
                    ltac:(by rewrite Hdata, <- ?app_assoc) Hc))
  end.
  reflexivity.
Qed.

(** When the directory counts one more entry behind the Stats entry, that
    entry is not taken from the directory: the loop goes on where the
    Stats component ended, and the eight bytes behind the tombstone bins
    serve as its type and offset.  With a type other than 2 there, the
    values of the Stats component are returned. *)
Theorem init_stats_metadata_entry_behind_stats (fs : filesystem)
    (filename sstable_format : string) (others : list (list byte * list byte))
    (h_count h_type h_offset gap t o rest : list byte) (c : stats_fields) :
  let directory := concat ((λ entry, fst entry ++ snd entry) <$> others) in
  files fs !! filename
  = Some (h_count ++ directory ++ h_type ++ h_offset ++ gap
          ++ stats_fields_bytes c ++ t ++ o ++ rest) →
  length h_count = 4%nat →
  be_unsigned h_count = Z.of_nat (length others) + 2 →
  Forall (λ entry, length (fst entry) = 4%nat ∧ length (snd entry) = 4%nat
                   ∧ be_unsigned (fst entry) ≠ 2) others →
  length h_type = 4%nat →
  be_unsigned h_type = 2 →
  length h_offset = 4%nat →
  be_unsigned h_offset
  = Z.of_nat (length (h_count ++ directory ++ h_type ++ h_offset ++ gap)) →
  stats_fields_complete sstable_format c →
  length t = 4%nat →
  length o = 4%nat →
  be_unsigned t ≠ 2 →
  init_stats_metadata fs filename sstable_format
  = ([], Ret (mk_stats true (be_signed64 (f_min c)) (be_signed64 (f_max c))
                (be_unsigned (f_del c)))).
Proof.
  intros directory Hfile Lcount Hcount Hothers Ltype Htype Loffset Hoffset Hc
    Lt Lo Hne.
  unfold init_stats_metadata, with_open. rewrite Hfile.
  match goal with |- context [mk_file ?d 0] => remember d as data eqn:Hdata end.
  rewrite (read_stats_directory_reaches_component data sstable_format others
             h_count h_type h_offset gap (t ++ o ++ rest) c 1 Hdata Lcount
             ltac:(lia) Hothers Ltype Htype Loffset Hoffset Hc).
  fold directory. cbn [stats_directory_loop].
  read_I_next Hdata t (o ++ rest) Lt.
  read_I_next Hdata o rest Lo.
  destruct (Z.eqb_spec (be_unsigned t) 2) as [|_]; [done|].
  reflexivity.
Qed.

(** With the same directory and fewer than eight bytes behind the Stats
    component, the run exits with status 1 although the Stats component
    was found and read. *)
Theorem init_stats_metadata_entry_behind_stats_missing (fs : filesystem)
    (filename sstable_format : string) (others : list (list byte * list byte))
    (h_count h_type h_offset gap tail : list byte) (c : stats_fields) :
  let directory := concat ((λ entry, fst entry ++ snd entry) <$> others) in
  files fs !! filename
  = Some (h_count ++ directory ++ h_type ++ h_offset ++ gap
          ++ stats_fields_bytes c ++ tail) →
  length h_count = 4%nat →
  be_unsigned h_count = Z.of_nat (length others) + 2 →
  Forall (λ entry, length (fst entry) = 4%nat ∧ length (snd entry) = 4%nat
                   ∧ be_unsigned (fst entry) ≠ 2) others →
  length h_type = 4%nat →
  be_unsigned h_type = 2 →
  length h_offset = 4%nat →
  be_unsigned h_offset
  = Z.of_nat (length (h_count ++ directory ++ h_type ++ h_offset ++ gap)) →
  stats_fields_complete sstable_format c →
  (length tail < 8)%nat →
  ∃ e, init_stats_metadata fs filename sstable_format
       = ([PrintExn e], SysExit (ExitCode 1)).
Proof.
  intros directory Hfile Lcount Hcount Hothers Ltype Htype Loffset Hoffset Hc
    Ltail.
  unfold init_stats_metadata, with_open. rewrite Hfile.
  match goal with |- context [mk_file ?d 0] => remember d as data eqn:Hdata end.
  rewrite (read_stats_directory_reaches_component data sstable_format others
             h_count h_type h_offset gap tail c 1 Hdata Lcount
             ltac:(lia) Hothers Ltype Htype Loffset Hoffset Hc).
  fold directory. cbn [stats_directory_loop].
  set (f0 := file_at data ((h_count ++ directory ++ h_type ++ h_offset ++ gap)
                           ++ stats_fields_bytes c)).
  assert (Hlen : Z.of_nat (length data) < position f0 + 8).
  { unfold f0, file_at. cbn [position]. rewrite Hdata, <- !app_assoc.
    rewrite !length_app. lia. }
  assert (Hpos : 0 ≤ position f0) by (unfold f0, file_at; cbn [position]; lia).
  assert (Hcontent : content f0 = data) by done.
  destruct (read_I f0) as [e|[type f1]] eqn:R1.
  - exists e. by rewrite (io_bind_inl _ _ _ _ R1).
  - rewrite (io_bind_inr _ _ _ _ _ R1).
    apply read_I_inr in R1 as (C1 & P1 & B1); [|done].
    destruct (read_I f1) as [e|[offset f2]] eqn:R2.
    + exists e. by rewrite (io_bind_inl _ _ _ _ R2).
    + apply read_I_inr in R2 as (C2 & P2 & B2); [|lia].
      rewrite C1, Hcontent in B2. lia.
Qed.

Lemma sample_stats_fields_complete : stats_fields_complete "mc" sample_stats_fields.
Proof. unfold stats_fields_complete. vm_compute. repeat split. Qed.

Lemma init_stats_metadata_entry_behind_stats_witness :
  init_stats_metadata
    (mk_filesystem
       (<["M" := sample_statistics_four (be_bytes 4 0 ++ be_bytes 4 0 ++ be_bytes 3 7)]> ∅)
       ∅) "M" "mc"
  = ([], Ret (mk_stats true (be_signed64 (f_min sample_stats_fields))
                (be_signed64 (f_max sample_stats_fields))
                (be_unsigned (f_del sample_stats_fields)))).
Proof.
  apply (init_stats_metadata_entry_behind_stats _ "M" "mc"
           [(be_bytes 4 0, be_bytes 4 36); (be_bytes 4 1, be_bytes 4 36)]
           (be_bytes 4 4) (be_bytes 4 2) (be_bytes 4 36)
           (be_bytes 4 3 ++ be_bytes 4 200)
           (be_bytes 4 0) (be_bytes 4 0) (be_bytes 3 7) sample_stats_fields);
    try exact sample_stats_fields_complete;
    try (vm_compute; reflexivity).
  - repeat constructor; vm_compute; congruence.
  - vm_compute. congruence.
Defined.

Lemma init_stats_metadata_entry_behind_stats_missing_witness :
  ∃ e, init_stats_metadata
         (mk_filesystem (<["M" := sample_statistics_four (be_bytes 5 0)]> ∅) ∅)
         "M" "mc"
       = ([PrintExn e], SysExit (ExitCode 1)).
Proof.
  apply (init_stats_metadata_entry_behind_stats_missing _ "M" "mc"
           [(be_bytes 4 0, be_bytes 4 36); (be_bytes 4 1, be_bytes 4 36)]
           (be_bytes 4 4) (be_bytes 4 2) (be_bytes 4 36)
           (be_bytes 4 3 ++ be_bytes 4 200)
           (be_bytes 5 0) sample_stats_fields);
    try exact sample_stats_fields_complete;
    try (vm_compute; reflexivity).
  - repeat constructor; vm_compute; congruence.
  - vm_compute. lia.
Defined.

(** ** Rounding microseconds to seconds *)

Lemma round_half_even_cases (n d : Z) :
  0 < d →
  ∃ q r, n = d * q + r ∧ 0 ≤ r < d
         ∧ ((2 * r < d ∧ round_half_even n d = q)
            ∨ (d < 2 * r ∧ round_half_even n d = q + 1)
            ∨ (2 * r = d ∧ (∃ k, q = 2 * k) ∧ round_half_even n d = q)
            ∨ (2 * r = d ∧ (∃ k, q = 2 * k + 1) ∧ round_half_even n d = q + 1)).
Proof.
  intros Hd. exists (n / d), (n mod d).
  pose proof (Z.div_mod n d ltac:(lia)) as Hdm.
  pose proof (Z.mod_pos_bound n d Hd) as Hb.
  split; [done|]. split; [done|].
  unfold round_half_even.
  destruct (Z.ltb_spec (2 * (n mod d)) d); [by left|].
  destruct (Z.ltb_spec d (2 * (n mod d))); [by right; left|].
  destruct (even_or_odd (n / d)) as [[-> Hk]|[-> Hk]].
  - right; right; left. split; [lia|done].
  - right; right; right. split; [lia|done].
Qed.

Lemma round_half_even_unique (n d q r : Z) :
  0 < d → n = d * q + r → 0 ≤ r < d →
  round_half_even n d
  = if 2 * r <? d then q
    else if d <? 2 * r then q + 1
    else if Z.even q then q else q + 1.
Proof.
  intros Hd Hn Hr. unfold round_half_even.
  assert (n / d = q) as -> by (symmetry; apply (Z.div_unique n d q r); [lia|done]).
  assert (n mod d = r) as -> by (symmetry; apply (Z.mod_unique n d q r); [lia|done]).
  done.
Qed.

(** Rounding first to a multiple of [1 / p], for an even [p] above half a
    million, does not change the nearest integer of a quotient by a
    million. *)
Lemma double_rounding_fine (ts p : Z) :
  500000 < p → (∃ h, p = 2 * h) →
  round_half_even (round_half_even (ts * p) 1000000) p
  = round_half_even ts 1000000.
Proof.
  intros Hp [h Hh].
  pose proof (Z.div_mod ts 1000000 ltac:(lia)) as Hts.
  pose proof (Z.mod_pos_bound ts 1000000 ltac:(lia)) as Hr.
  set (q := ts / 1000000) in *. set (r := ts mod 1000000) in *.
  pose proof (Z.div_mod (r * p) 1000000 ltac:(lia)) as Hrp.
  pose proof (Z.mod_pos_bound (r * p) 1000000 ltac:(lia)) as Hb.
  set (a := r * p / 1000000) in *. set (b := (r * p) mod 1000000) in *.
  assert (Hinner : ts * p = 1000000 * (q * p + a) + b) by lia.
  rewrite (round_half_even_unique ts 1000000 q r ltac:(lia) Hts Hr).
  rewrite (round_half_even_unique (ts * p) 1000000 (q * p + a) b ltac:(lia) Hinner Hb).
  assert (Hrp0 : 0 ≤ r * p) by nia.
  assert (Hrp1 : r * p < 1000000 * p) by nia.
  assert (Ha : 0 ≤ a < p) by lia.
  destruct (Z.ltb_spec (2 * r) 1000000) as [Hlow|Hnlow].
  - (* below the half: the inner rounding stays below p / 2 *)
    assert (r * p ≤ 499999 * p) by nia.
    set (m := if 2 * b <? 1000000 then q * p + a
              else if 1000000 <? 2 * b then q * p + a + 1
              else if Z.even (q * p + a) then q * p + a else q * p + a + 1).
    assert (Hm : ∃ d, m = p * q + d ∧ 0 ≤ d ∧ 2 * d < p).
    { subst m. destruct (Z.ltb_spec (2 * b) 1000000).
      - exists a. lia.
      - destruct (Z.ltb_spec 1000000 (2 * b)).
        + exists (a + 1). lia.
        + destruct (Z.even (q * p + a)); [exists a|exists (a + 1)]; lia. }
    destruct Hm as (d & Hm & Hd0 & Hd1).
    rewrite (round_half_even_unique m p q d ltac:(lia) Hm ltac:(lia)).
    destruct (Z.ltb_spec (2 * d) p); [done|lia].
  - destruct (Z.ltb_spec 1000000 (2 * r)) as [Hhigh|Hnhigh].
    + (* above the half *)
      assert (500001 * p ≤ r * p) by nia.
      set (m := if 2 * b <? 1000000 then q * p + a
                else if 1000000 <? 2 * b then q * p + a + 1
                else if Z.even (q * p + a) then q * p + a else q * p + a + 1).
      assert (Hm : ∃ d, m = p * q + d ∧ p < 2 * d ∧ d ≤ p).
      { subst m. destruct (Z.ltb_spec (2 * b) 1000000).
        - exists a. lia.
        - destruct (Z.ltb_spec 1000000 (2 * b)).
          + exists (a + 1). lia.
          + destruct (Z.even (q * p + a)); [exists a|exists (a + 1)]; lia. }
      destruct Hm as (d & Hm & Hd0 & Hd1).
      destruct (Z.eq_dec d p) as [->|Hne].
      * rewrite (round_half_even_unique m p (q + 1) 0 ltac:(lia) ltac:(lia) ltac:(lia)).
        destruct (Z.ltb_spec (2 * 0) p); [done|lia].
      * rewrite (round_half_even_unique m p q d ltac:(lia) Hm ltac:(lia)).
        destruct (Z.ltb_spec (2 * d) p); [lia|].
        destruct (Z.ltb_spec p (2 * d)); [done|lia].
    + (* the tie *)
      assert (Hr5 : r = 500000) by lia.
      assert (Hrp5 : r * p = 1000000 * h) by (rewrite Hr5, Hh; lia).
      assert (a = h ∧ b = 0) as [-> ->] by lia.
      change (2 * 0 <? 1000000) with true. cbv iota.
      rewrite (round_half_even_unique (q * p + h) p q h ltac:(lia) ltac:(lia)
                 ltac:(lia)).
      destruct (Z.ltb_spec (2 * h) p); [lia|].
      destruct (Z.ltb_spec p (2 * h)); [lia|done].
Qed.

Lemma log2_quotient_below_34 (a : Z) :
  0 < a < 17179869184000000 → log2_quotient a 1000000 ≤ 33.
Proof.
  intros Ha. unfold log2_quotient. change (Z.log2 1000000) with 19.
  pose proof (Z.log2_spec a ltac:(lia)) as [Hlo _].
  pose proof (Z.log2_nonneg a) as Hnn.
  destruct (Z.le_gt_cases (Z.log2 a) 53) as [Hsmall|Hbig].
  - destruct (Z.leb_spec 0 (Z.log2 a - 19)).
    + destruct (Z.leb_spec (1000000 * 2 ^ (Z.log2 a - 19)) a) as [Hreach|]; [|lia].
      destruct (Z.le_gt_cases (Z.log2 a - 19) 33); [done|].
      assert (2 ^ 34 ≤ 2 ^ (Z.log2 a - 19)) by (apply Z.pow_le_mono_r; lia).
      change (2 ^ 34) with 17179869184 in *. lia.
    + destruct (1000000 <=? a * 2 ^ (- (Z.log2 a - 19))); lia.
  - assert (2 ^ 54 ≤ 2 ^ Z.log2 a) by (apply Z.pow_le_mono_r; lia).
    change (2 ^ 54) with 18014398509481984 in *. lia.
Qed.

(** [timestamp_in_seconds] is exact far beyond the validator's window: for
    every timestamp of magnitude below [2^34] seconds (the year 2514) the
    float division and [round] give the integer nearest to the exact
    quotient, ties to the even one, which is at most half a second away. *)
Theorem timestamp_in_seconds_is_nearest_second (ts : Z) :
  Z.abs ts < 17179869184000000 →
  timestamp_in_seconds ts = round_half_even ts 1000000
  ∧ 2 * Z.abs (1000000 * timestamp_in_seconds ts - ts) ≤ 1000000.
Proof.
  intros Hts.
  assert (Hexact : timestamp_in_seconds ts = round_half_even ts 1000000).
  { unfold timestamp_in_seconds, py_truediv.
    destruct (Z.eqb_spec ts 0) as [->|Hne]; [reflexivity|].
    pose proof (log2_quotient_below_34 (Z.abs ts) ltac:(lia)) as Hlq.
    set (lq := log2_quotient (Z.abs ts) 1000000) in *.
    destruct (Z.ltb_spec (lq - 52) 0); [|lia].
    unfold py_round. cbn [mantissa exponent].
    destruct (Z.leb_spec 0 (lq - 52)); [lia|].
    apply double_rounding_fine.
    - assert (2 ^ 19 ≤ 2 ^ (- (lq - 52))) by (apply Z.pow_le_mono_r; lia).
      change (2 ^ 19) with 524288 in *. lia.
    - exists (2 ^ (- (lq - 52) - 1)). rewrite <- Z.pow_succ_r by lia.
      f_equal. lia. }
  split; [done|]. rewrite Hexact.
  destruct (round_half_even_cases ts 1000000 ltac:(lia))
    as (q & r & Hqr & Hr & [[? ->]|[[? ->]|[(? & _ & ->)|(? & _ & ->)]]]); lia.
Qed.

Lemma timestamp_in_seconds_is_nearest_second_witness :
  timestamp_in_seconds (-1234567) = round_half_even (-1234567) 1000000
  ∧ 2 * Z.abs (1000000 * timestamp_in_seconds (-1234567) - -1234567) ≤ 1000000.
Proof.
  apply (timestamp_in_seconds_is_nearest_second (-1234567)). reflexivity.
Defined.

(** ** Space accounting and the move to the backup directory *)

Lemma exit_if_failed_mandatory {E} (c : string) (e : E) :
  mandatory c → exit_if_failed_on_a_non_optional_component c e = Some e.
Proof.
  unfold mandatory, exit_if_failed_on_a_non_optional_component. intros H.
  rewrite !not_elem_of_cons in H. destruct H as (H1 & H2 & H3 & _).
  apply String.eqb_neq in H1, H2, H3. rewrite H1, H2, H3. reflexivity.
Qed.

Lemma exit_if_failed_inv {E} (c : string) (e e' : E) :
  exit_if_failed_on_a_non_optional_component c e = Some e' → mandatory c ∧ e' = e.
Proof.
  unfold mandatory, exit_if_failed_on_a_non_optional_component. intros H.
  destruct (String.eqb c "CompressionInfo.db") eqn:H1; [discriminate|].
  destruct (String.eqb c "CRC.db") eqn:H2; [discriminate|].
  destruct (String.eqb c "Digest.crc32") eqn:H3; [discriminate|].
  simpl in H. apply String.eqb_neq in H1, H2, H3. split; [|congruence].
  rewrite !not_elem_of_cons. split_and!; try assumption. apply not_elem_of_nil.
Qed.

Lemma exit_if_failed_optional {E} (c : string) (e : E) :
  exit_if_failed_on_a_non_optional_component c e = None → ¬ mandatory c.
Proof.
  intros H Hm. rewrite (exit_if_failed_mandatory _ _ Hm) in H. discriminate.
Qed.

Lemma sum_Z_cons (x : Z) (l : list Z) : sum_Z (x :: l) = x + sum_Z l.
Proof. reflexivity. Qed.

Section operating_system_properties.

Context {world : Type}.
Variable st_size : world → string → option Z.
Variable os_link : world → string → string → option world.
Variable os_remove : world → string → option world.

Lemma add_component_sizes_spec (w : world) (tp n : string) (cs : list string) (total : Z) :
  match add_component_sizes st_size w tp n cs total with
  | inr total' =>
      (∀ c, c ∈ cs → mandatory c → is_Some (st_size w (component_path tp n c)))
      ∧ total' = total + sum_Z ((λ c, default 0 (st_size w (component_path tp n c))) <$> cs)
  | inl e =>
      ∃ c, c ∈ cs ∧ mandatory c ∧ st_size w (component_path tp n c) = None
           ∧ e = UnableToReadSize (component_file n c)
  end.
Proof.
  revert total. induction cs as [|c cs IH]; intros total; cbn [add_component_sizes].
  - split; [intros c Hc; inversion Hc | simpl; lia].
  - fold (component_path tp n c).
    destruct (st_size w (component_path tp n c)) as [size|] eqn:Hsize.
    + specialize (IH (total + size)).
      destruct (add_component_sizes st_size w tp n cs (total + size)) as [e|total'].
      * destruct IH as (c' & Hc' & IH). exists c'. split; [by apply list_elem_of_further | exact IH].
      * destruct IH as [IH1 IH2]. split.
        -- intros c' Hc' Hm. apply elem_of_cons in Hc' as [->|Hc'].
           ++ rewrite Hsize. eauto.
           ++ auto.
        -- rewrite fmap_cons, sum_Z_cons, Hsize. change (default 0 (Some size)) with size. lia.
    + destruct (exit_if_failed_on_a_non_optional_component c
                  (UnableToReadSize (component_file n c))) as [e|] eqn:Hexit.
      * apply exit_if_failed_inv in Hexit as [Hm ->].
        exists c. split_and!; try done. apply list_elem_of_here.
      * apply exit_if_failed_optional in Hexit. specialize (IH total).
        destruct (add_component_sizes st_size w tp n cs total) as [e|total'].
        -- destruct IH as (c' & Hc' & IH). exists c'. split; [by apply list_elem_of_further | exact IH].
        -- destruct IH as [IH1 IH2]. split.
           ++ intros c' Hc' Hm. apply elem_of_cons in Hc' as [->|Hc']; [contradiction | auto].
           ++ rewrite fmap_cons, sum_Z_cons, Hsize. change (default 0 (@None Z)) with 0. lia.
Qed.

Lemma total_space_in_bytes_spec (w : world) (tp : string) (ssts : list sstable) (total : Z) :
  match total_space_in_bytes st_size w tp ssts total with
  | inr total' =>
      (∀ sst c, sst ∈ ssts → c ∈ sstable_components → mandatory c →
         is_Some (st_size w (component_path tp (name sst) c)))
      ∧ total' = total + sum_Z (present_size st_size w tp <$> ssts)
  | inl e =>
      ∃ sst c, sst ∈ ssts ∧ c ∈ sstable_components ∧ mandatory c
           ∧ st_size w (component_path tp (name sst) c) = None
           ∧ e = UnableToReadSize (component_file (name sst) c)
  end.
Proof.
  revert total. induction ssts as [|sst ssts IH]; intros total; cbn [total_space_in_bytes].
  - split; [intros sst c Hc; inversion Hc | simpl; lia].
  - pose proof (add_component_sizes_spec w tp (name sst) sstable_components total) as Hone.
    destruct (add_component_sizes st_size w tp (name sst) sstable_components total) as [e|total1].
    + destruct Hone as (c & Hc & Hone). exists sst, c. split; [apply list_elem_of_here | by split].
    + destruct Hone as [Hone1 Hone2]. specialize (IH total1).
      destruct (total_space_in_bytes st_size w tp ssts total1) as [e|total'].
      * destruct IH as (sst' & c & Hsst' & IH). exists sst', c.
        split; [by apply list_elem_of_further | exact IH].
      * destruct IH as [IH1 IH2]. split.
        -- intros sst' c Hsst' Hc Hm. apply elem_of_cons in Hsst' as [->|Hsst']; eauto.
        -- rewrite fmap_cons, sum_Z_cons. unfold present_size at 1. lia.
Qed.

(** The sizes of the components of the given sstables are added up and
    divided by 2^20: the result is the float nearest to the quotient, taken
    over the components that [os.stat] finds.  A mandatory component that
    cannot be read ends the program with a message that names its file; an
    optional one (CompressionInfo.db, CRC.db, Digest.crc32) counts as zero.
    So a returned value means every mandatory component of every sstable
    was found. *)
Theorem total_space_counts_present_components (w : world) (table_path : string)
    (sstables : list sstable) :
  match total_space_for_sstables_in_mb st_size w table_path sstables with
  | inr mb =>
      (∀ sst c, sst ∈ sstables → c ∈ sstable_components → mandatory c →
         is_Some (st_size w (component_path table_path (name sst) c)))
      ∧ mb = py_truediv (sum_Z (present_size st_size w table_path <$> sstables))
               (1024 * 1024)
  | inl e =>
      ∃ sst c, sst ∈ sstables ∧ c ∈ sstable_components ∧ mandatory c
           ∧ st_size w (component_path table_path (name sst) c) = None
           ∧ e = UnableToReadSize (component_file (name sst) c)
  end.
Proof.
  unfold total_space_for_sstables_in_mb.
  pose proof (total_space_in_bytes_spec w table_path sstables 0) as H.
  destruct (total_space_in_bytes st_size w table_path sstables 0) as [e|total].
  - exact H.
  - destruct H as [H1 H2]. split; [exact H1|]. rewrite H2. f_equal.
Qed.

Lemma link_components_spec (w : world) (tp dst n : string) (cs : list string)
    (done : list fs_op) (w' : world) (done' : list fs_op) (ex : option component_exit) :
  link_components os_link w tp dst n cs done = (w', done', ex) →
  ∃ links, done' = done ++ links
    ∧ (∀ op, op ∈ links →
         ∃ c, c ∈ cs ∧ op = Link (component_path tp n c) (component_path dst n c))
    ∧ (ex = None → ∀ c, c ∈ cs → mandatory c →
         Link (component_path tp n c) (component_path dst n c) ∈ links)
    ∧ (∀ e, ex = Some e →
         ∃ c, c ∈ cs ∧ mandatory c ∧ e = UnableToLink (component_file n c)).
Proof.
  revert w done. induction cs as [|c cs IH]; intros w done; cbn [link_components].
  - intros [= <- <- <-]. exists []. rewrite app_nil_r. split_and!; try done.
    + intros op Hop. inversion Hop.
    + intros _ c Hc. inversion Hc.
  - fold (component_path tp n c). fold (component_path dst n c).
    destruct (os_link w (component_path tp n c) (component_path dst n c)) as [w1|].
    + intros H. apply IH in H as (links & -> & Hops & Hall & Hex).
      exists (Link (component_path tp n c) (component_path dst n c) :: links).
      rewrite <- app_assoc. split_and!; try done.
      * intros op [->|Hop]%elem_of_cons.
        -- exists c. split; [apply list_elem_of_here | done].
        -- destruct (Hops op Hop) as (c' & Hc' & ->). exists c'.
           split; [by apply list_elem_of_further | done].
      * intros Hnone c' [->|Hc']%elem_of_cons Hm.
        -- apply list_elem_of_here.
        -- apply list_elem_of_further. by apply Hall.
      * intros e He. destruct (Hex e He) as (c' & Hc' & Hrest). exists c'.
        split; [by apply list_elem_of_further | done].
    + destruct (exit_if_failed_on_a_non_optional_component c
                  (UnableToLink (component_file n c))) as [e|] eqn:Hexit.
      * apply exit_if_failed_inv in Hexit as [Hm ->].
        intros [= <- <- <-]. exists []. rewrite app_nil_r. split_and!; try done.
        -- intros op Hop. inversion Hop.
        -- intros e [= <-]. exists c. split_and!; try done. apply list_elem_of_here.
      * apply exit_if_failed_optional in Hexit.
        intros H. apply IH in H as (links & -> & Hops & Hall & Hex).
        exists links. split_and!; try done.
        -- intros op Hop. destruct (Hops op Hop) as (c' & Hc' & ->). exists c'.
           split; [by apply list_elem_of_further | done].
        -- intros Hnone c' [->|Hc']%elem_of_cons Hm; [contradiction | by apply Hall].
        -- intros e He. destruct (Hex e He) as (c' & Hc' & Hrest). exists c'.
           split; [by apply list_elem_of_further | done].
Qed.

Lemma remove_components_spec (w : world) (tp n : string) (cs : list string)
    (done : list fs_op) (w' : world) (done' : list fs_op) (ex : option component_exit) :
  remove_components os_remove w tp n cs done = (w', done', ex) →
  ∃ removes, done' = done ++ removes
    ∧ (∀ op, op ∈ removes → ∃ c, c ∈ cs ∧ op = Remove (component_path tp n c))
    ∧ (ex = None → ∀ c, c ∈ cs → mandatory c → Remove (component_path tp n c) ∈ removes)
    ∧ (∀ e, ex = Some e →
         ∃ c, c ∈ cs ∧ mandatory c ∧ e = UnableToDelete (component_file n c)).
Proof.
  revert w done. induction cs as [|c cs IH]; intros w done; cbn [remove_components].
  - intros [= <- <- <-]. exists []. rewrite app_nil_r. split_and!; try done.
    + intros op Hop. inversion Hop.
    + intros _ c Hc. inversion Hc.
  - fold (component_path tp n c).
    destruct (os_remove w (component_path tp n c)) as [w1|].
    + intros H. apply IH in H as (removes & -> & Hops & Hall & Hex).
      exists (Remove (component_path tp n c) :: removes).
      rewrite <- app_assoc. split_and!; try done.
      * intros op [->|Hop]%elem_of_cons.
        -- exists c. split; [apply list_elem_of_here | done].
        -- destruct (Hops op Hop) as (c' & Hc' & ->). exists c'.
           split; [by apply list_elem_of_further | done].
      * intros Hnone c' [->|Hc']%elem_of_cons Hm.
        -- apply list_elem_of_here.
        -- apply list_elem_of_further. by apply Hall.
      * intros e He. destruct (Hex e He) as (c' & Hc' & Hrest). exists c'.
        split; [by apply list_elem_of_further | done].
    + destruct (exit_if_failed_on_a_non_optional_component c
                  (UnableToDelete (component_file n c))) as [e|] eqn:Hexit.
      * apply exit_if_failed_inv in Hexit as [Hm ->].
        intros [= <- <- <-]. exists []. rewrite app_nil_r. split_and!; try done.
        -- intros op Hop. inversion Hop.
        -- intros e [= <-]. exists c. split_and!; try done. apply list_elem_of_here.
      * apply exit_if_failed_optional in Hexit.
        intros H. apply IH in H as (removes & -> & Hops & Hall & Hex).
        exists removes. split_and!; try done.
        -- intros op Hop. destruct (Hops op Hop) as (c' & Hc' & ->). exists c'.
           split; [by apply list_elem_of_further | done].
        -- intros Hnone c' [->|Hc']%elem_of_cons Hm; [contradiction | by apply Hall].
        -- intros e He. destruct (Hex e He) as (c' & Hc' & Hrest). exists c'.
           split; [by apply list_elem_of_further | done].
Qed.

(** One round of the loop of [move_non_blocked_expired_ssts_to]. *)
Lemma move_step (w : world) (tp : string) (sst : sstable) (ssts : list sstable)
    (dst : string) (done : list fs_op) (ann : list string)
    (w' : world) (done' : list fs_op) (ann' : list string) (ex : option component_exit) :
  move_non_blocked_expired_ssts_to os_link os_remove w tp (sst :: ssts) dst done ann
    = (w', done', ann', ex) →
  ∃ links,
    (∀ op, op ∈ links →
       ∃ c, c ∈ sstable_components
            ∧ op = Link (component_path tp (name sst) c) (component_path dst (name sst) c))
    ∧ ((∃ c, c ∈ sstable_components ∧ mandatory c
           ∧ ex = Some (UnableToLink (component_file (name sst) c))
           ∧ done' = done ++ links ∧ ann' = ann ++ [name sst])
       ∨ ((∀ c, c ∈ sstable_components → mandatory c →
             Link (component_path tp (name sst) c) (component_path dst (name sst) c) ∈ links)
          ∧ ∃ removes,
              (∀ op, op ∈ removes →
                 ∃ c, c ∈ sstable_components ∧ op = Remove (component_path tp (name sst) c))
              ∧ ((∃ c, c ∈ sstable_components ∧ mandatory c
                     ∧ ex = Some (UnableToDelete (component_file (name sst) c))
                     ∧ done' = done ++ links ++ removes ∧ ann' = ann ++ [name sst])
                 ∨ ((∀ c, c ∈ sstable_components → mandatory c →
                       Remove (component_path tp (name sst) c) ∈ removes)
                    ∧ ∃ w2,
                        move_non_blocked_expired_ssts_to os_link os_remove w tp [sst] dst
                          done ann = (w2, done ++ links ++ removes, ann ++ [name sst], None)
                        ∧ move_non_blocked_expired_ssts_to os_link os_remove w2 tp ssts dst
                            (done ++ links ++ removes) (ann ++ [name sst])
                          = (w', done', ann', ex))))).
Proof.
  intros Hmove. cbn [move_non_blocked_expired_ssts_to] in Hmove.
  destruct (link_components os_link w tp dst (name sst) sstable_components done)
    as [[w1 done1] ex1] eqn:Hlink.
  pose proof Hlink as Hlink'.
  apply link_components_spec in Hlink as (links & -> & Hlinks & Hall & Hex).
  exists links. split; [exact Hlinks|].
  destruct ex1 as [e|].
  - injection Hmove as <- <- <- <-. left.
    destruct (Hex e eq_refl) as (c & Hc & Hm & ->). exists c. by split_and!.
  - right. split; [by apply Hall|].
    destruct (remove_components os_remove w1 tp (name sst) sstable_components (done ++ links))
      as [[w2 done2] ex2] eqn:Hremove.
    pose proof Hremove as Hremove'.
    apply remove_components_spec in Hremove as (removes & -> & Hremoves & Hall' & Hex').
    exists removes. split; [exact Hremoves|]. rewrite <- app_assoc in *.
    destruct ex2 as [e|].
    + injection Hmove as <- <- <- <-. left.
      destruct (Hex' e eq_refl) as (c & Hc & Hm & ->). exists c. by split_and!.
    + right. split; [by apply Hall'|]. exists w2. split; [|exact Hmove].
      cbn [move_non_blocked_expired_ssts_to]. rewrite Hlink', Hremove'. reflexivity.
Qed.

Lemma move_cons_compose (w : world) (tp : string) (sst : sstable) (ssts : list sstable)
    (dst : string) (done : list fs_op) (ann : list string)
    (w2 : world) (done2 : list fs_op) (ann2 : list string) :
  move_non_blocked_expired_ssts_to os_link os_remove w tp [sst] dst done ann
    = (w2, done2, ann2, None) →
  move_non_blocked_expired_ssts_to os_link os_remove w tp (sst :: ssts) dst done ann
    = move_non_blocked_expired_ssts_to os_link os_remove w2 tp ssts dst done2 ann2.
Proof.
  cbn [move_non_blocked_expired_ssts_to].
  destruct (link_components os_link w tp dst (name sst) sstable_components done)
    as [[w1 done1] [e|]]; [discriminate|].
  destruct (remove_components os_remove w1 tp (name sst) sstable_components done1)
    as [[w2' done2'] [e|]]; [discriminate|].
  intros [= -> -> ->]. reflexivity.
Qed.

Lemma app_eq_middle {A} (l1 l2 d1 d2 : list A) (x : A) :
  l1 ++ l2 = d1 ++ x :: d2 →
  (∃ d2', l1 = d1 ++ x :: d2') ∨ (∃ d1', d1 = l1 ++ d1' ∧ l2 = d1' ++ x :: d2).
Proof.
  revert d1. induction l1 as [|a l1 IH]; intros d1 H.
  - right. exists d1. split; [reflexivity | exact H].
  - destruct d1 as [|b d1]; simpl in H; injection H as -> H.
    + left. exists l1. reflexivity.
    + destruct (IH _ H) as [(d2' & ->) | (d1' & -> & ->)].
      * left. exists d2'. reflexivity.
      * right. exists d1'. split; reflexivity.
Qed.

Lemma removes_follow_links_round (all : list sstable) (tp dst : string) (sst : sstable)
    (done links removes : list fs_op) :
  sst ∈ all →
  removes_follow_links tp dst all done →
  (∀ op, op ∈ links →
     ∃ c, c ∈ sstable_components
          ∧ op = Link (component_path tp (name sst) c) (component_path dst (name sst) c)) →
  (∀ op, op ∈ removes →
     ∃ c, c ∈ sstable_components ∧ op = Remove (component_path tp (name sst) c)) →
  (removes ≠ [] → ∀ c, c ∈ sstable_components → mandatory c →
     Link (component_path tp (name sst) c) (component_path dst (name sst) c) ∈ links) →
  removes_follow_links tp dst all (done ++ links ++ removes).
Proof.
  intros Hsst Hdone Hlinks Hremoves Hall done1 path done2 Heq.
  apply app_eq_middle in Heq as [(d2' & Heq) | (d1' & -> & Heq)].
  - exact (Hdone _ _ _ Heq).
  - apply app_eq_middle in Heq as [(d2' & Heq) | (d1'' & -> & Heq)].
    + assert (Remove path ∈ links) as Hin.
      { rewrite Heq. apply elem_of_app. right. apply list_elem_of_here. }
      destruct (Hlinks _ Hin) as (c & _ & Hc). discriminate.
    + assert (Remove path ∈ removes) as Hin.
      { rewrite Heq. apply elem_of_app. right. apply list_elem_of_here. }
      destruct (Hremoves _ Hin) as (c & Hc & [= ->]).
      exists sst, c. split_and!; try done.
      intros c' Hc' Hm. apply elem_of_app. right. apply elem_of_app. left.
      apply Hall; try done. intros ->. inversion Hin.
Qed.

Lemma move_removes_follow_links (all : list sstable) (w : world) (tp : string)
    (ssts : list sstable) (dst : string) (done : list fs_op) (ann : list string)
    (w' : world) (done' : list fs_op) (ann' : list string) (ex : option component_exit) :
  (∀ sst, sst ∈ ssts → sst ∈ all) →
  removes_follow_links tp dst all done →
  move_non_blocked_expired_ssts_to os_link os_remove w tp ssts dst done ann
    = (w', done', ann', ex) →
  removes_follow_links tp dst all done'.
Proof.
  revert w done ann. induction ssts as [|sst ssts IH]; intros w done ann Hall Hdone Hmove.
  - injection Hmove as <- <- <- <-. exact Hdone.
  - assert (sst ∈ all) as Hsst by (apply Hall, list_elem_of_here).
    apply move_step in Hmove
      as (links & Hlinks
          & [(c & _ & _ & _ & -> & _)
            | (Hlinked & removes & Hremoves
               & [(c & _ & _ & _ & -> & _) | (_ & w2 & _ & Hrest)])]).
    + rewrite <- (app_nil_r links).
      apply removes_follow_links_round with (sst := sst); try done.
      intros op Hop. inversion Hop.
    + by apply removes_follow_links_round with (sst := sst).
    + apply (IH w2 (done ++ links ++ removes) (ann ++ [name sst])); try done.
      * intros sst' Hsst'. by apply Hall, list_elem_of_further.
      * by apply removes_follow_links_round with (sst := sst).
Qed.

Lemma move_touches_only (all : list sstable) (w : world) (tp : string)
    (ssts : list sstable) (dst : string) (done : list fs_op) (ann : list string)
    (w' : world) (done' : list fs_op) (ann' : list string) (ex : option component_exit) :
  (∀ sst, sst ∈ ssts → sst ∈ all) →
  touches_only tp dst all done →
  move_non_blocked_expired_ssts_to os_link os_remove w tp ssts dst done ann
    = (w', done', ann', ex) →
  touches_only tp dst all done'.
Proof.
  revert w done ann. induction ssts as [|sst ssts IH]; intros w done ann Hall Hdone Hmove.
  - injection Hmove as <- <- <- <-. exact Hdone.
  - assert (sst ∈ all) as Hsst by (apply Hall, list_elem_of_here).
    assert (∀ links removes,
      (∀ op, op ∈ links →
         ∃ c, c ∈ sstable_components
              ∧ op = Link (component_path tp (name sst) c) (component_path dst (name sst) c)) →
      (∀ op, op ∈ removes →
         ∃ c, c ∈ sstable_components ∧ op = Remove (component_path tp (name sst) c)) →
      touches_only tp dst all (done ++ links ++ removes)) as Hround.
    { intros links removes Hlinks Hremoves op [Hop|[Hop|Hop]%elem_of_app]%elem_of_app.
      - by apply Hdone.
      - destruct (Hlinks _ Hop) as (c & Hc & ->). exists sst, c. split_and!; try done. by left.
      - destruct (Hremoves _ Hop) as (c & Hc & ->). exists sst, c. split_and!; try done. by right. }
    apply move_step in Hmove
      as (links & Hlinks
          & [(c & _ & _ & _ & -> & _)
            | (Hlinked & removes & Hremoves
               & [(c & _ & _ & _ & -> & _) | (_ & w2 & _ & Hrest)])]).
    + rewrite <- (app_nil_r links). apply Hround; [done|]. intros op Hop. inversion Hop.
    + by apply Hround.
    + apply (IH w2 (done ++ links ++ removes) (ann ++ [name sst])); try done.
      * intros sst' Hsst'. by apply Hall, list_elem_of_further.
      * by apply Hround.
Qed.

Lemma move_extends (w : world) (tp : string)
    (ssts : list sstable) (dst : string) (done : list fs_op) (ann : list string)
    (w' : world) (done' : list fs_op) (ann' : list string) (ex : option component_exit) :
  move_non_blocked_expired_ssts_to os_link os_remove w tp ssts dst done ann
    = (w', done', ann', ex) →
  ∃ ops, done' = done ++ ops.
Proof.
  revert w done ann. induction ssts as [|sst ssts IH]; intros w done ann Hmove.
  - injection Hmove as <- <- <- <-. exists []. by rewrite app_nil_r.
  - apply move_step in Hmove
      as (links & Hlinks
          & [(c & _ & _ & _ & -> & _)
            | (Hlinked & removes & Hremoves
               & [(c & _ & _ & _ & -> & _) | (_ & w2 & _ & Hrest)])]).
    + by exists links.
    + by exists (links ++ removes).
    + apply IH in Hrest as (ops & ->). exists (links ++ removes ++ ops).
      by rewrite <- !app_assoc.
Qed.

Lemma move_completed_general (w : world) (tp : string)
    (ssts : list sstable) (dst : string) (done : list fs_op) (ann : list string)
    (w' : world) (done' : list fs_op) (ann' : list string) :
  move_non_blocked_expired_ssts_to os_link os_remove w tp ssts dst done ann
    = (w', done', ann', None) →
  ann' = ann ++ (name <$> ssts)
  ∧ ∀ sst c, sst ∈ ssts → c ∈ sstable_components → mandatory c →
      Link (component_path tp (name sst) c) (component_path dst (name sst) c) ∈ done'
      ∧ Remove (component_path tp (name sst) c) ∈ done'.
Proof.
  revert w done ann. induction ssts as [|sst ssts IH]; intros w done ann Hmove.
  - injection Hmove as <- <- <-. split; [by rewrite app_nil_r|].
    intros sst c Hsst. inversion Hsst.
  - apply move_step in Hmove
      as (links & Hlinks
          & [(c & _ & _ & [=] & _)
            | (Hlinked & removes & Hremoves
               & [(c & _ & _ & [=] & _) | (Hremoved & w2 & _ & Hrest)])]).
    pose proof (move_extends _ _ _ _ _ _ _ _ _ _ Hrest) as (ops & Hops).
    apply IH in Hrest as [-> Hrest]. split.
    + rewrite fmap_cons, <- app_assoc. reflexivity.
    + intros sst' c [->|Hsst']%elem_of_cons Hc Hm; [|by apply Hrest].
      rewrite Hops, !elem_of_app. split.
      * left. right. left. by apply Hlinked.
      * left. right. right. by apply Hremoved.
Qed.

Lemma move_failure_general (w : world) (tp : string)
    (ssts : list sstable) (dst : string) (done : list fs_op) (ann : list string)
    (w' : world) (done' : list fs_op) (ann' : list string) (e : component_exit) :
  move_non_blocked_expired_ssts_to os_link os_remove w tp ssts dst done ann
    = (w', done', ann', Some e) →
  ∃ before sst after w0 done0 ops,
    ssts = before ++ sst :: after
    ∧ move_non_blocked_expired_ssts_to os_link os_remove w tp before dst done ann
        = (w0, done0, ann ++ (name <$> before), None)
    ∧ ann' = ann ++ (name <$> before ++ [sst])
    ∧ done' = done0 ++ ops
    ∧ ∃ c, c ∈ sstable_components ∧ mandatory c
        ∧ ((e = UnableToLink (component_file (name sst) c)
            ∧ ∀ op, op ∈ ops →
                ∃ c', c' ∈ sstable_components
                      ∧ op = Link (component_path tp (name sst) c')
                               (component_path dst (name sst) c'))
           ∨ (e = UnableToDelete (component_file (name sst) c)
              ∧ ∀ c', c' ∈ sstable_components → mandatory c' →
                  Link (component_path tp (name sst) c') (component_path dst (name sst) c')
                    ∈ ops)).
Proof.
  revert w done ann. induction ssts as [|sst ssts IH]; intros w done ann Hmove.
  - discriminate.
  - apply move_step in Hmove
      as (links & Hlinks
          & [(c & Hc & Hm & [= ->] & -> & ->)
            | (Hlinked & removes & Hremoves
               & [(c & Hc & Hm & [= ->] & -> & ->) | (Hremoved & w2 & Hone & Hrest)])]).
    + exists [], sst, ssts, w, done, links. cbn [move_non_blocked_expired_ssts_to].
      rewrite app_nil_r. split_and!; try done. exists c. split_and!; try done. by left.
    + exists [], sst, ssts, w, done, (links ++ removes). cbn [move_non_blocked_expired_ssts_to].
      rewrite app_nil_r. split_and!; try done. exists c. split_and!; try done. right.
      split; [done|]. intros c' Hc' Hm'. apply elem_of_app. left. by apply Hlinked.
    + apply IH in Hrest
        as (before & sst' & after & w0 & done0 & ops & -> & Hbefore & -> & -> & Hexit).
      exists (sst :: before), sst', after, w0, done0, ops. split_and!; try done.
      * rewrite (move_cons_compose _ _ _ _ _ _ _ _ _ _ Hone), Hbefore.
        rewrite fmap_cons, <- app_assoc. reflexivity.
      * rewrite <- app_assoc. reflexivity.
Qed.

(** The move keeps the order the comment in the code asks for: whenever
    a file is removed, it is a component file of one of the sstables in the
    table directory, and every mandatory component of that sstable has been
    linked into the destination before.  This holds for every run, also
    one that a failing call ends half way. *)
Theorem move_links_before_removing (w : world) (table_path : string)
    (sstables : list sstable) (destination_path : string)
    (w' : world) (done : list fs_op) (announced : list string)
    (ex : option component_exit) :
  move_non_blocked_expired_ssts_to os_link os_remove w table_path sstables
    destination_path [] [] = (w', done, announced, ex) →
  ∀ done1 path done2, done = done1 ++ Remove path :: done2 →
    ∃ sst c, sst ∈ sstables ∧ c ∈ sstable_components
      ∧ path = component_path table_path (name sst) c
      ∧ ∀ c', c' ∈ sstable_components → mandatory c' →
          Link (component_path table_path (name sst) c')
               (component_path destination_path (name sst) c') ∈ done1.
Proof.
  intros Hmove.
  apply (move_removes_follow_links sstables) in Hmove; [exact Hmove | done |].
  intros done1 path done2 H. destruct done1; discriminate.
Qed.

(** The move touches nothing but the component files of the sstables it
    is given: every link goes from a component file in the table directory
    to the file of the same name in the destination, and every removal is
    that of a component file in the table directory. *)
Theorem move_touches_only_listed_components (w : world) (table_path : string)
    (sstables : list sstable) (destination_path : string)
    (w' : world) (done : list fs_op) (announced : list string)
    (ex : option component_exit) :
  move_non_blocked_expired_ssts_to os_link os_remove w table_path sstables
    destination_path [] [] = (w', done, announced, ex) →
  ∀ op, op ∈ done →
    ∃ sst c, sst ∈ sstables ∧ c ∈ sstable_components
      ∧ (op = Link (component_path table_path (name sst) c)
                   (component_path destination_path (name sst) c)
         ∨ op = Remove (component_path table_path (name sst) c)).
Proof.
  intros Hmove.
  apply (move_touches_only sstables) in Hmove; [exact Hmove | done |].
  intros op Hop. inversion Hop.
Qed.

(** When the move returns, every sstable was announced, in order, and
    every mandatory component of every sstable was both linked into the
    destination and removed from the table directory. *)
Theorem move_returns_after_moving_all (w : world) (table_path : string)
    (sstables : list sstable) (destination_path : string)
    (w' : world) (done : list fs_op) (announced : list string) :
  move_non_blocked_expired_ssts_to os_link os_remove w table_path sstables
    destination_path [] [] = (w', done, announced, None) →
  announced = name <$> sstables
  ∧ ∀ sst c, sst ∈ sstables → c ∈ sstable_components → mandatory c →
      Link (component_path table_path (name sst) c)
           (component_path destination_path (name sst) c) ∈ done
      ∧ Remove (component_path table_path (name sst) c) ∈ done.
Proof.
  intros Hmove. apply move_completed_general in Hmove as [-> H]. by split.
Qed.

(** When the move ends the program, it does so at one sstable, on a
    mandatory component: the sstables before it were moved completely, as
    if the move had been called for them alone, and it was the last one
    announced.  If a link failed, only links were made for it, so that
    nothing of it was removed; if a removal failed, all its mandatory
    components had been linked. *)
Theorem move_failure_point (w : world) (table_path : string)
    (sstables : list sstable) (destination_path : string)
    (w' : world) (done : list fs_op) (announced : list string) (e : component_exit) :
  move_non_blocked_expired_ssts_to os_link os_remove w table_path sstables
    destination_path [] [] = (w', done, announced, Some e) →
  ∃ before sst after w0 done0 ops,
    sstables = before ++ sst :: after
    ∧ move_non_blocked_expired_ssts_to os_link os_remove w table_path before
        destination_path [] [] = (w0, done0, name <$> before, None)
    ∧ announced = name <$> before ++ [sst]
    ∧ done = done0 ++ ops
    ∧ ∃ c, c ∈ sstable_components ∧ mandatory c
        ∧ ((e = UnableToLink (component_file (name sst) c)
            ∧ ∀ op, op ∈ ops →
                ∃ c', c' ∈ sstable_components
                      ∧ op = Link (component_path table_path (name sst) c')
                               (component_path destination_path (name sst) c'))
           ∨ (e = UnableToDelete (component_file (name sst) c)
              ∧ ∀ c', c' ∈ sstable_components → mandatory c' →
                  Link (component_path table_path (name sst) c')
                       (component_path destination_path (name sst) c') ∈ ops)).
Proof.
  intros Hmove. apply move_failure_general in Hmove. exact Hmove.
Qed.

End operating_system_properties.

Lemma move_links_before_removing_witness :
  ∃ sst c, sst ∈ take 1 sample_expired ∧ c ∈ sstable_components
    ∧ "/t/la-1-big-Data.db" = component_path "/t" (name sst) c
    ∧ ∀ c', c' ∈ sstable_components → mandatory c' →
        Link (component_path "/t" (name sst) c') (component_path "/b" (name sst) c')
          ∈ take 8 sample_move.1.1.2.
Proof.
  apply (move_links_before_removing map_link map_remove sample_world "/t"
           (take 1 sample_expired) "/b"
           sample_move.1.1.1 sample_move.1.1.2 sample_move.1.2 sample_move.2
           ltac:(vm_compute; reflexivity)
           (take 8 sample_move.1.1.2) "/t/la-1-big-Data.db" (drop 9 sample_move.1.1.2)).
  vm_compute. reflexivity.
Defined.

Lemma move_touches_only_listed_components_witness :
  ∃ sst c, sst ∈ take 2 sample_expired ∧ c ∈ sstable_components
    ∧ (Link "/t/la-2-big-Index.db" "/b/la-2-big-Index.db"
         = Link (component_path "/t" (name sst) c) (component_path "/b" (name sst) c)
       ∨ Link "/t/la-2-big-Index.db" "/b/la-2-big-Index.db"
         = Remove (component_path "/t" (name sst) c)).
Proof.
  apply (move_touches_only_listed_components map_link map_remove sample_world "/t"
           (take 2 sample_expired) "/b"
           sample_move_failing.1.1.1 sample_move_failing.1.1.2 sample_move_failing.1.2
           sample_move_failing.2 ltac:(vm_compute; reflexivity)).
  vm_compute. do 17 apply list_elem_of_further. apply list_elem_of_here.
Defined.

Lemma move_returns_after_moving_all_witness :
  sample_move.1.2 = name <$> take 1 sample_expired
  ∧ ∀ sst c, sst ∈ take 1 sample_expired → c ∈ sstable_components → mandatory c →
      Link (component_path "/t" (name sst) c) (component_path "/b" (name sst) c)
        ∈ sample_move.1.1.2
      ∧ Remove (component_path "/t" (name sst) c) ∈ sample_move.1.1.2.
Proof.
  apply (move_returns_after_moving_all map_link map_remove sample_world "/t"
           (take 1 sample_expired) "/b" sample_move.1.1.1).
  vm_compute. reflexivity.
Defined.

Lemma move_failure_point_witness :
  ∃ before sst after w0 done0 ops,
    take 2 sample_expired = before ++ sst :: after
    ∧ move_non_blocked_expired_ssts_to map_link map_remove sample_world "/t" before
        "/b" [] [] = (w0, done0, name <$> before, None)
    ∧ sample_move_failing.1.2 = name <$> before ++ [sst]
    ∧ sample_move_failing.1.1.2 = done0 ++ ops
    ∧ ∃ c, c ∈ sstable_components ∧ mandatory c
        ∧ ((UnableToLink "la-2-big-Summary.db" = UnableToLink (component_file (name sst) c)
            ∧ ∀ op, op ∈ ops →
                ∃ c', c' ∈ sstable_components
                      ∧ op = Link (component_path "/t" (name sst) c')
                               (component_path "/b" (name sst) c'))
           ∨ (UnableToLink "la-2-big-Summary.db"
                = UnableToDelete (component_file (name sst) c)
              ∧ ∀ c', c' ∈ sstable_components → mandatory c' →
                  Link (component_path "/t" (name sst) c') (component_path "/b" (name sst) c')
                    ∈ ops)).
Proof.
  apply (move_failure_point map_link map_remove sample_world "/t"
           (take 2 sample_expired) "/b" sample_move_failing.1.1.1).
  vm_compute. reflexivity.
Defined.

(** ** Names of component files *)

Lemma replace_from_skip_all (old new s : string) (k : nat) :
  (String.length s ≤ k)%nat → replace_from old new k s = EmptyString.
Proof.
  revert k. induction s as [|c s IH]; intros k Hk; [reflexivity|].
  destruct k as [|k]; simpl in Hk; [lia|]. simpl. apply IH. lia.
Qed.

Lemma string_app_cons (c : Ascii.ascii) (s t : string) :
  String c s +:+ t = String c (s +:+ t).
Proof. reflexivity. Qed.

Lemma string_app_nil_r (s : string) : s +:+ EmptyString = s.
Proof.
  induction s as [|c s IH]; [reflexivity|]. rewrite string_app_cons. f_equal. exact IH.
Qed.

Lemma prefix_refl (s : string) : String.prefix s s = true.
Proof.
  induction s as [|c s IH]; [reflexivity|]. cbn [String.prefix].
  destruct (Ascii.ascii_dec c c); [exact IH | congruence].
Qed.

Lemma replace_from_stem (old new stem : string) :
  old ≠ EmptyString →
  (∀ p, (p < String.length stem)%nat →
     String.substring p (String.length old) (stem +:+ old) ≠ old) →
  replace_from old new 0 (stem +:+ old) = stem +:+ new.
Proof.
  intros Hold. induction stem as [|a stem IH]; intros H.
  - destruct old as [|c rest]; [done|].
    change (EmptyString +:+ String c rest) with (String c rest). cbn [replace_from].
    rewrite prefix_refl, replace_from_skip_all by (simpl; lia).
    apply string_app_nil_r.
  - rewrite !string_app_cons. rewrite string_app_cons in H. cbn [replace_from].
    destruct (String.prefix old (String a (stem +:+ old))) eqn:Hp.
    + apply String.prefix_correct in Hp. exfalso. apply (H 0%nat); [simpl; lia | exact Hp].
    + f_equal. apply IH. intros p Hp'. specialize (H (S p)).
      cbn [String.substring] in H. apply H. simpl. lia.
Qed.

(** For the name of a TOC file in which TOC.txt occurs at the end and
    nowhere before, the file of a component has the same stem with the
    component in the place of TOC.txt. *)
Theorem component_file_replaces_suffix (stem component : string) :
  String.index 0 sstable_component_for_identification
    (stem +:+ sstable_component_for_identification) = Some (String.length stem) →
  component_file (stem +:+ sstable_component_for_identification) component
    = stem +:+ component.
Proof.
  intros Hindex. unfold component_file, py_replace.
  apply replace_from_stem; [done|].
  intros p Hp. apply (String.index_correct2 _ _ _ _ Hindex); lia.
Qed.

Lemma component_file_replaces_suffix_witness :
  component_file ("la-1-big-" +:+ sstable_component_for_identification) "Data.db"
    = "la-1-big-" +:+ "Data.db".
Proof.
  apply (component_file_replaces_suffix "la-1-big-" "Data.db").
  vm_compute. reflexivity.
Defined.

(** ** The program *)

Section program_properties.

Context {world : Type}.
Variable st_size : world → string → option Z.
Variable os_link : world → string → string → option world.
Variable os_remove : world → string → option world.

Lemma unchanged_refl (m : @machine world) : unchanged m m.
Proof. by split. Qed.

Lemma unchanged_trans (m1 m2 m3 : @machine world) :
  unchanged m1 m2 → unchanged m2 m3 → unchanged m1 m3.
Proof. intros [H1 H2] [H3 H4]. split; congruence. Qed.

Lemma prog_bind_inv {A B} (p : prog A) (k : A → prog B) (m m' : @machine world)
    (r : main_exit + B) :
  prog_bind p k m = (m', r) →
  (∃ e, p m = (m', inl e) ∧ r = inl e)
  ∨ (∃ a m1, p m = (m1, inr a) ∧ k a m1 = (m', r)).
Proof.
  unfold prog_bind. destruct (p m) as [m1 [e|a]].
  - intros [= <- <-]. left. by exists e.
  - intros H. right. by exists a, m1.
Qed.

Lemma exit_if_inv (c : bool) (e : main_exit) (m m' : @machine world) (r : main_exit + unit) :
  exit_if c e m = (m', r) →
  m' = m ∧ ((c = true ∧ r = inl e) ∨ (c = false ∧ r = inr tt)).
Proof. destruct c; intros [= <- <-]; split; auto. Qed.

Lemma say_all_inv (lines : list main_out) (m m' : @machine world) (r : main_exit + unit) :
  say_all lines m = (m', r) → unchanged m m' ∧ r = inr tt.
Proof. intros [= <- <-]. by split. Qed.

Lemma say_inv (line : main_out) (m m' : @machine world) (r : main_exit + unit) :
  say line m = (m', r) → unchanged m m' ∧ r = inr tt.
Proof. apply say_all_inv. Qed.

Lemma of_run_inv {A} (x : run A) (m m' : @machine world) (r : main_exit + A) :
  of_run x m = (m', r) →
  unchanged m m'
  ∧ ∃ o, (∃ a, x = (o, Ret a) ∧ r = inr a)
         ∨ (∃ e, x = (o, Raise e) ∧ r = inl (Traceback e))
         ∨ (∃ s, x = (o, SysExit s) ∧ r = inl (ExitScript s)).
Proof.
  destruct x as [o [a|e|s]]; intros [= <- <-]; (split; [by split|]); exists o; eauto.
Qed.

Lemma total_space_inv (tp : string) (ssts : list sstable) (m m' : @machine world)
    (r : main_exit + float) :
  total_space st_size tp ssts m = (m', r) →
  m' = m
  ∧ ((∃ e, total_space_for_sstables_in_mb st_size (m_world m) tp ssts = inl e
           ∧ r = inl (ExitComponent e))
     ∨ (∃ mb, total_space_for_sstables_in_mb st_size (m_world m) tp ssts = inr mb
              ∧ r = inr mb)).
Proof.
  unfold total_space.
  destruct (total_space_for_sstables_in_mb st_size (m_world m) tp ssts) as [e|mb];
    intros [= <- <-]; split; eauto.
Qed.

Lemma scylla_running_inv (processes : list (option string)) (m m' : @machine world)
    (r : main_exit + bool) :
  scylla_running processes m = (m', r) →
  m' = m
  ∧ ((is_scylla_running processes = None ∧ r = inl TracebackPsutil)
     ∨ (∃ b, is_scylla_running processes = Some b ∧ r = inr b)).
Proof.
  unfold scylla_running. destruct (is_scylla_running processes) as [b|];
    intros [= <- <-]; split; eauto.
Qed.

Lemma find_expired_inv (sstables : list sstable) (gc ttl : Z) (flag : bool)
    (m m' : @machine world) (r : main_exit + list sstable * list sstable) :
  find_expired sstables gc ttl flag m = (m', r) →
  unchanged m m' ∧ r = inr (find_expired_sstables sstables gc ttl flag).
Proof. intros [= <- <-]. by split. Qed.

Lemma find_blockers_inv (E L : list sstable) (m m' : @machine world)
    (r : main_exit + list sstable * list sstable) :
  find_blockers E L m = (m', r) →
  unchanged m m'
  ∧ ((E = [] ∧ r = inl TracebackEmptySequence)
     ∨ (∃ classes, find_blockers_for_expired_sstables E L = Some classes
                   ∧ r = inr classes)).
Proof.
  unfold find_blockers, find_blockers_for_expired_sstables.
  destruct (find_blockers_for_expired_sstables_out E L) as [st|] eqn:Hst.
  - intros [= <- <-]. split; [by split|]. right. eauto.
  - intros [= <- <-]. split; [by split|]. left. split; [|done].
    destruct E as [|e E]; [done|].
    unfold find_blockers_for_expired_sstables_out in Hst.
    cbn [get_unified_token_range py_min py_max] in Hst.
    destruct (overlapping_candidates _ L); discriminate.
Qed.

Lemma dump_expired_sstables_inv (E : list sstable) (gc ttl : Z) (flag : bool)
    (tp : string) (m m' : @machine world) (r : main_exit + unit) :
  dump_expired_sstables st_size E gc ttl flag tp m = (m', r) →
  unchanged m m' ∧ not_traceback r.
Proof.
  unfold dump_expired_sstables. intros H.
  apply prog_bind_inv in H as [(e & [_ [=]]%say_all_inv & _) | ([] & m1 & [Hm1 _]%say_all_inv & H)].
  destruct (filter _ E) as [|sst ignored].
  - injection H as <- <-. by split.
  - apply prog_bind_inv in H as [(e & [_ [=]]%say_inv & _) | ([] & m2 & [Hm2 _]%say_inv & H)].
    apply prog_bind_inv in H
      as [(e & [-> [(e' & _ & [= ->]) | (mb & _ & [=])]]%total_space_inv & ->)
         | (mb & m3 & [-> _]%total_space_inv & [Hm3 ->]%say_inv)].
    + split; [by eapply unchanged_trans | done].
    + split; [|done]. eapply unchanged_trans; [|exact Hm3]. by eapply unchanged_trans.
Qed.

Lemma move_inv (tp : string) (ssts : list sstable) (dst : string) (m m' : @machine world)
    (r : main_exit + unit) :
  move os_link os_remove tp ssts dst m = (m', r) →
  ∃ done announced ex,
    move_non_blocked_expired_ssts_to os_link os_remove (m_world m) tp ssts dst [] []
      = (m_world m', done, announced, ex)
    ∧ m_calls m' = m_calls m ++ done
    ∧ not_traceback r.
Proof.
  unfold move.
  destruct (move_non_blocked_expired_ssts_to os_link os_remove (m_world m) tp ssts dst [] [])
    as [[[w' done] announced] ex].
  intros [= <- <-]. exists done, announced, ex. split_and!; try done. by destruct ex.
Qed.

(** The ways [main] can go: it ends before the move, with the file system
    as it was, or all the checks have passed, the sstables were read and
    classified, the size of the sstables without blockers was taken, and
    the move was called for them. *)
Lemma main_cases (fs : filesystem) (processes : list (option string))
    (now : Z) (args : arguments) (m0 m' : @machine world) (r : main_exit + unit) :
  main st_size os_link os_remove fs processes now args m0 = (m', r) →
  not_traceback r
  ∧ (unchanged m0 m'
     ∨ ∃ o sstables blocked non_blocked size done announced ex,
         arg_safely_move_expired_sstables_to args ≠ EmptyString
         ∧ is_scylla_running processes = Some false
         ∧ isdir fs (arg_safely_move_expired_sstables_to args) = true
         ∧ isdir fs (arg_table args) = true
         ∧ arg_default_ttl args ≠ 0
         ∧ now ≠ 0
         ∧ process_sstables fs (arg_table args) now = (o, Ret sstables)
         ∧ find_blockers_for_expired_sstables
             (find_expired_sstables sstables (now - arg_gc_grace_seconds args)
                (arg_default_ttl args) (arg_ignore_max_deletion_time args)).1
             (find_expired_sstables sstables (now - arg_gc_grace_seconds args)
                (arg_default_ttl args) (arg_ignore_max_deletion_time args)).2
           = Some (blocked, non_blocked)
         ∧ total_space_for_sstables_in_mb st_size (m_world m0) (arg_table args)
             non_blocked = inr size
         ∧ move_non_blocked_expired_ssts_to os_link os_remove (m_world m0)
             (arg_table args) non_blocked (arg_safely_move_expired_sstables_to args)
             [] [] = (m_world m', done, announced, ex)
         ∧ m_calls m' = m_calls m0 ++ done).
Proof.
  intros H. unfold main in H. cbv zeta in H.
  apply prog_bind_inv in H
    as [(e & [-> [[_ [= ->]] | [_ [=]]]]%exit_if_inv & ->)
       | ([] & m1 & [-> [[_ [=]] | [Htable _]]]%exit_if_inv & H)].
  { split; [done|]. left. apply unchanged_refl. }
  apply negb_false_iff in Htable.
  apply prog_bind_inv in H
    as [(e & [-> [[_ [= ->]] | [_ [=]]]]%exit_if_inv & ->)
       | ([] & m1 & [-> [[_ [=]] | [Httl _]]]%exit_if_inv & H)].
  { split; [done|]. left. apply unchanged_refl. }
  apply Z.eqb_neq in Httl.
  apply prog_bind_inv in H
    as [(e & [-> [[_ [= ->]] | [_ [=]]]]%exit_if_inv & ->)
       | ([] & m1 & [-> [[_ [=]] | [Hnow _]]]%exit_if_inv & H)].
  { split; [done|]. left. apply unchanged_refl. }
  apply Z.eqb_neq in Hnow.
  (* the checks for the move *)
  match type of H with prog_bind _ ?k _ = _ => set (rest := k) in H end.
  assert ((∃ m1, unchanged m0 m1
           ∧ (arg_safely_move_expired_sstables_to args ≠ EmptyString →
                is_scylla_running processes = Some false
                ∧ isdir fs (arg_safely_move_expired_sstables_to args) = true)
           ∧ rest tt m1 = (m', r))
          ∨ not_traceback r ∧ unchanged m0 m') as Hchecks.
  { apply prog_bind_inv in H as [(e & Hp & ->) | ([] & m1 & Hp & H)].
    - right.
      destruct (negb (arg_safely_move_expired_sstables_to args =? "")%string);
        [|discriminate].
      apply prog_bind_inv in Hp
        as [(e' & [-> [[_ [= ->]] | (b & _ & [=])]]%scylla_running_inv & [= ->])
           | (b & m2 & [-> [[_ [=]] | (b' & Hb & [= <-])]]%scylla_running_inv & Hp)].
      { split; [done | apply unchanged_refl]. }
      apply prog_bind_inv in Hp
        as [(e' & [-> [[_ [= ->]] | [_ [=]]]]%exit_if_inv & [= ->])
           | ([] & m2 & [-> _]%exit_if_inv & Hp)].
      { split; [done | apply unchanged_refl]. }
      apply exit_if_inv in Hp as [-> [[_ [= ->]] | [_ [=]]]].
      split; [done | apply unchanged_refl].
    - left. exists m1.
      destruct (negb (arg_safely_move_expired_sstables_to args =? "")%string) eqn:Hdest.
      + apply prog_bind_inv in Hp
          as [(e' & _ & [=])
             | (b & m2 & [-> [[_ [=]] | (b' & Hb & [= <-])]]%scylla_running_inv & Hp)].
        apply prog_bind_inv in Hp
          as [(e' & _ & [=])
             | ([] & m2 & [-> [[_ [=]] | [-> _]]]%exit_if_inv & Hp)].
        apply exit_if_inv in Hp as [-> [[_ [=]] | [Hdir _]]].
        apply negb_false_iff in Hdir.
        split_and!; [apply unchanged_refl | done | exact H].
      + injection Hp as <-. split_and!; [apply unchanged_refl | | exact H].
        apply negb_false_iff, String.eqb_eq in Hdest. intros Hne. contradiction.
  }
  clear H. destruct Hchecks as [(m1 & Hm1 & Hchecked & H) | [Hr Hm]]; [|by split; [|left]].
  subst rest. cbv beta in H.
  apply prog_bind_inv in H as [(e & [_ [=]]%say_inv & _) | ([] & m2 & [Hm2 _]%say_inv & H)].
  pose proof (unchanged_trans _ _ _ Hm1 Hm2) as Hun. clear Hm1 Hm2 m1.
  apply prog_bind_inv in H as [(e & [_ [=]]%say_inv & _) | ([] & m1 & [Hm1 _]%say_inv & H)].
  pose proof (unchanged_trans _ _ _ Hun Hm1) as Hun'. clear Hun Hm1 m2.
  apply prog_bind_inv in H as [(e & [_ [=]]%say_inv & _) | ([] & m2 & [Hm2 _]%say_inv & H)].
  pose proof (unchanged_trans _ _ _ Hun' Hm2) as Hun. clear Hun' Hm2 m1.
  apply prog_bind_inv in H as [(e & [_ [=]]%say_inv & _) | ([] & m1 & [Hm1 _]%say_inv & H)].
  pose proof (unchanged_trans _ _ _ Hun Hm1) as Hun'. clear Hun Hm1 m2.
  (* process_sstables *)
  assert (∃ entries, dirs fs !! arg_table args = Some entries) as [entries Hentries].
  { unfold isdir in Htable. apply bool_decide_eq_true in Htable as [entries ?]. eauto. }
  apply prog_bind_inv in H
    as [(e & [Hm2 (o & Hrun)]%of_run_inv & ->)
       | (sstables & m2 & [Hm2 (o & Hrun)]%of_run_inv & H)].
  { split; [|left; by eapply unchanged_trans].
    destruct Hrun as [(a & _ & [=]) | [(e' & Hrun & [= ->]) | (s & _ & [= ->])]]; [|done].
    destruct (process_sstables_no_exception _ _ _ _ _ _ Hentries Hrun) as [Hno _].
    by destruct (Hno e'). }
  destruct Hrun as [(a & Hrun & [= <-]) | [(e' & _ & [=]) | (s & _ & [=])]].
  pose proof (unchanged_trans _ _ _ Hun' Hm2) as Hun. clear Hun' Hm2 m1.
  apply prog_bind_inv in H
    as [(e & [_ [=]]%say_all_inv & _) | ([] & m1 & [Hm1 _]%say_all_inv & H)].
  pose proof (unchanged_trans _ _ _ Hun Hm1) as Hun'. clear Hun Hm1 m2.
  apply prog_bind_inv in H
    as [(e & [_ [=]]%find_expired_inv & _)
       | ([E L] & m2 & [Hm2 [= Hclasses]]%find_expired_inv & H)].
  pose proof (unchanged_trans _ _ _ Hun' Hm2) as Hun. clear Hun' Hm2 m1.
  apply prog_bind_inv in H
    as [(e & [Hm1 Hr]%dump_expired_sstables_inv & ->)
       | ([] & m1 & [Hm1 _]%dump_expired_sstables_inv & H)].
  { split; [done | left; by eapply unchanged_trans]. }
  pose proof (unchanged_trans _ _ _ Hun Hm1) as Hun'. clear Hun Hm1 m2.
  apply prog_bind_inv in H
    as [(e & [-> [(e' & _ & [= ->]) | (mb & _ & [=])]]%total_space_inv & ->)
       | (mb & m2 & [-> _]%total_space_inv & H)].
  { split; [done | by left]. }
  apply prog_bind_inv in H as [(e & [_ [=]]%say_inv & _) | ([] & m2 & [Hm2 _]%say_inv & H)].
  pose proof (unchanged_trans _ _ _ Hun' Hm2) as Hun. clear Hun' Hm2 m1.
  destruct E as [|e0 E'].
  { injection H as <- <-. split; [done | by left]. }
  apply prog_bind_inv in H
    as [(e & [Hm1 [[[=] _] | (classes & _ & [=])]]%find_blockers_inv & _)
       | ([blocked non_blocked] & m1
          & [Hm1 [[[=] _] | (classes & Hblockers & [= <-])]]%find_blockers_inv & H)].
  pose proof (unchanged_trans _ _ _ Hun Hm1) as Hun'. clear Hun Hm1 m2.
  apply prog_bind_inv in H
    as [(e & [-> [(e' & _ & [= ->]) | (mb' & _ & [=])]]%total_space_inv & ->)
       | (size & m2 & [-> [(e' & _ & [=]) | (size' & Hsize & [= <-])]]%total_space_inv & H)].
  { split; [done | by left]. }
  apply prog_bind_inv in H as [(e & [_ [=]]%say_inv & _) | ([] & m2 & [Hm2 _]%say_inv & H)].
  pose proof (unchanged_trans _ _ _ Hun' Hm2) as Hun.
  apply prog_bind_inv in H
    as [(e & [-> [(e' & _ & [= ->]) | (mb' & _ & [=])]]%total_space_inv & ->)
       | (mb' & m3 & [-> _]%total_space_inv & H)].
  { split; [done | by left]. }
  apply prog_bind_inv in H as [(e & [_ [=]]%say_inv & _) | ([] & m3 & [Hm3 _]%say_inv & H)].
  pose proof (unchanged_trans _ _ _ Hun Hm3) as Hun3.
  destruct (negb (arg_safely_move_expired_sstables_to args =? "")%string) eqn:Hdest.
  2: { injection H as <- <-. split; [done | by left]. }
  apply negb_true_iff, String.eqb_neq in Hdest.
  destruct (Hchecked Hdest) as [Hscylla Hdir].
  apply prog_bind_inv in H as [(e & [_ [=]]%say_inv & _) | ([] & m4 & [Hm4 _]%say_inv & H)].
  pose proof (unchanged_trans _ _ _ Hun3 Hm4) as [Hw4 Hc4].
  assert (not_traceback r
          ∧ ∃ done announced ex,
              move_non_blocked_expired_ssts_to os_link os_remove (m_world m4)
                (arg_table args) non_blocked (arg_safely_move_expired_sstables_to args)
                [] [] = (m_world m', done, announced, ex)
              ∧ m_calls m' = m_calls m4 ++ done) as [Hr (done & announced & ex & Hmove & Hcalls)].
  { apply prog_bind_inv in H
      as [(e & (done & announced & ex & Hmove & Hcalls & Hr)%move_inv & ->)
         | ([] & m5 & (done & announced & ex & Hmove & Hcalls & Hr)%move_inv
            & [[Hw Hc] ->]%say_inv)].
    - split; [done|]. by exists done, announced, ex.
    - split; [done|]. exists done, announced, ex. rewrite Hw, Hc. by split. }
  split; [done|]. right.
  exists o, sstables, blocked, non_blocked, size, done, announced, ex.
  destruct Hun' as [Hw1 _]. rewrite Hw4 in Hmove. rewrite Hc4 in Hcalls.
  rewrite Hw1 in Hsize. rewrite <- Hclasses. by split_and!.
Qed.

(** [main] changes the file system only on request and after its checks:
    either it ends with the file system as it found it and no link or
    removal made, or the backup directory was given and exists, the table
    directory exists, no process with scylla in its name was found (and
    psutil failed on none), and neither the default TTL nor the clock is
    zero. *)
Theorem main_changes_files_only_after_checks (fs : filesystem)
    (processes : list (option string)) (now_in_seconds : Z) (args : arguments)
    (m0 m' : @machine world) (r : main_exit + unit) :
  main st_size os_link os_remove fs processes now_in_seconds args m0 = (m', r) →
  (m_world m' = m_world m0 ∧ m_calls m' = m_calls m0)
  ∨ (arg_safely_move_expired_sstables_to args ≠ EmptyString
     ∧ is_scylla_running processes = Some false
     ∧ isdir fs (arg_safely_move_expired_sstables_to args) = true
     ∧ isdir fs (arg_table args) = true
     ∧ arg_default_ttl args ≠ 0
     ∧ now_in_seconds ≠ 0).
Proof.
  intros H. apply main_cases in H as [_ [Hun | H]]; [by left|]. right.
  destruct H as (o & sstables & blocked & non_blocked & size & done & announced & ex
                 & H1 & H2 & H3 & H4 & H5 & H6 & _).
  by split_and!.
Qed.

(** Whatever [main] links or removes is a component file, in the table
    directory, of an sstable that [process_sstables] returned, that the
    classifier found expired, that no candidate blocks (no live sstable
    overlapping the token range of the expired ones overlaps it in time),
    and whose mandatory components were all found when its size was taken;
    links go to the file of the same name in the backup directory. *)
Theorem main_moves_only_unblocked_expired_sstables (fs : filesystem)
    (processes : list (option string)) (now_in_seconds : Z) (args : arguments)
    (m0 m' : @machine world) (r : main_exit + unit) :
  main st_size os_link os_remove fs processes now_in_seconds args m0 = (m', r) →
  ∃ done, m_calls m' = m_calls m0 ++ done
    ∧ ∀ op, op ∈ done →
        ∃ o sstables U sst c,
          let expired sst :=
            is_sstable_expired sst (now_in_seconds - arg_gc_grace_seconds args)
              (arg_default_ttl args) (arg_ignore_max_deletion_time args) = true in
          process_sstables fs (arg_table args) now_in_seconds = (o, Ret sstables)
          ∧ sst ∈ sstables
          ∧ expired sst
          ∧ get_unified_token_range (filter expired sstables) = Some U
          ∧ ¬ blocked_by (candidates U (filter (λ sst, ¬ expired sst) sstables)) sst
          ∧ (∀ c', c' ∈ sstable_components → mandatory c' →
               is_Some (st_size (m_world m0) (component_path (arg_table args) (name sst) c')))
          ∧ c ∈ sstable_components
          ∧ (op = Link (component_path (arg_table args) (name sst) c)
                       (component_path (arg_safely_move_expired_sstables_to args)
                          (name sst) c)
             ∨ op = Remove (component_path (arg_table args) (name sst) c)).
Proof.
  intros H. apply main_cases in H as [_ [[_ Hun] | H]].
  { exists []. split; [by rewrite app_nil_r|]. intros op Hop. inversion Hop. }
  destruct H as (o & sstables & blocked & non_blocked & size & done & announced & ex
                 & _ & _ & _ & _ & _ & _ & Hrun & Hblockers & Hsize & Hmove & Hcalls).
  exists done. split; [exact Hcalls|]. intros op Hop.
  rewrite find_expired_sstables_spec in Hblockers. cbn [fst snd] in Hblockers.
  destruct (get_unified_token_range
              (filter (λ sst, is_sstable_expired sst (now_in_seconds - arg_gc_grace_seconds args)
                                (arg_default_ttl args) (arg_ignore_max_deletion_time args)
                              = true) sstables)) as [U|] eqn:HU.
  2: { unfold find_blockers_for_expired_sstables, find_blockers_for_expired_sstables_out
         in Hblockers. rewrite HU in Hblockers. discriminate. }
  rewrite (find_blockers_spec _ _ _ HU) in Hblockers. injection Hblockers as _ <-.
  match type of Hmove with
  | move_non_blocked_expired_ssts_to _ _ _ _ ?l _ _ _ = _ =>
      apply (move_touches_only os_link os_remove l) in Hmove;
        [|done|intros op' Hop'; inversion Hop']
  end.
  destruct (Hmove op Hop) as (sst & c & Hsst & Hc & Hkind).
  apply list_elem_of_filter in Hsst as [Hfree [Hexpired Hsst]%list_elem_of_filter].
  exists o, sstables, U, sst, c. cbv zeta. split_and!; try done.
  intros c' Hc' Hm.
  unfold total_space_for_sstables_in_mb in Hsize.
  match type of Hsize with
  | context [total_space_in_bytes _ _ _ ?l 0] =>
      pose proof (total_space_in_bytes_spec st_size (m_world m0) (arg_table args) l 0)
        as Hspec
  end.
  destruct (total_space_in_bytes st_size (m_world m0) (arg_table args) _ 0) as [e|total];
    [discriminate|].
  destruct Hspec as [Hfound _]. apply Hfound; try done.
  apply list_elem_of_filter. split; [done|]. by apply list_elem_of_filter.
Qed.


End program_properties.

Lemma main_changes_files_only_after_checks_witness :
  (m_world sample_main.1 = sample_world_main ∧ m_calls sample_main.1 = [])
  ∨ (arg_safely_move_expired_sstables_to sample_arguments ≠ EmptyString
     ∧ is_scylla_running [Some "systemd"; Some "python3"] = Some false
     ∧ isdir sample_fs_main (arg_safely_move_expired_sstables_to sample_arguments) = true
     ∧ isdir sample_fs_main (arg_table sample_arguments) = true
     ∧ arg_default_ttl sample_arguments ≠ 0
     ∧ 1800000000 ≠ 0).
Proof.
  apply (main_changes_files_only_after_checks map_st_size map_link map_remove
           sample_fs_main [Some "systemd"; Some "python3"] 1800000000 sample_arguments
           (mk_machine sample_world_main [] []) sample_main.1 sample_main.2).
  vm_compute. reflexivity.
Defined.

Lemma main_moves_only_unblocked_expired_sstables_witness :
  ∃ done, m_calls sample_main.1 = [] ++ done
    ∧ ∀ op, op ∈ done →
        ∃ o sstables U sst c,
          let expired sst := is_sstable_expired sst (1800000000 - 0) 3600 false = true in
          process_sstables sample_fs_main "/t" 1800000000 = (o, Ret sstables)
          ∧ sst ∈ sstables
          ∧ expired sst
          ∧ get_unified_token_range (filter expired sstables) = Some U
          ∧ ¬ blocked_by (candidates U (filter (λ sst, ¬ expired sst) sstables)) sst
          ∧ (∀ c', c' ∈ sstable_components → mandatory c' →
               is_Some (map_st_size sample_world_main (component_path "/t" (name sst) c')))
          ∧ c ∈ sstable_components
          ∧ (op = Link (component_path "/t" (name sst) c)
                       (component_path "/b" (name sst) c)
             ∨ op = Remove (component_path "/t" (name sst) c)).
Proof.
  apply (main_moves_only_unblocked_expired_sstables map_st_size map_link map_remove
           sample_fs_main [Some "systemd"; Some "python3"] 1800000000 sample_arguments
           (mk_machine sample_world_main [] []) sample_main.1 sample_main.2).
  vm_compute. reflexivity.
Defined.

